(** * Cleanup scopes, jump targets and forward gotos of [ir/irfunction.cpp]

    A shallow embedding of the control-flow lowering core of the LDC
    function code generator ([executeCleanup] and the [ScopeStack]
    methods), together with the properties its specification states, and
    of the per-function record of the same file ([IrFunction], [getIrFunc],
    [isIrFuncCreated] and the inlining attributes), with further
    properties read off the code.

    The target IR is modelled as far as the core touches it: basic blocks
    are instruction lists ending (or not yet ending) in a terminator, the
    function is a finite map from block identities to blocks, and the IR
    builder operations the code calls are small functions on that map. *)

From stdpp Require Import gmap strings list fin_maps.

(** ** Identities

    [llvm::BasicBlock*], [llvm::Value*], [Statement*] and [Identifier*] are
    only ever compared by address; they are modelled as opaque tokens. *)

Abbreviation block := positive.
Abbreviation value := positive.
Abbreviation Statement := positive.
Abbreviation Identifier := positive.
Abbreviation Loc := positive.

(** ** Failures

    [assert] and the checked [llvm::cast] abort the compiler; dereferencing
    the null result of [getTerminator()] or popping an empty vector is
    undefined behaviour. Both end the run and are kept apart from user
    diagnostics. *)

Inductive Failure :=
| AssertionFailure (what : string)
| UndefinedBehaviour (what : string).

Inductive Result (A : Type) :=
| Ok (a : A)
| Fail (f : Failure).
Arguments Ok {A} a.
Arguments Fail {A} f.

#[global] Instance Result_ret : MRet Result := @Ok.
#[global] Instance Result_bind : MBind Result := λ A B k m,
  match m with
  | Ok a => k a
  | Fail f => Fail f
  end.

Definition assert (b : bool) (what : string) : Result unit :=
  if b then Ok tt else Fail (AssertionFailure what).

Definition isOk {A} (r : Result A) : Prop :=
  match r with Ok _ => True | Fail _ => False end.

(** ** Instructions and basic blocks

    The target IR and its builder (LLVM) are outside the sources; the
    instructions and operations below are the ones [irfunction.cpp] creates
    and calls. *)

(** Modelled from the spec: the selector slot is integer-valued; the code
    asks for [llvm::Type::getInt32Ty]. *)
Inductive llty := Int32Ty.

(** Modelled from the spec: the IR builder collaborator is not part of the
    sources: unconditional branch, multi-way switch on an integer value with
    an extensible case list, store of a constant into a slot, load of a
    slot, allocation of a slot. The constant of a store or of a switch case
    is the unsigned number given to [DtoConstUint] ([gen/tollvm.h], not part
    of the sources either). [OtherInst] stands for any instruction emitted
    by the rest of the code generator: it records whether it is a
    terminator and which blocks it uses as operands. *)
Inductive instr :=
| Br (dest : block)
| Switch (cond : value) (dflt : block) (cases : list (nat * block))
| Store (c : nat) (ptr : value)
| Load (res : value) (ptr : value)
| Alloca (res : value) (ty : llty) (name : string)
| OtherInst (tag : nat) (terminator : bool) (operands : list block).

Record BasicBlock := mkBB { bbName : string; bbInsts : list instr }.

Definition isTerminator (i : instr) : bool :=
  match i with
  | Br _ | Switch _ _ _ => true
  | OtherInst _ t _ => t
  | _ => false
  end.

(** Modelled from the spec: [BasicBlock::getTerminator()] of the IR builder
    collaborator, the final instruction of a block when it is a terminator,
    null otherwise. *)
Definition getTerminator (l : list instr) : option instr :=
  match last l with
  | Some i => if isTerminator i then Some i else None
  | None => None
  end.

(** Modelled from the spec: emitting an instruction immediately before the
    terminator of a block, [new T(..., b->getTerminator())]; with a null
    insertion point the instruction is created detached and the block is
    left as it is. *)
Definition insertBeforeTerminator (i : instr) (l : list instr) : list instr :=
  match getTerminator l with
  | Some t => removelast l ++ [i; t]
  | None => l
  end.

(** Modelled from the spec: extending the case list of the switch that
    ends a block, [cast<SwitchInst>(b->getTerminator())->addCase(c, dest)];
    the checked cast fails on any other terminator and on none. *)
Definition addCase (c : nat) (dest : block) (l : list instr) : option (list instr) :=
  match getTerminator l with
  | Some (Switch v d cs) => Some (removelast l ++ [Switch v d (cs ++ [(c, dest)])])
  | _ => None
  end.

(** Modelled from the spec: replacing the uses of a block as an operand,
    one operand and one instruction at a time. *)
Definition replaceBlock (old new b : block) : block :=
  if decide (b = old) then new else b.

Definition replaceUses (old new : block) (i : instr) : instr :=
  match i with
  | Br d => Br (replaceBlock old new d)
  | Switch v d cs =>
      Switch v (replaceBlock old new d)
             (map (λ c, (c.1, replaceBlock old new c.2)) cs)
  | OtherInst t tm ops => OtherInst t tm (map (replaceBlock old new) ops)
  | _ => i
  end.

Definition usesBlock (b : block) (i : instr) : Prop :=
  match i with
  | Br d => d = b
  | Switch _ d cs => d = b ∨ b ∈ map snd cs
  | OtherInst _ _ ops => b ∈ ops
  | _ => False
  end.

(** ** The code-generation state the core reaches through [IRState*] *)

(** Modelled from the spec: [gen/irstate.h] is not part of the sources; the
    model keeps what [irfunction.cpp] reads through it: the function being
    built ([topfunc()]), the current insertion block ([scopebb()], where
    the builder [irs->ir] appends), and the function-entry insertion point
    for allocas ([topallocapoint()]), kept as the list of instructions
    placed before it. [nextValue] names the next SSA value created. *)
Record IRState := mkIRState {
  func : gmap block BasicBlock;
  allocas : list instr;
  scopebb : block;
  nextValue : value;
}.

Definition setFunc (f : gmap block BasicBlock) (irs : IRState) : IRState :=
  mkIRState f (allocas irs) (scopebb irs) (nextValue irs).

Definition insts (irs : IRState) (b : block) : option (list instr) :=
  bbInsts <$> func irs !! b.

(** The instructions of a block; a block that is not (or no longer) in the
    function has none. *)
Definition instsOf (irs : IRState) (b : block) : list instr :=
  default [] (insts irs b).

Definition updInsts (g : list instr → list instr) (bb : BasicBlock) : BasicBlock :=
  mkBB (bbName bb) (g (bbInsts bb)).

(** Apply an edit to the instruction list of one block of the function. *)
Definition editBlock (b : block) (g : list instr → list instr) (irs : IRState) : IRState :=
  setFunc (alter (updInsts g) b (func irs)) irs.

(** Modelled from the spec: [BranchInst::Create(dest, b)],
    [new LoadInst(..., b)] and [irs->ir->CreateBr(dest)] append at the end
    of the block. *)
Definition appendInst (b : block) (i : instr) : IRState → IRState :=
  editBlock b (λ l, l ++ [i]).

(** Modelled from the spec: a store of a constant into a slot immediately
    before the terminator of a block,
    [new StoreInst(DtoConstUint(c), sel, b->getTerminator())]. *)
Definition storeBeforeTerminator (c : nat) (sel : value) (b : block) : IRState → IRState :=
  editBlock b (insertBeforeTerminator (Store c sel)).

(** Modelled from the spec: replacing all uses of a block,
    [old->replaceAllUsesWith(new)]: every operand use in the function. The
    core keeps its own references to blocks (exit targets, jump targets,
    goto records) as plain pointers, which this does not touch. *)
Definition replaceAllUsesWith (old new : block) (irs : IRState) : IRState :=
  setFunc (updInsts (map (replaceUses old new)) <$> func irs) irs.

(** Modelled from the spec: discarding a block, [b->eraseFromParent()]. *)
Definition eraseFromParent (b : block) (irs : IRState) : IRState :=
  setFunc (delete b (func irs)) irs.

(** Modelled from the spec: creating a new basic block attached to the
    current function, [llvm::BasicBlock::Create(ctx, name, irs->topfunc())]:
    a block distinct from every block of the function, empty. *)
Definition createBlock (name : string) (irs : IRState) : block * IRState :=
  let b := fresh (dom (func irs)) in
  (b, setFunc (<[b := mkBB name []]> (func irs)) irs).

Definition blockName (irs : IRState) (b : block) : string :=
  default "" (bbName <$> func irs !! b).

(** ** Data model of the scope stack *)

(** Modelled from the spec: the struct declarations live in
    [ir/irfunction.h], which is not part of the sources; the fields are the
    ones [irfunction.cpp] reads and writes, with the meaning the data model
    of the specification gives them. A [std::vector] is a list whose last
    element is [back()]. *)
Record CleanupExitTarget := mkExitTarget {
  branchTarget : block;
  sourceBlocks : list block;
}.

(** Modelled from the spec: [GotoJump] of [ir/irfunction.h]: source
    location, source block, placeholder block and awaited label. *)
Record GotoJump := mkGotoJump {
  sourceLoc : Loc;
  sourceBlock : block;
  tentativeTarget : block;
  targetLabel : Identifier;
}.

(** Modelled from the spec: [CleanupScope] of [ir/irfunction.h]; a null
    [branchSelector] is [None]. *)
Record CleanupScope := mkCleanupScope {
  beginBlock : block;
  endBlock : block;
  exitTargets : list CleanupExitTarget;
  branchSelector : option value;
  unresolvedGotos : list GotoJump;
}.

(** Modelled from the spec: [JumpTarget] of [ir/irfunction.h]; the label
    table stores a null statement ([None]). A [CleanupCursor] is an index
    into the scope stack. *)
Record JumpTarget := mkJumpTarget {
  targetBlock : block;
  cleanupScope : nat;
  targetStatement : option Statement;
}.

#[global] Instance CleanupExitTarget_eq_dec : EqDecision CleanupExitTarget.
Proof. solve_decision. Defined.
#[global] Instance GotoJump_eq_dec : EqDecision GotoJump.
Proof. solve_decision. Defined.
#[global] Instance JumpTarget_eq_dec : EqDecision JumpTarget.
Proof. solve_decision. Defined.

Definition setExitTargets (ts : list CleanupExitTarget) (sc : CleanupScope) : CleanupScope :=
  mkCleanupScope (beginBlock sc) (endBlock sc) ts (branchSelector sc) (unresolvedGotos sc).

Definition setBranchSelector (s : option value) (sc : CleanupScope) : CleanupScope :=
  mkCleanupScope (beginBlock sc) (endBlock sc) (exitTargets sc) s (unresolvedGotos sc).

Definition setUnresolvedGotos (gs : list GotoJump) (sc : CleanupScope) : CleanupScope :=
  mkCleanupScope (beginBlock sc) (endBlock sc) (exitTargets sc) (branchSelector sc) gs.

(** [t.sourceBlocks.push_back(b)]. *)
Definition addSource (b : block) (t : CleanupExitTarget) : CleanupExitTarget :=
  mkExitTarget (branchTarget t) (sourceBlocks t ++ [b]).

(** ** The cleanup multiplexer *)

(** The search loop of lines 74-89: the first index whose exit target has
    the requested destination. *)
Fixpoint findExitTarget (i : nat) (ts : list CleanupExitTarget) (continueWith : block)
    : option nat :=
  match ts with
  | [] => None
  | t :: ts' =>
      if decide (branchTarget t = continueWith) then Some i
      else findExitTarget (S i) ts' continueWith
  end.

(** The backfill loop of lines 50-56. *)
Fixpoint storeZeroes (sel : value) (v : list block) (irs : IRState) : IRState :=
  match v with
  | [] => irs
  | b :: v' => storeZeroes sel v' (storeBeforeTerminator 0 sel b irs)
  end.

(** Lines 42-46: the selector slot, an [i32] alloca named after the entry
    block of the scope, placed at the function-entry alloca point. *)
Definition createSelector (irs : IRState) (scope : CleanupScope) : value * IRState :=
  let sel := nextValue irs in
  (sel, mkIRState (func irs)
          (allocas irs ++ [Alloca sel Int32Ty ("branchsel." +:+ blockName irs (beginBlock scope))])
          (scopebb irs) (Pos.succ sel)).

(** Lines 60-68: drop the branch that ends the exit block, load the
    selector there and switch on the loaded value, defaulting to the first
    exit target. *)
Definition convertToSwitch (sel : value) (scope : CleanupScope) (dflt : block)
    (irs : IRState) : Result IRState :=
  match getTerminator (instsOf irs (endBlock scope)) with
  | Some _ =>
      let r := nextValue irs in
      let irs := editBlock (endBlock scope)
                   (λ l, removelast l ++ [Load r sel; Switch r dflt []]) irs in
      Ok (mkIRState (func irs) (allocas irs) (scopebb irs) (Pos.succ r))
  | None => Fail (UndefinedBehaviour "endBlock->getTerminator() is null")
  end.

(** Lines 40-69: the scope needs a selector and has none yet. *)
Definition createBranchSelector (irs : IRState) (scope : CleanupScope)
    (t0 : CleanupExitTarget) : Result (value * IRState) :=
  let '(sel, irs) := createSelector irs scope in
  let irs := storeZeroes sel (sourceBlocks t0) irs in
  irs ← convertToSwitch sel scope (branchTarget t0) irs;
  Ok (sel, irs).

(** Lines 74-103: give the request its selector value. *)
Definition selectExit (sel : value) (irs : IRState) (scope : CleanupScope)
    (sourceBlock continueWith : block) : Result (IRState * CleanupScope) :=
  match findExitTarget 0 (exitTargets scope) continueWith with
  | Some i =>
      (* lines 74-89 *)
      Ok (storeBeforeTerminator i sel sourceBlock irs,
          setExitTargets (alter (addSource sourceBlock) i (exitTargets scope)) scope)
  | None =>
      (* lines 92-103 *)
      let selectorVal := length (exitTargets scope) in
      match addCase selectorVal continueWith (instsOf irs (endBlock scope)) with
      | Some l =>
          let irs := editBlock (endBlock scope) (λ _, l) irs in
          Ok (storeBeforeTerminator selectorVal sel sourceBlock irs,
              setExitTargets
                (exitTargets scope ++ [mkExitTarget continueWith [sourceBlock]])
                scope)
      | None => Fail (AssertionFailure "cast<SwitchInst>(endBlock->getTerminator())")
      end
  end.

(** Lines 19-104. *)
Definition executeCleanup (irs : IRState) (scope : CleanupScope)
    (sourceBlock continueWith : block) : Result (IRState * CleanupScope) :=
  match exitTargets scope with
  | [] =>
      (* lines 22-37, first call on the scope *)
      _ ← assert (bool_decide (branchSelector scope = None)) "!scope.branchSelector";
      Ok (appendInst (endBlock scope) (Br continueWith) irs,
          setExitTargets [mkExitTarget continueWith [sourceBlock]] scope)
  | t0 :: ts =>
      if bool_decide (ts = [] ∧ branchTarget t0 = continueWith) then
        (* lines 22-37, the sole destination again *)
        _ ← assert (bool_decide (branchSelector scope = None)) "!scope.branchSelector";
        Ok (irs, setExitTargets [addSource sourceBlock t0] scope)
      else
        '(sel, irs) ← match branchSelector scope with
                      | Some sel => Ok (sel, irs)
                      | None => createBranchSelector irs scope t0
                      end;
        selectExit sel irs (setBranchSelector (Some sel) scope) sourceBlock continueWith
  end.

(** ** The scope stack *)

(** Modelled from the spec: the members of [ScopeStack] are declared in
    [ir/irfunction.h], which is not part of the sources; these are the
    members [irfunction.cpp] uses. *)
Record ScopeStack := mkScopeStack {
  irs : IRState;
  cleanupScopes : list CleanupScope;
  continueTargets : list JumpTarget;
  breakTargets : list JumpTarget;
  labelTargets : gmap Identifier JumpTarget;
  topLevelUnresolvedGotos : list GotoJump;
}.

Definition setIrs (i : IRState) (st : ScopeStack) : ScopeStack :=
  mkScopeStack i (cleanupScopes st) (continueTargets st) (breakTargets st)
    (labelTargets st) (topLevelUnresolvedGotos st).

Definition setCleanupScopes (cs : list CleanupScope) (st : ScopeStack) : ScopeStack :=
  mkScopeStack (irs st) cs (continueTargets st) (breakTargets st)
    (labelTargets st) (topLevelUnresolvedGotos st).

Definition setContinueTargets (ts : list JumpTarget) (st : ScopeStack) : ScopeStack :=
  mkScopeStack (irs st) (cleanupScopes st) ts (breakTargets st)
    (labelTargets st) (topLevelUnresolvedGotos st).

Definition setBreakTargets (ts : list JumpTarget) (st : ScopeStack) : ScopeStack :=
  mkScopeStack (irs st) (cleanupScopes st) (continueTargets st) ts
    (labelTargets st) (topLevelUnresolvedGotos st).

Definition setLabelTargets (m : gmap Identifier JumpTarget) (st : ScopeStack) : ScopeStack :=
  mkScopeStack (irs st) (cleanupScopes st) (continueTargets st) (breakTargets st)
    m (topLevelUnresolvedGotos st).

Definition setTopLevelUnresolvedGotos (gs : list GotoJump) (st : ScopeStack) : ScopeStack :=
  mkScopeStack (irs st) (cleanupScopes st) (continueTargets st) (breakTargets st)
    (labelTargets st) gs.

(** Modelled from the spec: [currentCleanupScope()] is defined in
    [ir/irfunction.h]; the cleanup cursor is the number of cleanup scopes
    currently active. *)
Definition currentCleanupScope (st : ScopeStack) : nat :=
  length (cleanupScopes st).

(** Lines 258-262. *)
Definition currentUnresolvedGotos (st : ScopeStack) : list GotoJump :=
  match last (cleanupScopes st) with
  | None => topLevelUnresolvedGotos st
  | Some sc => unresolvedGotos sc
  end.

(** Writing through the reference [currentUnresolvedGotos()] returns. *)
Definition setCurrentUnresolvedGotos (gs : list GotoJump) (st : ScopeStack) : ScopeStack :=
  match last (cleanupScopes st) with
  | None => setTopLevelUnresolvedGotos gs st
  | Some sc =>
      setCleanupScopes (removelast (cleanupScopes st) ++ [setUnresolvedGotos gs sc]) st
  end.

(** Modelled from the spec: [error] and [fatal] belong to the diagnostics
    collaborator, which is not part of the sources: a location-tagged error
    message, and the fatal abort of code generation. *)
Inductive Diagnostic :=
| DiagError (loc : Loc) (msg : string)
| DiagFatal.

(** [ScopeStack::~ScopeStack], lines 107-117: the calls made on the
    diagnostics collaborator, in order. *)
Definition ScopeStack_destroy (st : ScopeStack) : list Diagnostic :=
  match topLevelUnresolvedGotos st with
  | [] => []
  | gs =>
      map (λ g, DiagError (sourceLoc g) "goto into try/finally scope is not allowed") gs
      ++ [DiagFatal]
  end.

(** Lines 119-121. *)
Definition pushCleanup (st : ScopeStack) (beginBlock endBlock : block) : ScopeStack :=
  setCleanupScopes (cleanupScopes st ++ [mkCleanupScope beginBlock endBlock [] None []]) st.

(** [executeCleanup(irs, cleanupScopes[i], sourceBlock, continueWith)]:
    the scope is passed by reference and updated in place. *)
Definition executeCleanupAt (i : nat) (sourceBlock continueWith : block)
    (st : ScopeStack) : Result ScopeStack :=
  match cleanupScopes st !! i with
  | None => Fail (UndefinedBehaviour "cleanupScopes[i] out of range")
  | Some sc =>
      '(irs', sc') ← executeCleanup (irs st) sc sourceBlock continueWith;
      Ok (setCleanupScopes (<[i := sc']> (cleanupScopes st)) (setIrs irs' st))
  end.

(** The loop of lines 139-143, [for (i = ...; i-- > targetScope;)]: the
    argument is the value of [i] before the test. *)
Fixpoint runCleanups_loop (i targetScope : nat) (continueWith : block)
    (st : ScopeStack) : Result ScopeStack :=
  match i with
  | 0 => Ok st
  | S i' =>
      if bool_decide (targetScope < i) then
        nextBlock ←
          (if bool_decide (targetScope < i') then
             match cleanupScopes st !! (i' - 1) with
             | Some sc => Ok (beginBlock sc)
             | None => Fail (UndefinedBehaviour "cleanupScopes[i - 1] out of range")
             end
           else Ok continueWith);
        st ← executeCleanupAt i' (scopebb (irs st)) nextBlock st;
        runCleanups_loop i' targetScope continueWith st
      else Ok st
  end.

(** Lines 123-144. *)
Definition runCleanups (st : ScopeStack) (targetScope : nat) (continueWith : block)
    : Result ScopeStack :=
  _ ← assert (bool_decide (targetScope ≤ currentCleanupScope st))
        "targetScope <= currentCleanupScope()";
  if bool_decide (targetScope = currentCleanupScope st) then
    Ok (setIrs (appendInst (scopebb (irs st)) (Br continueWith) (irs st)) st)
  else
    match last (cleanupScopes st) with
    | None => Fail (UndefinedBehaviour "cleanupScopes.back() on an empty vector")
    | Some sc =>
        let st := setIrs (appendInst (scopebb (irs st)) (Br (beginBlock sc)) (irs st)) st in
        runCleanups_loop (currentCleanupScope st) targetScope continueWith st
    end.

(** Lines 146-148. *)
Definition runAllCleanups (st : ScopeStack) (continueWith : block) : Result ScopeStack :=
  runCleanups st 0 continueWith.

(** [std::vector::pop_back]; undefined on an empty vector. *)
Definition pop_back {A} (l : list A) : Result (list A) :=
  match l with
  | [] => Fail (UndefinedBehaviour "pop_back() on an empty vector")
  | _ => Ok (removelast l)
  end.

(** The inner loop of lines 154-165 over the unresolved gotos of the scope
    being popped. *)
Fixpoint popCleanups_gotos (i : nat) (gs : list GotoJump) (st : ScopeStack)
    : Result ScopeStack :=
  match gs with
  | [] => Ok st
  | g :: gs' =>
      match cleanupScopes st !! i with
      | None => Fail (UndefinedBehaviour "cleanupScopes[i] out of range")
      | Some sc =>
          let tentative := tentativeTarget g in
          let st := setIrs (replaceAllUsesWith tentative (beginBlock sc) (irs st)) st in
          st ← executeCleanupAt i (sourceBlock g) tentative st;
          popCleanups_gotos i gs' st
      end
  end.

(** Lines 168-174: append the current list to the next enclosing one. *)
Definition mergeUnresolved (i : nat) (st : ScopeStack) : Result ScopeStack :=
  let cur := currentUnresolvedGotos st in
  if bool_decide (i = 0) then
    Ok (setTopLevelUnresolvedGotos (topLevelUnresolvedGotos st ++ cur) st)
  else
    match cleanupScopes st !! (i - 1) with
    | None => Fail (UndefinedBehaviour "cleanupScopes[i - 1] out of range")
    | Some sc =>
        Ok (setCleanupScopes
              (<[i - 1 := setUnresolvedGotos (unresolvedGotos sc ++ cur) sc]>
                 (cleanupScopes st)) st)
    end.

(** The loop of lines 153-177; the argument is [i] before the test. *)
Fixpoint popCleanups_loop (i targetScope : nat) (st : ScopeStack) : Result ScopeStack :=
  match i with
  | 0 => Ok st
  | S i' =>
      if bool_decide (targetScope < i) then
        st ← popCleanups_gotos i' (currentUnresolvedGotos st) st;
        st ← mergeUnresolved i' st;
        cs ← pop_back (cleanupScopes st);
        popCleanups_loop i' targetScope (setCleanupScopes cs st)
      else Ok st
  end.

(** Lines 150-178. *)
Definition popCleanups (st : ScopeStack) (targetScope : nat) : Result ScopeStack :=
  if bool_decide (targetScope = currentCleanupScope st) then Ok st
  else popCleanups_loop (currentCleanupScope st) targetScope st.

(** Lines 180-185. *)
Definition pushLoopTarget (st : ScopeStack) (loopStatement : Statement)
    (continueTarget breakTarget : block) : ScopeStack :=
  let st := setContinueTargets
              (continueTargets st ++
               [mkJumpTarget continueTarget (currentCleanupScope st) (Some loopStatement)]) st in
  setBreakTargets
    (breakTargets st ++
     [mkJumpTarget breakTarget (currentCleanupScope st) (Some loopStatement)]) st.

(** Lines 187-190. *)
Definition popLoopTarget (st : ScopeStack) : Result ScopeStack :=
  cts ← pop_back (continueTargets st);
  let st := setContinueTargets cts st in
  bts ← pop_back (breakTargets st);
  Ok (setBreakTargets bts st).

(** Lines 192-196. *)
Definition pushBreakTarget (st : ScopeStack) (switchStatement : Statement)
    (targetBlock : block) : ScopeStack :=
  setBreakTargets
    (breakTargets st ++
     [mkJumpTarget targetBlock (currentCleanupScope st) (Some switchStatement)]) st.

(** Lines 198-200. *)
Definition popBreakTarget (st : ScopeStack) : Result ScopeStack :=
  bts ← pop_back (breakTargets st);
  Ok (setBreakTargets bts st).

(** The loop of lines 208-218 over the current unresolved list: entries
    awaiting another label are stepped over, a matching entry has its
    placeholder redirected and erased and is removed from the list. *)
Fixpoint resolveGotos (labelName : Identifier) (targetBlock : block)
    (unresolved : list GotoJump) (irs : IRState) : list GotoJump * IRState :=
  match unresolved with
  | [] => ([], irs)
  | g :: rest =>
      if bool_decide (targetLabel g ≠ labelName) then
        let '(rest', irs) := resolveGotos labelName targetBlock rest irs in
        (g :: rest', irs)
      else
        let irs := replaceAllUsesWith (tentativeTarget g) targetBlock irs in
        let irs := eraseFromParent (tentativeTarget g) irs in
        resolveGotos labelName targetBlock rest irs
  end.

(** Lines 202-219. *)
Definition addLabelTarget (st : ScopeStack) (labelName : Identifier)
    (targetBlock : block) : ScopeStack :=
  let st := setLabelTargets
              (<[labelName := mkJumpTarget targetBlock (currentCleanupScope st) None]>
                 (labelTargets st)) st in
  let '(unresolved, irs') :=
    resolveGotos labelName targetBlock (currentUnresolvedGotos st) (irs st) in
  setCurrentUnresolvedGotos unresolved (setIrs irs' st).

(** Lines 221-234. *)
Definition jumpToLabel (st : ScopeStack) (loc : Loc) (labelName : Identifier)
    : Result ScopeStack :=
  match labelTargets st !! labelName with
  | Some t => runCleanups st (cleanupScope t) (targetBlock t)
  | None =>
      let '(target, irs') := createBlock "goto.unresolved" (irs st) in
      let irs' := appendInst (scopebb irs') (Br target) irs' in
      let st := setIrs irs' st in
      Ok (setCurrentUnresolvedGotos
            (currentUnresolvedGotos st ++
             [mkGotoJump loc (scopebb (irs st)) target labelName]) st)
  end.

(** The reverse iteration of lines 239-247, on the stack read from its
    back. *)
Fixpoint findStatement (rtargets : list JumpTarget) (s : Statement) : option JumpTarget :=
  match rtargets with
  | [] => None
  | t :: rest =>
      if bool_decide (targetStatement t = Some s) then Some t
      else findStatement rest s
  end.

(** Lines 236-249. *)
Definition jumpToStatement (st : ScopeStack) (targets : list JumpTarget)
    (loopOrSwitchStatement : Statement) : Result ScopeStack :=
  match findStatement (rev targets) loopOrSwitchStatement with
  | Some t => runCleanups st (cleanupScope t) (targetBlock t)
  | None => Fail (AssertionFailure "Target for labeled break not found.")
  end.

(** Lines 251-256. *)
Definition jumpToClosest (st : ScopeStack) (targets : list JumpTarget)
    : Result ScopeStack :=
  _ ← assert (bool_decide (targets ≠ []))
        "Encountered break/continue but no loop in scope.";
  match last targets with
  | Some t => runCleanups st (cleanupScope t) (targetBlock t)
  | None => Fail (UndefinedBehaviour "back() on an empty vector")
  end.

(** ** Observations used by the statements *)

#[global] Instance Diagnostic_eq_dec : EqDecision Diagnostic.
Proof. solve_decision. Defined.

(** The locations of the errors reported, in the order of the calls. *)
Definition errorLocs (ds : list Diagnostic) : list Loc :=
  omap (λ d, match d with DiagError l _ => Some l | DiagFatal => None end) ds.

Definition fatalCount (ds : list Diagnostic) : nat :=
  length (filter (λ d, d = DiagFatal) ds).

(** Registrations of break targets by loops and switches, in any
    interleaving. *)
Inductive Registration :=
| RegLoop (loopStatement : Statement) (continueTarget breakTarget : block)
| RegSwitch (switchStatement : Statement) (targetBlock : block).

Definition register (st : ScopeStack) (r : Registration) : ScopeStack :=
  match r with
  | RegLoop s c b => pushLoopTarget st s c b
  | RegSwitch s b => pushBreakTarget st s b
  end.

Definition breakEntry (cursor : nat) (r : Registration) : JumpTarget :=
  match r with
  | RegLoop s _ b => mkJumpTarget b cursor (Some s)
  | RegSwitch s b => mkJumpTarget b cursor (Some s)
  end.

Definition continueEntries (cursor : nat) (r : Registration) : list JumpTarget :=
  match r with
  | RegLoop s c _ => [mkJumpTarget c cursor (Some s)]
  | RegSwitch _ _ => []
  end.

(** The operations a statement-lowering pass performs on one scope stack.
    [OpCodegen] is any other code-generation activity on the target IR
    between two calls (new blocks, instructions, a new insertion block). *)
Inductive TargetStack := ContinueStack | BreakStack.

Definition targetsOf (w : TargetStack) (st : ScopeStack) : list JumpTarget :=
  match w with
  | ContinueStack => continueTargets st
  | BreakStack => breakTargets st
  end.

Inductive Op :=
| OpPushCleanup (beginBlock endBlock : block)
| OpRunCleanups (targetScope : nat) (continueWith : block)
| OpRunAllCleanups (continueWith : block)
| OpPopCleanups (targetScope : nat)
| OpPushLoopTarget (s : Statement) (continueTarget breakTarget : block)
| OpPopLoopTarget
| OpPushBreakTarget (s : Statement) (targetBlock : block)
| OpPopBreakTarget
| OpAddLabelTarget (labelName : Identifier) (targetBlock : block)
| OpJumpToLabel (loc : Loc) (labelName : Identifier)
| OpJumpToStatement (w : TargetStack) (s : Statement)
| OpJumpToClosest (w : TargetStack)
| OpCodegen (g : IRState → IRState).

Definition runOp (st : ScopeStack) (o : Op) : Result ScopeStack :=
  match o with
  | OpPushCleanup b e => Ok (pushCleanup st b e)
  | OpRunCleanups t c => runCleanups st t c
  | OpRunAllCleanups c => runAllCleanups st c
  | OpPopCleanups t => popCleanups st t
  | OpPushLoopTarget s c b => Ok (pushLoopTarget st s c b)
  | OpPopLoopTarget => popLoopTarget st
  | OpPushBreakTarget s b => Ok (pushBreakTarget st s b)
  | OpPopBreakTarget => popBreakTarget st
  | OpAddLabelTarget l b => Ok (addLabelTarget st l b)
  | OpJumpToLabel loc l => jumpToLabel st loc l
  | OpJumpToStatement w s => jumpToStatement st (targetsOf w st) s
  | OpJumpToClosest w => jumpToClosest st (targetsOf w st)
  | OpCodegen g => Ok (setIrs (g (irs st)) st)
  end.

Fixpoint runOps (ops : list Op) (st : ScopeStack) : Result ScopeStack :=
  match ops with
  | [] => Ok st
  | o :: ops' => st ← runOp st o; runOps ops' st
  end.

Definition definesLabel (l : Identifier) (o : Op) : Prop :=
  match o with
  | OpAddLabelTarget l' _ => l' = l
  | _ => False
  end.

(** What the specification says [addLabelTarget] does to one matching
    entry: redirect every use of its placeholder to the block of the label,
    then discard the placeholder. *)
Definition resolveOne (targetBlock : block) (irs : IRState) (g : GotoJump) : IRState :=
  eraseFromParent (tentativeTarget g)
    (replaceAllUsesWith (tentativeTarget g) targetBlock irs).

(** No instruction of the function has the block as an operand. *)
Definition noUses (b : block) (irs : IRState) : Prop :=
  ∀ b' l, insts irs b' = Some l → Forall (λ i, ¬ usesBlock b i) l.

Definition pushesOrPopsCleanup (o : Op) : Prop :=
  match o with
  | OpPushCleanup _ _ | OpPopCleanups _ => True
  | _ => False
  end.

(** The combined effect on one instruction of redirecting the
    placeholders of the given gotos, in list order, to [targetBlock]. *)
Definition redirectAll (targetBlock : block) (gs : list GotoJump) (i : instr) : instr :=
  foldl (λ i g, replaceUses (tentativeTarget g) targetBlock i) i gs.

(** What every call of the multiplexer leaves unchanged in the scope
    stack. *)
Definition cleanupFrame (st st' : ScopeStack) : Prop :=
  continueTargets st' = continueTargets st
  ∧ breakTargets st' = breakTargets st
  ∧ labelTargets st' = labelTargets st
  ∧ topLevelUnresolvedGotos st' = topLevelUnresolvedGotos st
  ∧ scopebb (irs st') = scopebb (irs st)
  ∧ dom (func (irs st')) = dom (func (irs st))
  ∧ beginBlock <$> cleanupScopes st' = beginBlock <$> cleanupScopes st
  ∧ endBlock <$> cleanupScopes st' = endBlock <$> cleanupScopes st
  ∧ unresolvedGotos <$> cleanupScopes st' = unresolvedGotos <$> cleanupScopes st.

(** ** Well-formed scopes

    The condition under which the multiplexer runs without tripping an
    assertion: a scope without selector has no exit target yet, or exactly
    one and an exit block that ends in a terminator; a scope with a
    selector has at least two exit targets and an exit block that ends in a
    switch. The exit block is a block of the function. *)

Definition termOf (irs : IRState) (b : block) : option instr :=
  getTerminator (instsOf irs b).

Definition isSwitch (i : instr) : Prop :=
  match i with Switch _ _ _ => True | _ => False end.

Definition scopeOk (irs : IRState) (sc : CleanupScope) : Prop :=
  endBlock sc ∈ dom (func irs)
  ∧ match branchSelector sc with
    | None =>
        exitTargets sc = []
        ∨ (length (exitTargets sc) = 1 ∧ is_Some (termOf irs (endBlock sc)))
    | Some _ =>
        2 ≤ length (exitTargets sc)
        ∧ ∃ t, termOf irs (endBlock sc) = Some t ∧ isSwitch t
    end.

(** All active scopes are well formed and have exit blocks of their own. *)
Definition stackOk (st : ScopeStack) : Prop :=
  Forall (scopeOk (irs st)) (cleanupScopes st)
  ∧ NoDup (endBlock <$> cleanupScopes st).

(** ** The unwinding chain, in the words of the specification

    Walking from the innermost scope outward to the target cursor, one
    multiplexer call per scope; the continuation for scope [i] is the entry
    block of scope [i - 1], or [continueWith] for the outermost scope
    unwound. Every call has the current block as its source. *)

Definition chainContinuation (cs : list CleanupScope) (targetScope : nat)
    (continueWith : block) (i : nat) : block :=
  if decide (i = targetScope) then continueWith
  else default continueWith (beginBlock <$> cs !! (i - 1)).

Definition unwoundScopes (depth targetScope : nat) : list nat :=
  rev (seq targetScope (depth - targetScope)).

Definition cleanupChain (st : ScopeStack) (targetScope : nat) (continueWith : block)
    : list (nat * block * block) :=
  (λ i, (i, scopebb (irs st),
         chainContinuation (cleanupScopes st) targetScope continueWith i))
  <$> unwoundScopes (currentCleanupScope st) targetScope.

(** Run a list of multiplexer calls (scope index, source, continuation). *)
Fixpoint runChain (calls : list (nat * block * block)) (st : ScopeStack)
    : Result ScopeStack :=
  match calls with
  | [] => Ok st
  | (i, src, cw) :: calls' =>
      st ← executeCleanupAt i src cw st; runChain calls' st
  end.

(** ** Closing scopes, in the words of the specification

    For each scope popped, innermost first: for every goto pending on it,
    redirect the uses of the placeholder to the entry block of the scope
    and call the multiplexer from the source block of the goto to the
    placeholder; then merge the list into the next enclosing one and remove
    the scope. The gotos pending on scope [i] when it is popped are its own
    followed by those merged from the scopes inside it. *)

Inductive PopStep :=
| Redirect (old new : block)
| Edge (i : nat) (src dst : block)
| MergeAndPop (i : nat).

Definition pendingAt (cs : list CleanupScope) (i : nat) : list GotoJump :=
  concat (unresolvedGotos <$> drop i cs).

Definition gotoSteps (i : nat) (entry : block) (g : GotoJump) : list PopStep :=
  [Redirect (tentativeTarget g) entry; Edge i (sourceBlock g) (tentativeTarget g)].

Definition scopeSteps (cs : list CleanupScope) (i : nat) : list PopStep :=
  match cs !! i with
  | Some sc => flat_map (gotoSteps i (beginBlock sc)) (pendingAt cs i) ++ [MergeAndPop i]
  | None => []
  end.

Definition popPlan (cs : list CleanupScope) (targetScope : nat) : list PopStep :=
  flat_map (scopeSteps cs) (unwoundScopes (length cs) targetScope).

Definition runPopStep (st : ScopeStack) (p : PopStep) : Result ScopeStack :=
  match p with
  | Redirect old new => Ok (setIrs (replaceAllUsesWith old new (irs st)) st)
  | Edge i src dst => executeCleanupAt i src dst st
  | MergeAndPop i =>
      st ← mergeUnresolved i st;
      cs ← pop_back (cleanupScopes st);
      Ok (setCleanupScopes cs st)
  end.

Fixpoint runPopSteps (ps : list PopStep) (st : ScopeStack) : Result ScopeStack :=
  match ps with
  | [] => Ok st
  | p :: ps' => st ← runPopStep st p; runPopSteps ps' st
  end.

(** The multiplexer calls of a plan on scope [i]: (source, destination). *)
Definition edgesAt (i : nat) (ps : list PopStep) : list (block * block) :=
  omap (λ p, match p with
             | Edge j src dst => if decide (j = i) then Some (src, dst) else None
             | _ => None
             end) ps.

(** The scope stack and the top-level list after the scopes at and above
    [targetScope] are popped: the gotos pending on the popped scopes are
    appended to the list of scope [targetScope - 1], or to the top-level
    list when every scope is popped. *)
Definition poppedScopes (cs : list CleanupScope) (targetScope : nat) : list CleanupScope :=
  match targetScope with
  | 0 => []
  | S t' =>
      alter (λ sc, setUnresolvedGotos (unresolvedGotos sc ++ pendingAt cs targetScope) sc)
        t' (take targetScope cs)
  end.

Definition poppedTopLevel (top : list GotoJump) (cs : list CleanupScope)
    (targetScope : nat) : list GotoJump :=
  match targetScope with
  | 0 => top ++ pendingAt cs 0
  | S _ => top
  end.

(** The multiplexer edge of a pending goto: from its source block to its
    placeholder. *)
Definition gotoEdge (g : GotoJump) : block * block :=
  (sourceBlock g, tentativeTarget g).

(** ** Histories of requests on one scope *)

(** A sequence of multiplexer calls (source block, destination) on one
    scope. *)
Fixpoint runRequests (irs : IRState) (scope : CleanupScope)
    (reqs : list (block * block)) : Result (IRState * CleanupScope) :=
  match reqs with
  | [] => Ok (irs, scope)
  | (s, c) :: reqs' =>
      '(irs, scope) ← executeCleanup irs scope s c;
      runRequests irs scope reqs'
  end.

(** How often a block occurs in a list of source blocks. *)
Definition occurrences (b : block) (v : list block) : nat :=
  length (filter (λ x, x = b) v).

(** The distinct elements of a list in the order of their first
    occurrence. *)
Definition distinctInOrder (l : list block) : list block :=
  foldl (λ acc x, if decide (x ∈ acc) then acc else acc ++ [x]) [] l.

(** ** A scope with one exit target and no selector

    Block 3 is the exit block and already ends in the branch to block 6,
    the only destination so far, requested from block 5; block 4 ends in a
    branch into the cleanup and asks for destination 6 again. *)

Definition sole_irs : IRState :=
  mkIRState
    (list_to_map
       [(1%positive, mkBB "entry" [OtherInst 0 false []]);
        (2%positive, mkBB "finally" [OtherInst 1 false []]);
        (3%positive, mkBB "finally.end" [Br 6%positive]);
        (4%positive, mkBB "body" [Br 2%positive]);
        (5%positive, mkBB "loop" [Br 2%positive]);
        (6%positive, mkBB "after" [])])
    [] 4%positive 10%positive.

Definition sole_scope : CleanupScope :=
  mkCleanupScope 2%positive 3%positive [mkExitTarget 6%positive [5%positive]] None [].

(** The cases of the switch for the destinations after the first: the
    destination at index [i >= 1] is reached by selector value [i]. *)
Definition switchCases (ds : list block) : list (nat * block) :=
  imap (λ i d, (S i, d)) ds.

(** What one multiplexer call does for the request (source [s],
    destination [c]), by the result of the search of lines 74-89; an
    intermediate form, related to the positions by
    [indexStep_positionStep]. *)
Definition indexStep (irs : IRState) (sc : CleanupScope) (s c : block)
    (irs' : IRState) (sc' : CleanupScope) : Prop :=
  match findExitTarget 0 (exitTargets sc) c with
  | Some i =>
      (* known at index [i] *)
      exitTargets sc' = alter (addSource s) i (exitTargets sc)
      ∧ match branchSelector sc with
        | Some sel =>
            branchSelector sc' = Some sel ∧ irs' = storeBeforeTerminator i sel s irs
        | None => i = 0 ∧ branchSelector sc' = None ∧ irs' = irs
        end
  | None =>
      (* new: index [n], the current number of exit targets *)
      let n := length (exitTargets sc) in
      exitTargets sc' = exitTargets sc ++ [mkExitTarget c [s]]
      ∧ match exitTargets sc with
        | [] =>
            branchSelector sc' = None
            ∧ irs' = appendInst (endBlock sc) (Br c) irs
        | t0 :: _ =>
            ∃ sel irsS r d0 cs,
              branchSelector sc' = Some sel
              ∧ match branchSelector sc with
                | Some sel0 => sel0 = sel ∧ irsS = irs
                | None => createBranchSelector irs sc t0 = Ok (sel, irsS)
                end
              ∧ termOf irsS (endBlock sc) = Some (Switch r d0 cs)
              ∧ irs' = storeBeforeTerminator n sel s
                         (editBlock (endBlock sc)
                            (λ l, removelast l ++ [Switch r d0 (cs ++ [(n, c)])]) irsS)
        end
  end.

(** What one multiplexer call does for the request (source [s],
    destination [c]), by the position of the destination among the exit
    targets. A destination that is the branch target of the exit target at
    position [i] is known at index [i]: the source block is recorded there
    and, when the scope has its selector, [i] is stored before the
    terminator of the source block. A destination that is the branch
    target of no exit target is new: it is appended, so that its position
    is [n], the number of exit targets so far, and with a selector it gets
    the switch case [n] and the store of [n]. *)
Definition positionStep (irs : IRState) (sc : CleanupScope) (s c : block)
    (irs' : IRState) (sc' : CleanupScope) : Prop :=
  (∀ i t, exitTargets sc !! i = Some t → branchTarget t = c →
     exitTargets sc' = alter (addSource s) i (exitTargets sc)
     ∧ match branchSelector sc with
       | Some sel =>
           branchSelector sc' = Some sel ∧ irs' = storeBeforeTerminator i sel s irs
       | None => i = 0 ∧ branchSelector sc' = None ∧ irs' = irs
       end)
  ∧ ((c ∉ branchTarget <$> exitTargets sc) →
     let n := length (exitTargets sc) in
     exitTargets sc' = exitTargets sc ++ [mkExitTarget c [s]]
     ∧ exitTargets sc' !! n = Some (mkExitTarget c [s])
     ∧ match exitTargets sc with
       | [] =>
           branchSelector sc' = None
           ∧ irs' = appendInst (endBlock sc) (Br c) irs
       | t0 :: _ =>
           ∃ sel irsS r d0 cs,
             branchSelector sc' = Some sel
             ∧ match branchSelector sc with
               | Some sel0 => sel0 = sel ∧ irsS = irs
               | None => createBranchSelector irs sc t0 = Ok (sel, irsS)
               end
             ∧ termOf irsS (endBlock sc) = Some (Switch r d0 cs)
             ∧ irs' = storeBeforeTerminator n sel s
                        (editBlock (endBlock sc)
                           (λ l, removelast l ++ [Switch r d0 (cs ++ [(n, c)])]) irsS)
       end).

(** The destinations of a scope and the terminator of its exit block agree
    on the indices. *)
Definition indexed (irs : IRState) (sc : CleanupScope) : Prop :=
  endBlock sc ∈ dom (func irs)
  ∧ match branchSelector sc with
    | None =>
        exitTargets sc = []
        ∨ ∃ t0, exitTargets sc = [t0]
            ∧ termOf irs (endBlock sc) = Some (Br (branchTarget t0))
    | Some _ =>
        ∃ r d0 d1 ds,
          branchTarget <$> exitTargets sc = d0 :: d1 :: ds
          ∧ termOf irs (endBlock sc) = Some (Switch r d0 (switchCases (d1 :: ds)))
    end.

(** ** A function with two nested cleanup scopes

    Blocks 2/3 and 4/5 are the entry and exit blocks of an outer and an
    inner finally region; block 6 is the block under construction and block
    11 the one built after it; blocks 9 and 10 already end in a branch into
    the inner region. *)

Definition demo_irs : IRState :=
  mkIRState
    (list_to_map
       [(1%positive, mkBB "entry" [OtherInst 0 false []]);
        (2%positive, mkBB "outer.finally" [OtherInst 1 false []]);
        (3%positive, mkBB "outer.finally.end" []);
        (4%positive, mkBB "inner.finally" [OtherInst 2 false []]);
        (5%positive, mkBB "inner.finally.end" []);
        (6%positive, mkBB "body" [OtherInst 3 false []]);
        (7%positive, mkBB "after" []);
        (8%positive, mkBB "loop.end" []);
        (9%positive, mkBB "try.a" [Br 4%positive]);
        (10%positive, mkBB "try.b" [Br 4%positive]);
        (11%positive, mkBB "body.next" []);
        (12%positive, mkBB "exit" [])])
    [] 6%positive 20%positive.

Definition demo_outer : CleanupScope := mkCleanupScope 2%positive 3%positive [] None [].
Definition demo_inner : CleanupScope := mkCleanupScope 4%positive 5%positive [] None [].

Definition demo_stack : ScopeStack :=
  mkScopeStack demo_irs [demo_outer; demo_inner] [] [] ∅ [].

(** The code generator moves its insertion point to another block. *)
Definition setScopebb (b : block) (irs : IRState) : IRState :=
  mkIRState (func irs) (allocas irs) b (nextValue irs).

Definition stateOr (st : ScopeStack) (r : Result ScopeStack) : ScopeStack :=
  match r with Ok st' => st' | Fail _ => st end.

(** A forward goto to label 5 from inside both scopes, followed by a loop
    registration and a goto to another label. *)
Definition demo_ops : list Op :=
  [OpPushLoopTarget 3%positive 7%positive 8%positive; OpJumpToLabel 2%positive 6%positive].

Definition demo_pending : ScopeStack :=
  stateOr demo_stack (jumpToLabel demo_stack 1%positive 5%positive ≫= runOps demo_ops).

(** Operations after the definition of label 5 in the outer scope. *)
Definition demo_later_ops : list Op :=
  [OpPushCleanup 4%positive 5%positive; OpJumpToLabel 1%positive 6%positive;
   OpPopCleanups 1; OpAddLabelTarget 6%positive 8%positive;
   OpCodegen (λ irs, appendInst 7%positive (OtherInst 9 false []) irs)].

Definition demo_labelled : ScopeStack :=
  stateOr demo_stack
    (runOps demo_later_ops
       (addLabelTarget (setCleanupScopes [demo_outer] demo_stack) 5%positive 7%positive)).

Definition demo_goto : ScopeStack :=
  stateOr demo_stack (jumpToLabel demo_stack 1%positive 5%positive).

(** ** Observations used by the further properties *)

(** The source blocks of the requests for one destination, in the order
    of the requests. *)
Definition sourcesOf (d : block) (reqs : list (block * block)) : list block :=
  fst <$> filter (λ r, r.2 = d) reqs.

(** What one request (source [s], destination [c]) does to the list of
    exit targets. *)
Definition recordRequest (ts : list CleanupExitTarget) (s c : block)
    : list CleanupExitTarget :=
  match findExitTarget 0 ts c with
  | Some i => alter (addSource s) i ts
  | None => ts ++ [mkExitTarget c [s]]
  end.

(** The exit targets record the requests served so far. *)
Definition recorded (ts : list CleanupExitTarget) (done : list (block * block)) : Prop :=
  NoDup (branchTarget <$> ts)
  ∧ (∀ t, t ∈ ts → sourceBlocks t = sourcesOf (branchTarget t) done)
  ∧ (∀ t, t ∈ ts → sourceBlocks t ≠ [])
  ∧ (∀ r, r ∈ done → r.2 ∈ branchTarget <$> ts)
  ∧ length (concat (sourceBlocks <$> ts)) = length done.

(** The condition of lines 22-25: the request is served without selector. *)
Definition needsNoSelector (sc : CleanupScope) (continueWith : block) : Prop :=
  match exitTargets sc with
  | [] => True
  | [t0] => branchTarget t0 = continueWith
  | _ => False
  end.

(** The source blocks recorded for the first exit target, into which a
    new selector is backfilled (lines 50-56). *)
Definition firstSources (sc : CleanupScope) : list block :=
  match exitTargets sc with
  | t0 :: _ => sourceBlocks t0
  | [] => []
  end.

(** All unresolved gotos of the function: the top-level list followed by
    the lists of the active scopes, outermost first. *)
Definition pendingGotos (st : ScopeStack) : list GotoJump :=
  topLevelUnresolvedGotos st ++ pendingAt (cleanupScopes st) 0.

(** The pop that undoes a registration. *)
Definition unregister (st : ScopeStack) (r : Registration) : Result ScopeStack :=
  match r with
  | RegLoop _ _ _ => popLoopTarget st
  | RegSwitch _ _ => popBreakTarget st
  end.

Definition resultOr {A} (a : A) (r : Result A) : A :=
  match r with Ok a' => a' | Fail _ => a end.

(** Three requests on the inner scope of the demo function: blocks 9 and
    10 leave for blocks 7 and 8, then block 9 leaves for block 7 again. *)
Definition demo_requests : list (block * block) :=
  [(9%positive, 7%positive); (10%positive, 8%positive); (9%positive, 7%positive)].

Definition demo_served : IRState * CleanupScope :=
  resultOr (demo_irs, demo_inner) (runRequests demo_irs demo_inner demo_requests).

(** The inner scope after block 9 has left for block 7 and block 10 for
    block 8. *)
Definition demo_two : IRState * CleanupScope :=
  resultOr (demo_irs, demo_inner)
    (runRequests demo_irs demo_inner
       [(9%positive, 7%positive); (10%positive, 8%positive)]).

(** The inner scope has served block 9 leaving for block 7; block 10 now
    leaves for block 8, which gives the scope its selector. *)
Definition demo_second : IRState * CleanupScope :=
  resultOr (demo_irs, demo_inner)
    (executeCleanup (appendInst 5%positive (Br 7%positive) demo_irs)
       (setExitTargets [mkExitTarget 7%positive [9%positive]] demo_inner)
       10%positive 8%positive).

(** A label defined inside both scopes, which are closed afterwards. *)
Definition demo_closed : ScopeStack :=
  stateOr demo_stack
    (runOps [OpPopCleanups 0] (addLabelTarget demo_stack 5%positive 7%positive)).

(** A loop registered inside both scopes, which are closed before the
    loop targets are popped. *)
Definition demo_stale : ScopeStack :=
  stateOr demo_stack
    (popCleanups (pushLoopTarget demo_stack 3%positive 7%positive 8%positive) 0).

(** ** Per-function records and their creation *)

Module IrFunctions.

(** Objects reached through pointers are known by their address. *)
Abbreviation FuncDeclarationPtr := positive.
Abbreviation IrFunctionPtr := positive.
Abbreviation LLFunctionPtr := positive.
Abbreviation TypePtr := positive.

(** Modelled from the spec: the symbol and type system of the front end is
    an outside collaborator. Of a type object the code reads the tag [ty]
    and asks for its base type, [toBasetype()]; [Tother] stands for every
    tag but [Tfunction]. *)
Inductive TY := Tfunction | Tother (tag : nat).

#[global] Instance TY_eq_dec : EqDecision TY.
Proof. solve_decision. Defined.

Class Frontend := {
  toBasetype : TypePtr → TypePtr;
  ty : TypePtr → TY;
}.

(** Modelled from the spec: [IrDsymbol] is declared in [ir/irdsymbol.h],
    which is not part of the sources. The code names the kinds [NotSet]
    and [FuncType] of its enumeration, reads the kind through [type()],
    and writes [m_type] and the pointer [irFunc]; [type()] is taken to
    return [m_type]. [OtherType] stands for the kinds of the other
    symbols. *)
Inductive IrDsymbolType := NotSet | FuncType | OtherType (kind : nat).

#[global] Instance IrDsymbolType_eq_dec : EqDecision IrDsymbolType.
Proof. solve_decision. Defined.

Record IrDsymbol := mkIrDsymbol {
  m_type : IrDsymbolType;
  irFunc : option IrFunctionPtr;
}.

(** Modelled from the spec: of a function declaration of the front end the
    code reads the declared type ([fd->type]) and the attached
    [IrDsymbol] ([decl->ir]). *)
Record FuncDeclaration := mkFuncDeclaration {
  decl_type : TypePtr;
  ir : IrDsymbol;
}.

(** Modelled from the spec: the members of [IrFunction] are declared in
    [ir/irfunction.h], which is not part of the sources; these are the
    members the constructor initialises, a pointer being [None] when
    null. *)
Record IrFunction := mkIrFunction {
  decl : FuncDeclarationPtr;
  type : TypePtr;
  func : option LLFunctionPtr;
  allocapoint : option value;
  queued : bool;
  defined : bool;
  retArg : option value;
  thisArg : option value;
  nestArg : option value;
  nestedVar : option value;
  frameType : option positive;
  depth : Z;
  nestedContextCreated : bool;
  _arguments : option value;
  _argptr : option value;
  retValSlot : option value;
  retBlock : option block;
}.

(** Modelled from the spec: the attributes of a function of the target IR,
    outside the sources; [hasFnAttr] asks for one and [addFnAttr] adds one
    to the set. *)
Inductive Attribute := AlwaysInline | NoInline | OtherAttribute (kind : nat).

#[global] Instance Attribute_eq_dec : EqDecision Attribute.
Proof. solve_decision. Defined.

#[global] Instance Attribute_countable : Countable Attribute.
Proof.
  refine (inj_countable'
            (λ a, match a with
                  | AlwaysInline => inl true
                  | NoInline => inl false
                  | OtherAttribute k => inr k
                  end)
            (λ x, match x with
                  | inl true => AlwaysInline
                  | inl false => NoInline
                  | inr k => OtherAttribute k
                  end) _).
  by intros [].
Defined.

(** The objects alive: declarations, the [IrFunction] records created for
    them, and the attribute sets of the functions of the target IR. *)
Record Heap := mkHeap {
  declarations : gmap FuncDeclarationPtr FuncDeclaration;
  irFunctions : gmap IrFunctionPtr IrFunction;
  fnAttrs : gmap LLFunctionPtr (gset Attribute);
}.

Definition setFnAttrs (m : gmap LLFunctionPtr (gset Attribute)) (h : Heap) : Heap :=
  mkHeap (declarations h) (irFunctions h) m.

(** [IrFunction::IrFunction], lines 264-291. *)
Definition IrFunction_new `{Frontend} (fd : FuncDeclarationPtr) (h : Heap)
    : Result IrFunction :=
  match declarations h !! fd with
  | None => Fail (UndefinedBehaviour "fd does not point to a declaration")
  | Some d =>
      let t := toBasetype (decl_type d) in
      _ ← assert (bool_decide (ty t = Tfunction)) "t->ty == Tfunction";
      Ok (mkIrFunction fd t None None false false None None None None None
            (-1) false None None None None)
  end.

(** [isIrFuncCreated], lines 333-338. *)
Definition isIrFuncCreated (decl : FuncDeclarationPtr) (h : Heap) : Result bool :=
  match declarations h !! decl with
  | None => Fail (UndefinedBehaviour "decl does not point to a declaration")
  | Some d =>
      let t := m_type (ir d) in
      _ ← assert (bool_decide (t = FuncType ∨ t = NotSet))
            "t == IrDsymbol::FuncType || t == IrDsymbol::NotSet";
      Ok (bool_decide (t = FuncType))
  end.

(** [getIrFunc], lines 321-331; [new] returns the address of an object
    that did not exist. *)
Definition getIrFunc `{Frontend} (decl : FuncDeclarationPtr) (create : bool) (h : Heap)
    : Result (IrFunctionPtr * Heap) :=
  created ← isIrFuncCreated decl h;
  h ← (if negb created && create then
         match declarations h !! decl with
         | None => Fail (UndefinedBehaviour "decl does not point to a declaration")
         | Some d =>
             _ ← assert (bool_decide (irFunc (ir d) = None)) "decl->ir.irFunc == NULL";
             f ← IrFunction_new decl h;
             let p := fresh (dom (irFunctions h)) in
             Ok (mkHeap
                   (<[decl := mkFuncDeclaration (decl_type d)
                                (mkIrDsymbol FuncType (Some p))]> (declarations h))
                   (<[p := f]> (irFunctions h))
                   (fnAttrs h))
         end
       else Ok h);
  match declarations h !! decl with
  | None => Fail (UndefinedBehaviour "decl does not point to a declaration")
  | Some d =>
      match irFunc (ir d) with
      | None => Fail (AssertionFailure "decl->ir.irFunc != NULL")
      | Some p => Ok (p, h)
      end
  end.

(** The attributes of [this->func]; a null [func] cannot be asked. *)
Definition funcAttrs (this : IrFunctionPtr) (h : Heap)
    : Result (LLFunctionPtr * gset Attribute) :=
  match irFunctions h !! this with
  | None => Fail (UndefinedBehaviour "this does not point to an IrFunction")
  | Some f =>
      match func f with
      | None => Fail (UndefinedBehaviour "func is null")
      | Some p =>
          match fnAttrs h !! p with
          | None => Fail (UndefinedBehaviour "func does not point to a function")
          | Some attrs => Ok (p, attrs)
          end
      end
  end.

(** [IrFunction::setNeverInline], lines 293-305; the three variants
    selected by the version of the target IR library ask for the same
    attribute and add the same one. *)
Definition setNeverInline (this : IrFunctionPtr) (h : Heap) : Result Heap :=
  '(p, attrs) ← funcAttrs this h;
  _ ← assert (bool_decide (AlwaysInline ∉ attrs))
        "function can't be never- and always-inline at the same time";
  Ok (setFnAttrs (<[p := attrs ∪ {[NoInline]}]> (fnAttrs h)) h).

(** [IrFunction::setAlwaysInline], lines 307-319. *)
Definition setAlwaysInline (this : IrFunctionPtr) (h : Heap) : Result Heap :=
  '(p, attrs) ← funcAttrs this h;
  _ ← assert (bool_decide (NoInline ∉ attrs))
        "function can't be never- and always-inline at the same time";
  Ok (setFnAttrs (<[p := attrs ∪ {[AlwaysInline]}]> (fnAttrs h)) h).

End IrFunctions.

(** Every declaration that has an [IrFunction] is of kind [FuncType] and
    points to a live record that points back to it and has a function
    type; a declaration without one is not of kind [FuncType]. *)
Definition symbolsOk `{IrFunctions.Frontend} (h : IrFunctions.Heap) : Prop :=
  ∀ d fd, IrFunctions.declarations h !! d = Some fd →
    match IrFunctions.irFunc (IrFunctions.ir fd) with
    | Some p =>
        IrFunctions.m_type (IrFunctions.ir fd) = IrFunctions.FuncType
        ∧ ∃ f, IrFunctions.irFunctions h !! p = Some f
            ∧ IrFunctions.decl f = d
            ∧ IrFunctions.ty (IrFunctions.type f) = IrFunctions.Tfunction
    | None => IrFunctions.m_type (IrFunctions.ir fd) ≠ IrFunctions.FuncType
    end.

(** The two inlining requests. *)
Inductive InlineRequest := NeverInline | AlwaysInlineRequest.

Definition setInline (r : InlineRequest)
    : IrFunctions.IrFunctionPtr → IrFunctions.Heap → Result IrFunctions.Heap :=
  match r with
  | NeverInline => IrFunctions.setNeverInline
  | AlwaysInlineRequest => IrFunctions.setAlwaysInline
  end.

Definition inlineAttribute (r : InlineRequest) : IrFunctions.Attribute :=
  match r with
  | NeverInline => IrFunctions.NoInline
  | AlwaysInlineRequest => IrFunctions.AlwaysInline
  end.

Definition opposite (r : InlineRequest) : InlineRequest :=
  match r with
  | NeverInline => AlwaysInlineRequest
  | AlwaysInlineRequest => NeverInline
  end.

(** No function of the target IR is marked both ways. *)
Definition inlineExclusive (h : IrFunctions.Heap) : Prop :=
  ∀ p attrs, IrFunctions.fnAttrs h !! p = Some attrs →
    ¬ (IrFunctions.AlwaysInline ∈ attrs ∧ IrFunctions.NoInline ∈ attrs).

(** A front end with two types: type 1 is a function type and type 2 an
    alias of it. *)
Definition demo_frontend : IrFunctions.Frontend :=
  {| IrFunctions.toBasetype := λ t, if decide (t = 2%positive) then 1%positive else t;
     IrFunctions.ty := λ t, if decide (t = 1%positive) then IrFunctions.Tfunction
                            else IrFunctions.Tother 0 |}.

(** One declaration, of type 2, without [IrFunction] yet. *)
Definition demo_heap : IrFunctions.Heap :=
  IrFunctions.mkHeap
    {[ 10%positive := IrFunctions.mkFuncDeclaration 2%positive
                        (IrFunctions.mkIrDsymbol IrFunctions.NotSet None) ]}
    ∅ ∅.

(** The declaration has its [IrFunction], whose function of the target IR
    (30) carries no attribute yet. *)
Definition demo_heap_defined : IrFunctions.Heap :=
  IrFunctions.mkHeap
    {[ 10%positive := IrFunctions.mkFuncDeclaration 2%positive
                        (IrFunctions.mkIrDsymbol IrFunctions.FuncType (Some 1%positive)) ]}
    {[ 1%positive := IrFunctions.mkIrFunction 10%positive 1%positive (Some 30%positive)
                       None false false None None None None None (-1) false
                       None None None None ]}
    {[ 30%positive := ∅ ]}.

(* ================================================================== *)
(** * Properties *)

Section ListFacts.
Context {A : Type}.

Lemma removelast_snoc (l : list A) (x : A) : removelast (l ++ [x]) = l.
Proof. apply removelast_last. Qed.

Lemma snoc_cases (l : list A) : l = [] ∨ ∃ l' x, l = l' ++ [x].
Proof.
  destruct l as [|a l] using rev_ind; [by left|right; eauto].
Qed.

End ListFacts.

Lemma pop_back_snoc {A} (l : list A) (x : A) : pop_back (l ++ [x]) = Ok l.
Proof.
  unfold pop_back. rewrite removelast_snoc. by destruct l.
Qed.

(** ** End-of-function check *)

Lemma errorLocs_errors (msg : string) (gs : list GotoJump) :
  errorLocs (map (λ g, DiagError (sourceLoc g) msg) gs) = map sourceLoc gs.
Proof.
  induction gs as [|g gs IH]; [done|].
  cbn. unfold errorLocs in IH. by rewrite IH.
Qed.

Lemma fatalCount_errors (msg : string) (gs : list GotoJump) :
  fatalCount (map (λ g, DiagError (sourceLoc g) msg) gs) = 0.
Proof.
  induction gs as [|g gs IH]; [done|].
  unfold fatalCount in *. cbn [map]. by rewrite filter_cons_False.
Qed.

(** C7: the destructor reports one error per goto left in the top-level
    list, at that goto's location and in list order, then calls the fatal
    abort once, last; with an empty top-level list it makes no call on the
    diagnostics collaborator at all. *)
Theorem destroy_reports_each_unresolved_goto (st : ScopeStack) :
  errorLocs (ScopeStack_destroy st) = map sourceLoc (topLevelUnresolvedGotos st)
  ∧ length (ScopeStack_destroy st)
    = (if decide (topLevelUnresolvedGotos st = []) then 0
       else S (length (topLevelUnresolvedGotos st)))
  ∧ fatalCount (ScopeStack_destroy st)
    = (if decide (topLevelUnresolvedGotos st = []) then 0 else 1)
  ∧ last (ScopeStack_destroy st)
    = (if decide (topLevelUnresolvedGotos st = []) then None else Some DiagFatal).
Proof.
  unfold ScopeStack_destroy.
  destruct (topLevelUnresolvedGotos st) as [|g gs] eqn:E; [done|].
  rewrite !decide_False by done.
  generalize (g :: gs) as l. intros l.
  repeat split.
  - unfold errorLocs. rewrite omap_app. cbn [omap]. rewrite app_nil_r.
    apply errorLocs_errors.
  - rewrite length_app, length_map. simpl. lia.
  - unfold fatalCount. rewrite filter_app, length_app.
    fold (fatalCount (map (λ g, DiagError (sourceLoc g)
                         "goto into try/finally scope is not allowed") l)).
    rewrite fatalCount_errors. reflexivity.
  - by rewrite last_snoc.
Qed.

(** ** Loop, switch and label targets *)

Lemma jumpToClosest_snoc (st : ScopeStack) (ts : list JumpTarget) (t : JumpTarget) :
  jumpToClosest st (ts ++ [t]) = runCleanups st (cleanupScope t) (targetBlock t).
Proof.
  unfold jumpToClosest.
  rewrite bool_decide_true by (by destruct ts).
  cbn. by rewrite last_snoc.
Qed.

Lemma findStatement_rev_last (ts : list JumpTarget) (s : Statement) :
  findStatement (rev ts) s = last (filter (λ t, targetStatement t = Some s) ts).
Proof.
  induction ts as [|t ts IH] using rev_ind; [done|].
  rewrite rev_unit, filter_app. cbn [findStatement].
  destruct (decide (targetStatement t = Some s)) as [Ht|Ht].
  - rewrite bool_decide_true by done.
    rewrite filter_cons_True by done. by rewrite filter_nil, last_snoc.
  - rewrite bool_decide_false by done.
    rewrite filter_cons_False by done. by rewrite filter_nil, app_nil_r.
Qed.

(** C9: [jumpToStatement] runs the cleanups to the innermost (last pushed)
    entry of the given stack whose statement is the requested one, and
    fails with the assertion when there is none; [jumpToClosest] runs the
    cleanups to the topmost entry whatever its statement, and fails with
    its assertion on an empty stack. Neither failure is a diagnostic. *)
Theorem jump_to_statement_and_closest
    (st : ScopeStack) (targets : list JumpTarget) (s : Statement) :
  jumpToStatement st targets s
  = match last (filter (λ t, targetStatement t = Some s) targets) with
    | Some t => runCleanups st (cleanupScope t) (targetBlock t)
    | None => Fail (AssertionFailure "Target for labeled break not found.")
    end
  ∧ jumpToClosest st targets
    = match last targets with
      | Some t => runCleanups st (cleanupScope t) (targetBlock t)
      | None =>
          Fail (AssertionFailure "Encountered break/continue but no loop in scope.")
      end.
Proof.
  split.
  - unfold jumpToStatement. by rewrite findStatement_rev_last.
  - destruct (snoc_cases targets) as [->|(ts & t & ->)]; [done|].
    by rewrite jumpToClosest_snoc, last_snoc.
Qed.

Lemma register_cleanupScopes (st : ScopeStack) (r : Registration) :
  cleanupScopes (register st r) = cleanupScopes st.
Proof. by destruct r. Qed.

Lemma register_breakTargets (st : ScopeStack) (r : Registration) :
  breakTargets (register st r)
  = breakTargets st ++ [breakEntry (currentCleanupScope st) r].
Proof. by destruct r. Qed.

Lemma register_continueTargets (st : ScopeStack) (r : Registration) :
  continueTargets (register st r)
  = continueTargets st ++ continueEntries (currentCleanupScope st) r.
Proof. destruct r; cbn; [done|by rewrite app_nil_r]. Qed.

Lemma register_all_targets (rs : list Registration) (st : ScopeStack) :
  breakTargets (foldl register st rs)
  = breakTargets st ++ map (breakEntry (currentCleanupScope st)) rs
  ∧ continueTargets (foldl register st rs)
    = continueTargets st ++ concat (map (continueEntries (currentCleanupScope st)) rs).
Proof.
  revert st. induction rs as [|r rs IH]; intros st.
  - cbn. by rewrite !app_nil_r.
  - cbn [foldl map concat]. destruct (IH (register st r)) as [-> ->].
    unfold currentCleanupScope. rewrite register_cleanupScopes.
    rewrite register_breakTargets, register_continueTargets.
    by rewrite <- !app_assoc.
Qed.

(** C10: loops and switches register their break targets on one and the
    same stack. After any interleaving of registrations the break stack
    holds one entry per registration, in order, and the continue stack one
    entry per loop; an unlabeled break unwinds to the break target
    registered last, whichever kind it is; [popLoopTarget] takes exactly
    the last entry off each of the two stacks and [popBreakTarget] off the
    break stack only. *)
Theorem break_targets_share_one_stack
    (st : ScopeStack) (rs : list Registration) (r : Registration) :
  let cur := currentCleanupScope st in
  let st' := foldl register st (rs ++ [r]) in
  breakTargets st' = breakTargets st ++ map (breakEntry cur) (rs ++ [r])
  ∧ continueTargets st'
    = continueTargets st ++ concat (map (continueEntries cur) (rs ++ [r]))
  ∧ (jumpToClosest st' (breakTargets st')
     = runCleanups st' cur (targetBlock (breakEntry cur r)))
  ∧ (∀ cts c bts b,
       popLoopTarget (setBreakTargets (bts ++ [b]) (setContinueTargets (cts ++ [c]) st))
       = Ok (setBreakTargets bts (setContinueTargets cts st)))
  ∧ (∀ bts b,
       popBreakTarget (setBreakTargets (bts ++ [b]) st) = Ok (setBreakTargets bts st)).
Proof.
  intros cur st'.
  destruct (register_all_targets (rs ++ [r]) st) as [Hb Hc].
  split; [exact Hb|]. split; [exact Hc|]. split; [|split].
  - subst st'. rewrite Hb, map_app. cbn [map].
    rewrite app_assoc, jumpToClosest_snoc. by destruct r.
  - intros cts c bts b. unfold popLoopTarget. cbn.
    rewrite pop_back_snoc. cbn. by rewrite pop_back_snoc.
  - intros bts b. unfold popBreakTarget. cbn. by rewrite pop_back_snoc.
Qed.

(** ** The result monad *)

Lemma bind_Ok_inv {A B} (m : Result A) (k : A → Result B) (b : B) :
  m ≫= k = Ok b → ∃ a, m = Ok a ∧ k a = Ok b.
Proof. destruct m as [a|f]; [eauto|discriminate]. Qed.

Ltac inv_bind H :=
  let a := fresh "a" in
  let Ha := fresh "Ha" in
  apply bind_Ok_inv in H; destruct H as (a & Ha & H).

(** ** Reading the function after an edit *)

Lemma insts_editBlock (b b' : block) (g : list instr → list instr) (irs : IRState) :
  insts (editBlock b g irs) b'
  = if decide (b = b') then g <$> insts irs b' else insts irs b'.
Proof.
  unfold insts, editBlock. cbn. rewrite lookup_alter.
  case_decide; [|done]. subst. by destruct (func irs !! b').
Qed.

Lemma insts_editBlock_eq (b : block) (g : list instr → list instr) (irs : IRState) :
  insts (editBlock b g irs) b = g <$> insts irs b.
Proof. rewrite insts_editBlock. by rewrite decide_True. Qed.

Lemma insts_editBlock_ne (b b' : block) (g : list instr → list instr) (irs : IRState) :
  b ≠ b' → insts (editBlock b g irs) b' = insts irs b'.
Proof. intros. rewrite insts_editBlock. by rewrite decide_False. Qed.

Lemma dom_editBlock (b : block) (g : list instr → list instr) (irs : IRState) :
  dom (func (editBlock b g irs)) = dom (func irs).
Proof. unfold editBlock. cbn. apply dom_alter_L. Qed.

Lemma insts_is_Some (irs : IRState) (b : block) :
  is_Some (insts irs b) ↔ b ∈ dom (func irs).
Proof. unfold insts. rewrite fmap_is_Some. symmetry. apply elem_of_dom. Qed.

Lemma insts_createBlock (name : string) (irs : IRState) (b : block) :
  insts (createBlock name irs).2 b
  = if decide (b = (createBlock name irs).1) then Some [] else insts irs b.
Proof.
  unfold insts, createBlock. cbn. rewrite lookup_insert.
  case_decide; subst; by rewrite ?decide_True, ?decide_False by done.
Qed.

(** ** Forward gotos and the label table *)

(** C6: [jumpToLabel] has exactly two behaviours. For a label present in
    the label table it is [runCleanups] to the recorded cursor and block.
    Otherwise it succeeds, creates a placeholder block that was not a block
    of the function, appends the branch to the placeholder at the end of the
    current block, and appends the record (location, current block,
    placeholder, label) to the unresolved list of the innermost cleanup
    scope, or to the top-level list when no scope is active; nothing else
    changes. *)
Theorem jumpToLabel_two_ways (st : ScopeStack) (loc : Loc) (labelName : Identifier) :
  match labelTargets st !! labelName with
  | Some t =>
      jumpToLabel st loc labelName = runCleanups st (cleanupScope t) (targetBlock t)
  | None =>
      let placeholder := fresh (dom (func (irs st))) in
      let cur := scopebb (irs st) in
      let g := mkGotoJump loc cur placeholder labelName in
      ∃ st', jumpToLabel st loc labelName = Ok st'
        ∧ (placeholder ∉ dom (func (irs st)))
        ∧ func (irs st')
          = alter (updInsts (λ l, l ++ [Br placeholder])) cur
              (<[placeholder := mkBB "goto.unresolved" []]> (func (irs st)))
        ∧ (cur ∈ dom (func (irs st)) →
             insts (irs st') cur = Some (instsOf (irs st) cur ++ [Br placeholder])
             ∧ insts (irs st') placeholder = Some [])
        ∧ allocas (irs st') = allocas (irs st)
        ∧ scopebb (irs st') = cur
        ∧ nextValue (irs st') = nextValue (irs st)
        ∧ continueTargets st' = continueTargets st
        ∧ breakTargets st' = breakTargets st
        ∧ labelTargets st' = labelTargets st
        ∧ currentUnresolvedGotos st' = currentUnresolvedGotos st ++ [g]
        ∧ match last (cleanupScopes st) with
          | Some sc =>
              cleanupScopes st'
              = removelast (cleanupScopes st)
                ++ [setUnresolvedGotos (unresolvedGotos sc ++ [g]) sc]
              ∧ topLevelUnresolvedGotos st' = topLevelUnresolvedGotos st
          | None =>
              cleanupScopes st' = []
              ∧ topLevelUnresolvedGotos st' = topLevelUnresolvedGotos st ++ [g]
          end
  end.
Proof.
  unfold jumpToLabel.
  destruct (labelTargets st !! labelName) as [t|] eqn:El; [done|].
  cbn zeta. eexists. split; [reflexivity|].
  assert (Hfresh : fresh (dom (func (irs st))) ∉ dom (func (irs st)))
    by apply is_fresh.
  split; [exact Hfresh|].
  assert (Hin : scopebb (irs st) ∈ dom (func (irs st)) →
    insts (appendInst (scopebb (irs st)) (Br (fresh (dom (func (irs st)))))
             (createBlock "goto.unresolved" (irs st)).2) (scopebb (irs st))
    = Some (instsOf (irs st) (scopebb (irs st)) ++ [Br (fresh (dom (func (irs st))))])
    ∧ insts (appendInst (scopebb (irs st)) (Br (fresh (dom (func (irs st)))))
               (createBlock "goto.unresolved" (irs st)).2) (fresh (dom (func (irs st))))
      = Some []).
  { intros Hcur.
    assert (Hne : scopebb (irs st) ≠ fresh (dom (func (irs st))))
      by (intros E'; by rewrite E' in Hcur).
    apply insts_is_Some in Hcur as [l Hl].
    unfold appendInst. rewrite insts_editBlock_eq, insts_editBlock_ne by done.
    rewrite !insts_createBlock. cbn [createBlock fst].
    rewrite decide_False, decide_True by done.
    unfold instsOf. by rewrite Hl. }
  unfold currentUnresolvedGotos, setCurrentUnresolvedGotos. cbn.
  destruct (snoc_cases (cleanupScopes st)) as [E|(cs & sc & E)]; rewrite E.
  - cbn. rewrite E. repeat split; try done; by apply Hin.
  - rewrite !last_snoc. cbn. rewrite last_snoc, removelast_snoc.
    repeat split; try done; by apply Hin.
Qed.

(** ** What the multiplexer leaves alone *)

Lemma convertToSwitch_frame (sel : value) (sc : CleanupScope) (d : block)
    (irs irs' : IRState) :
  convertToSwitch sel sc d irs = Ok irs' →
  scopebb irs' = scopebb irs ∧ dom (func irs') = dom (func irs).
Proof.
  unfold convertToSwitch. destruct (getTerminator _); [|done].
  intros [= <-]. cbn. split; [done|]. apply dom_alter_L.
Qed.

Lemma storeZeroes_frame (sel : value) (v : list block) (irs : IRState) :
  scopebb (storeZeroes sel v irs) = scopebb irs
  ∧ dom (func (storeZeroes sel v irs)) = dom (func irs)
  ∧ allocas (storeZeroes sel v irs) = allocas irs
  ∧ nextValue (storeZeroes sel v irs) = nextValue irs.
Proof.
  revert irs. induction v as [|b v IH]; intros irs; [done|].
  cbn [storeZeroes]. destruct (IH (storeBeforeTerminator 0 sel b irs)) as (-> & -> & -> & ->).
  unfold storeBeforeTerminator. by rewrite dom_editBlock.
Qed.

Lemma createBranchSelector_frame (irs irs' : IRState) (sc : CleanupScope)
    (t0 : CleanupExitTarget) (sel : value) :
  createBranchSelector irs sc t0 = Ok (sel, irs') →
  sel = nextValue irs
  ∧ scopebb irs' = scopebb irs ∧ dom (func irs') = dom (func irs).
Proof.
  unfold createBranchSelector. cbn. intros H. inv_bind H. injection H as <- <-.
  apply convertToSwitch_frame in Ha as [-> ->].
  match goal with
  | |- context [storeZeroes ?x ?v ?i] =>
      by destruct (storeZeroes_frame x v i) as (-> & -> & _)
  end.
Qed.

Lemma selectExit_frame (sel : value) (irs irs' : IRState) (sc sc' : CleanupScope)
    (s c : block) :
  selectExit sel irs sc s c = Ok (irs', sc') →
  beginBlock sc' = beginBlock sc ∧ endBlock sc' = endBlock sc
  ∧ unresolvedGotos sc' = unresolvedGotos sc
  ∧ branchSelector sc' = branchSelector sc
  ∧ scopebb irs' = scopebb irs ∧ dom (func irs') = dom (func irs).
Proof.
  unfold selectExit. destruct (findExitTarget _ _ _).
  - intros [= <- <-]. cbn. by rewrite dom_alter_L.
  - destruct (addCase _ _ _); [|done]. intros [= <- <-]. cbn.
    by rewrite !dom_alter_L.
Qed.

Lemma executeCleanup_frame (irs irs' : IRState) (sc sc' : CleanupScope) (s c : block) :
  executeCleanup irs sc s c = Ok (irs', sc') →
  beginBlock sc' = beginBlock sc ∧ endBlock sc' = endBlock sc
  ∧ unresolvedGotos sc' = unresolvedGotos sc
  ∧ scopebb irs' = scopebb irs ∧ dom (func irs') = dom (func irs).
Proof.
  unfold executeCleanup. intros H.
  destruct (exitTargets sc) as [|t0 ts] eqn:Et.
  - inv_bind H. injection H as <- <-. cbn. by rewrite dom_alter_L.
  - case_bool_decide as Hc.
    + inv_bind H. by injection H as <- <-.
    + inv_bind H. destruct a as [sel irs1].
      apply selectExit_frame in H as (-> & -> & -> & _ & -> & ->).
      destruct (branchSelector sc); [by injection Ha as <- <-|].
      by apply createBranchSelector_frame in Ha as (_ & -> & ->).
Qed.

Lemma executeCleanupAt_frame (i : nat) (s c : block) (st st' : ScopeStack) :
  executeCleanupAt i s c st = Ok st' →
  continueTargets st' = continueTargets st
  ∧ breakTargets st' = breakTargets st
  ∧ labelTargets st' = labelTargets st
  ∧ topLevelUnresolvedGotos st' = topLevelUnresolvedGotos st
  ∧ scopebb (irs st') = scopebb (irs st)
  ∧ dom (func (irs st')) = dom (func (irs st))
  ∧ beginBlock <$> cleanupScopes st' = beginBlock <$> cleanupScopes st
  ∧ endBlock <$> cleanupScopes st' = endBlock <$> cleanupScopes st
  ∧ unresolvedGotos <$> cleanupScopes st' = unresolvedGotos <$> cleanupScopes st.
Proof.
  unfold executeCleanupAt. destruct (cleanupScopes st !! i) as [sc|] eqn:Ei; [|done].
  intros H. inv_bind H. destruct a as [irs' sc']. injection H as <-. cbn.
  apply executeCleanup_frame in Ha as (Hb & He & Hu & Hs & Hd).
  repeat split; try done.
  all: rewrite list_fmap_insert; apply list_insert_id; rewrite list_lookup_fmap, Ei;
    cbn; congruence.
Qed.

(** ** The label table is written by [addLabelTarget] only *)

Lemma runCleanups_loop_labelTargets (i t : nat) (c : block) (st st' : ScopeStack) :
  runCleanups_loop i t c st = Ok st' → labelTargets st' = labelTargets st.
Proof.
  revert st. induction i as [|i IH]; intros st H; cbn in H.
  - by injection H as <-.
  - case_bool_decide; [|by injection H as <-].
    inv_bind H. inv_bind H.
    apply IH in H as ->. by apply executeCleanupAt_frame in Ha0 as (_ & _ & -> & _).
Qed.

Lemma runCleanups_labelTargets (t : nat) (c : block) (st st' : ScopeStack) :
  runCleanups st t c = Ok st' → labelTargets st' = labelTargets st.
Proof.
  unfold runCleanups. intros H. inv_bind H.
  case_bool_decide; [by injection H as <-|].
  destruct (last (cleanupScopes st)); [|done].
  by apply runCleanups_loop_labelTargets in H as ->.
Qed.

Lemma popCleanups_gotos_labelTargets (i : nat) (gs : list GotoJump) (st st' : ScopeStack) :
  popCleanups_gotos i gs st = Ok st' → labelTargets st' = labelTargets st.
Proof.
  revert st. induction gs as [|g gs IH]; intros st H; cbn in H.
  - by injection H as <-.
  - destruct (cleanupScopes st !! i); [|done]. inv_bind H.
    apply IH in H as ->. by apply executeCleanupAt_frame in Ha as (_ & _ & -> & _).
Qed.

Lemma mergeUnresolved_labelTargets (i : nat) (st st' : ScopeStack) :
  mergeUnresolved i st = Ok st' → labelTargets st' = labelTargets st.
Proof.
  unfold mergeUnresolved. case_bool_decide; [by intros [= <-]|].
  destruct (cleanupScopes st !! (i - 1)); [by intros [= <-]|done].
Qed.

Lemma popCleanups_loop_labelTargets (i t : nat) (st st' : ScopeStack) :
  popCleanups_loop i t st = Ok st' → labelTargets st' = labelTargets st.
Proof.
  revert st. induction i as [|i IH]; intros st H; cbn in H.
  - by injection H as <-.
  - case_bool_decide; [|by injection H as <-].
    inv_bind H. inv_bind H. inv_bind H.
    apply IH in H as ->. cbn.
    apply mergeUnresolved_labelTargets in Ha0 as ->.
    by apply popCleanups_gotos_labelTargets in Ha.
Qed.

Lemma popCleanups_labelTargets (t : nat) (st st' : ScopeStack) :
  popCleanups st t = Ok st' → labelTargets st' = labelTargets st.
Proof.
  unfold popCleanups. case_bool_decide; [by intros [= <-]|].
  apply popCleanups_loop_labelTargets.
Qed.

Lemma setCurrentUnresolvedGotos_labelTargets (gs : list GotoJump) (st : ScopeStack) :
  labelTargets (setCurrentUnresolvedGotos gs st) = labelTargets st.
Proof. unfold setCurrentUnresolvedGotos. by destruct (last (cleanupScopes st)). Qed.

Lemma addLabelTarget_labelTargets (st : ScopeStack) (l : Identifier) (b : block) :
  labelTargets (addLabelTarget st l b)
  = <[l := mkJumpTarget b (currentCleanupScope st) None]> (labelTargets st).
Proof.
  unfold addLabelTarget. destruct (resolveGotos _ _ _ _) as [gs irs'].
  by rewrite setCurrentUnresolvedGotos_labelTargets.
Qed.

Lemma jumpToLabel_labelTargets (loc : Loc) (l : Identifier) (st st' : ScopeStack) :
  jumpToLabel st loc l = Ok st' → labelTargets st' = labelTargets st.
Proof.
  unfold jumpToLabel. destruct (labelTargets st !! l) as [t|].
  - apply runCleanups_labelTargets.
  - cbn. intros [= <-]. by rewrite setCurrentUnresolvedGotos_labelTargets.
Qed.

Lemma runOp_labelTargets (o : Op) (l : Identifier) (st st' : ScopeStack) :
  ¬ definesLabel l o → runOp st o = Ok st' →
  labelTargets st' !! l = labelTargets st !! l.
Proof.
  intros Hl H. destruct o; cbn in H.
  - by injection H as <-.
  - by apply runCleanups_labelTargets in H as ->.
  - by apply runCleanups_labelTargets in H as ->.
  - by apply popCleanups_labelTargets in H as ->.
  - by injection H as <-.
  - unfold popLoopTarget in H. inv_bind H. inv_bind H. by injection H as <-.
  - by injection H as <-.
  - unfold popBreakTarget in H. inv_bind H. by injection H as <-.
  - injection H as <-. rewrite addLabelTarget_labelTargets.
    apply lookup_insert_ne. cbn in Hl. congruence.
  - by apply jumpToLabel_labelTargets in H as ->.
  - unfold jumpToStatement in H. destruct (findStatement _ _); [|done].
    by apply runCleanups_labelTargets in H as ->.
  - unfold jumpToClosest in H. inv_bind H. destruct (last _); [|done].
    by apply runCleanups_labelTargets in H as ->.
  - by injection H as <-.
Qed.

Lemma runOps_labelTargets (ops : list Op) (l : Identifier) (st st' : ScopeStack) :
  Forall (λ o, ¬ definesLabel l o) ops → runOps ops st = Ok st' →
  labelTargets st' !! l = labelTargets st !! l.
Proof.
  revert st. induction ops as [|o ops IH]; intros st Hall H; cbn in H.
  - by injection H as <-.
  - inv_bind H. inversion Hall; subst.
    rewrite (IH a) by done. by apply (runOp_labelTargets o).
Qed.

(** C8: once [addLabelTarget] has bound a label, no later operation of the
    scope stack other than another [addLabelTarget] of the same label
    changes its entry: after any sequence of operations that does not
    define the label again, the table still maps it to the block and the
    cleanup cursor recorded at its definition, and [jumpToLabel] for it is
    [runCleanups] to exactly that cursor and block. *)
Theorem label_entries_are_permanent
    (st st' : ScopeStack) (labelName : Identifier) (targetBlock : block)
    (ops : list Op) (loc : Loc) :
  Forall (λ o, ¬ definesLabel labelName o) ops →
  runOps ops (addLabelTarget st labelName targetBlock) = Ok st' →
  labelTargets st' !! labelName
  = Some (mkJumpTarget targetBlock (currentCleanupScope st) None)
  ∧ jumpToLabel st' loc labelName
    = runCleanups st' (currentCleanupScope st) targetBlock.
Proof.
  intros Hops Hrun.
  assert (Hl : labelTargets st' !! labelName
               = Some (mkJumpTarget targetBlock (currentCleanupScope st) None)).
  { rewrite (runOps_labelTargets _ _ _ _ Hops Hrun), addLabelTarget_labelTargets.
    apply lookup_insert_eq. }
  split; [exact Hl|]. unfold jumpToLabel. by rewrite Hl.
Qed.

(** ** Label definition resolves the gotos of the current list *)

Lemma resolveGotos_spec (l : Identifier) (b : block) (gs : list GotoJump) (irs : IRState) :
  resolveGotos l b gs irs
  = (filter (λ g, targetLabel g ≠ l) gs,
     foldl (resolveOne b) irs (filter (λ g, targetLabel g = l) gs)).
Proof.
  revert irs. induction gs as [|g gs IH]; intros irs; [done|].
  cbn [resolveGotos]. case_bool_decide as Hg.
  - rewrite IH. rewrite (filter_cons_True (λ g, targetLabel g ≠ l)) by done.
    by rewrite (filter_cons_False (λ g, targetLabel g = l)) by done.
  - rewrite IH. rewrite (filter_cons_False (λ g, targetLabel g ≠ l)) by naive_solver.
    by rewrite (filter_cons_True (λ g, targetLabel g = l)) by done.
Qed.

Lemma replaceBlock_ne (old new b : block) : new ≠ old → replaceBlock old new b ≠ old.
Proof. unfold replaceBlock. case_decide; congruence. Qed.

Lemma replaceBlock_keeps_ne (old new b x : block) :
  b ≠ x → new ≠ x → replaceBlock old new b ≠ x.
Proof. unfold replaceBlock. case_decide; congruence. Qed.

Lemma replaceUses_removes (old new : block) (i : instr) :
  new ≠ old → ¬ usesBlock old (replaceUses old new i).
Proof.
  intros Hne. destruct i as [d|v d cs|c ptr|r ptr|r ty n|t tm ops]; cbn; try tauto.
  - by apply replaceBlock_ne.
  - intros [H|H]; [by eapply replaceBlock_ne|].
    rewrite map_map in H. apply list_elem_of_fmap in H as ([c b] & Hb & _).
    cbn in Hb. symmetry in Hb. by eapply replaceBlock_ne.
  - intros H. apply list_elem_of_fmap in H as (b & Hb & _).
    symmetry in Hb. by eapply replaceBlock_ne.
Qed.

Lemma replaceUses_keeps_unused (old new x : block) (i : instr) :
  new ≠ x → ¬ usesBlock x i → ¬ usesBlock x (replaceUses old new i).
Proof.
  intros Hne. destruct i as [d|v d cs|c ptr|r ptr|r ty n|t tm ops]; cbn; try tauto.
  - intros Hd E. by eapply (replaceBlock_keeps_ne old new d x).
  - intros Hd [E|H].
    + eapply (replaceBlock_keeps_ne old new d x); [tauto|done|done].
    + rewrite map_map in H. apply list_elem_of_fmap in H as ([c b] & Hb & Hin).
      cbn in Hb. symmetry in Hb. revert Hb.
      apply replaceBlock_keeps_ne; [|done].
      intros ->. apply Hd. right. apply list_elem_of_fmap. by exists (c, x).
  - intros Hd H. apply list_elem_of_fmap in H as (b & Hb & Hin).
    symmetry in Hb. revert Hb. apply replaceBlock_keeps_ne; [|done]. by intros ->.
Qed.

Lemma insts_replaceAllUsesWith (old new b : block) (irs : IRState) :
  insts (replaceAllUsesWith old new irs) b = map (replaceUses old new) <$> insts irs b.
Proof.
  unfold insts, replaceAllUsesWith. cbn. rewrite lookup_fmap.
  by destruct (func irs !! b).
Qed.

Lemma insts_eraseFromParent (x b : block) (irs : IRState) :
  insts (eraseFromParent x irs) b = if decide (x = b) then None else insts irs b.
Proof.
  unfold insts, eraseFromParent. cbn. rewrite lookup_delete. by case_decide.
Qed.

Lemma insts_resolveOne (new b : block) (irs : IRState) (g : GotoJump) :
  insts (resolveOne new irs g) b
  = if decide (tentativeTarget g = b) then None
    else map (replaceUses (tentativeTarget g) new) <$> insts irs b.
Proof.
  unfold resolveOne. rewrite insts_eraseFromParent. case_decide; [done|].
  apply insts_replaceAllUsesWith.
Qed.

Lemma resolveOne_gone (new : block) (irs : IRState) (g : GotoJump) :
  new ≠ tentativeTarget g →
  insts (resolveOne new irs g) (tentativeTarget g) = None
  ∧ noUses (tentativeTarget g) (resolveOne new irs g).
Proof.
  intros Hne. split.
  - rewrite insts_resolveOne. by rewrite decide_True.
  - intros b l. rewrite insts_resolveOne. case_decide; [done|].
    destruct (insts irs b) as [l0|]; [|done]. intros [= <-].
    apply Forall_fmap, Forall_true. intros i. by apply replaceUses_removes.
Qed.

Lemma resolveOne_keeps_gone (new x : block) (irs : IRState) (g : GotoJump) :
  new ≠ x → insts irs x = None → noUses x irs →
  insts (resolveOne new irs g) x = None ∧ noUses x (resolveOne new irs g).
Proof.
  intros Hne Hx Hno. split.
  - rewrite insts_resolveOne. case_decide; [done|]. by rewrite Hx.
  - intros b l. rewrite insts_resolveOne. case_decide; [done|].
    destruct (insts irs b) as [l0|] eqn:E; [|done]. intros [= <-].
    apply Forall_fmap. eapply Forall_impl; [by eapply Hno|].
    intros i Hi. by apply replaceUses_keeps_unused.
Qed.

Lemma resolveAll_keeps_gone (new x : block) (gs : list GotoJump) (irs : IRState) :
  new ≠ x → insts irs x = None → noUses x irs →
  insts (foldl (resolveOne new) irs gs) x = None
  ∧ noUses x (foldl (resolveOne new) irs gs).
Proof.
  intros Hne. revert irs. induction gs as [|g gs IH]; intros irs Hx Hno; [done|].
  cbn [foldl]. by apply IH; apply resolveOne_keeps_gone.
Qed.

Lemma resolveAll_gone (new : block) (gs : list GotoJump) (irs : IRState) (g : GotoJump) :
  Forall (λ g, tentativeTarget g ≠ new) gs → g ∈ gs →
  insts (foldl (resolveOne new) irs gs) (tentativeTarget g) = None
  ∧ noUses (tentativeTarget g) (foldl (resolveOne new) irs gs).
Proof.
  revert irs. induction gs as [|g0 gs IH]; intros irs Hall Hin.
  - by apply elem_of_nil in Hin.
  - inversion Hall as [|? ? Hg0 Hgs]; subst. cbn [foldl].
    apply elem_of_cons in Hin as [->|Hin].
    + destruct (resolveOne_gone new irs g0) as [H1 H2]; [done|].
      by apply resolveAll_keeps_gone.
    + by apply IH.
Qed.

Lemma cleanupFrame_refl (st : ScopeStack) : cleanupFrame st st.
Proof. by repeat split. Qed.

Lemma cleanupFrame_trans (st1 st2 st3 : ScopeStack) :
  cleanupFrame st1 st2 → cleanupFrame st2 st3 → cleanupFrame st1 st3.
Proof.
  unfold cleanupFrame. intros (?&?&?&?&?&?&?&?&?) (?&?&?&?&?&?&?&?&?).
  repeat split; congruence.
Qed.

Lemma cleanupFrame_setIrs (st : ScopeStack) (i : IRState) :
  scopebb i = scopebb (irs st) → dom (func i) = dom (func (irs st)) →
  cleanupFrame st (setIrs i st).
Proof. by repeat split. Qed.

Lemma cleanupFrame_length (st st' : ScopeStack) :
  cleanupFrame st st' → length (cleanupScopes st') = length (cleanupScopes st).
Proof.
  intros (_&_&_&_&_&_&H&_). apply (f_equal length) in H.
  by rewrite !length_fmap in H.
Qed.

Lemma cleanupFrame_beginBlock (st st' : ScopeStack) (i : nat) :
  cleanupFrame st st' →
  beginBlock <$> cleanupScopes st' !! i = beginBlock <$> cleanupScopes st !! i.
Proof.
  intros (_&_&_&_&_&_&H&_). by rewrite <- !list_lookup_fmap, H.
Qed.

Lemma cleanupFrame_current (st st' : ScopeStack) :
  cleanupFrame st st' → currentUnresolvedGotos st' = currentUnresolvedGotos st.
Proof.
  intros (_&_&_&Ht&_&_&_&_&Hu). unfold currentUnresolvedGotos.
  apply (f_equal last) in Hu. rewrite !fmap_last in Hu.
  destruct (last (cleanupScopes st')), (last (cleanupScopes st)); naive_solver.
Qed.

Lemma executeCleanupAt_cleanupFrame (i : nat) (s c : block) (st st' : ScopeStack) :
  executeCleanupAt i s c st = Ok st' → cleanupFrame st st'.
Proof. apply executeCleanupAt_frame. Qed.

Lemma runCleanups_loop_frame (i t : nat) (c : block) (st st' : ScopeStack) :
  runCleanups_loop i t c st = Ok st' → cleanupFrame st st'.
Proof.
  revert st. induction i as [|i IH]; intros st H; cbn in H.
  - injection H as <-. apply cleanupFrame_refl.
  - case_bool_decide; [|injection H as <-; apply cleanupFrame_refl].
    inv_bind H. inv_bind H.
    eapply cleanupFrame_trans; [by eapply executeCleanupAt_cleanupFrame|by apply IH].
Qed.

Lemma runCleanups_frame (t : nat) (c : block) (st st' : ScopeStack) :
  runCleanups st t c = Ok st' → cleanupFrame st st'.
Proof.
  unfold runCleanups. intros H. inv_bind H.
  case_bool_decide.
  - injection H as <-. apply cleanupFrame_setIrs; [done|]. apply dom_editBlock.
  - destruct (last (cleanupScopes st)); [|done].
    eapply cleanupFrame_trans; [|by eapply runCleanups_loop_frame].
    apply cleanupFrame_setIrs; [done|]. apply dom_editBlock.
Qed.

Lemma currentUnresolvedGotos_set (gs : list GotoJump) (st : ScopeStack) :
  currentUnresolvedGotos (setCurrentUnresolvedGotos gs st) = gs.
Proof.
  unfold currentUnresolvedGotos, setCurrentUnresolvedGotos.
  destruct (last (cleanupScopes st)) eqn:E; cbn; [by rewrite last_snoc|by rewrite E].
Qed.

Lemma irs_setCurrentUnresolvedGotos (gs : list GotoJump) (st : ScopeStack) :
  irs (setCurrentUnresolvedGotos gs st) = irs st.
Proof. unfold setCurrentUnresolvedGotos. by destruct (last (cleanupScopes st)). Qed.

Lemma addLabelTarget_current (st : ScopeStack) (l : Identifier) (b : block) :
  currentUnresolvedGotos (addLabelTarget st l b)
  = filter (λ g, targetLabel g ≠ l) (currentUnresolvedGotos st)
  ∧ irs (addLabelTarget st l b)
    = foldl (resolveOne b) (irs st)
        (filter (λ g, targetLabel g = l) (currentUnresolvedGotos st)).
Proof.
  unfold addLabelTarget. rewrite resolveGotos_spec.
  by rewrite currentUnresolvedGotos_set, irs_setCurrentUnresolvedGotos.
Qed.

Lemma jumpToLabel_forward_current (st st' : ScopeStack) (loc : Loc) (l : Identifier) :
  labelTargets st !! l = None → jumpToLabel st loc l = Ok st' →
  currentUnresolvedGotos st'
  = currentUnresolvedGotos st
    ++ [mkGotoJump loc (scopebb (irs st)) (fresh (dom (func (irs st)))) l].
Proof.
  unfold jumpToLabel. intros ->. cbn. intros [= <-].
  by rewrite currentUnresolvedGotos_set.
Qed.

Lemma runOp_keeps_pending (o : Op) (g : GotoJump) (st st' : ScopeStack) :
  ¬ pushesOrPopsCleanup o → ¬ definesLabel (targetLabel g) o →
  runOp st o = Ok st' →
  g ∈ currentUnresolvedGotos st → g ∈ currentUnresolvedGotos st'.
Proof.
  intros Hp Hd H Hg. destruct o; cbn in *; try tauto.
  - by rewrite (cleanupFrame_current _ _ (runCleanups_frame _ _ _ _ H)).
  - by rewrite (cleanupFrame_current _ _ (runCleanups_frame _ _ _ _ H)).
  - by injection H as <-.
  - unfold popLoopTarget in H. inv_bind H. inv_bind H. by injection H as <-.
  - by injection H as <-.
  - unfold popBreakTarget in H. inv_bind H. by injection H as <-.
  - injection H as <-. destruct (addLabelTarget_current st labelName targetBlock0) as [-> _].
    apply list_elem_of_filter. split; [congruence|done].
  - unfold jumpToLabel in H. destruct (labelTargets st !! labelName).
    + by rewrite (cleanupFrame_current _ _ (runCleanups_frame _ _ _ _ H)).
    + cbn in H. injection H as <-. rewrite currentUnresolvedGotos_set.
      apply elem_of_app. by left.
  - unfold jumpToStatement in H. destruct (findStatement _ _); [|done].
    by rewrite (cleanupFrame_current _ _ (runCleanups_frame _ _ _ _ H)).
  - unfold jumpToClosest in H. inv_bind H. destruct (last _); [|done].
    by rewrite (cleanupFrame_current _ _ (runCleanups_frame _ _ _ _ H)).
  - by injection H as <-.
Qed.

Lemma runOps_keeps_pending (ops : list Op) (g : GotoJump) (st st' : ScopeStack) :
  Forall (λ o, ¬ pushesOrPopsCleanup o ∧ ¬ definesLabel (targetLabel g) o) ops →
  runOps ops st = Ok st' →
  g ∈ currentUnresolvedGotos st → g ∈ currentUnresolvedGotos st'.
Proof.
  revert st. induction ops as [|o ops IH]; intros st Hall H Hg; cbn in H.
  - by injection H as <-.
  - inv_bind H. inversion Hall as [|? ? [Hp Hd] Hrest]; subst.
    eapply IH; [done..|]. by eapply runOp_keeps_pending.
Qed.

Lemma redirectAll_Br_target (b : block) (gs : list GotoJump) :
  redirectAll b gs (Br b) = Br b.
Proof.
  unfold redirectAll. induction gs as [|g gs IH]; [done|].
  cbn. unfold replaceBlock. by case_decide.
Qed.

Lemma redirectAll_Br_placeholder (b x : block) (gs : list GotoJump) :
  x ∈ tentativeTarget <$> gs → redirectAll b gs (Br x) = Br b.
Proof.
  induction gs as [|g gs IH]; intros Hin.
  - by apply elem_of_nil in Hin.
  - unfold redirectAll. cbn. unfold replaceBlock. case_decide as Hx.
    + apply redirectAll_Br_target.
    + apply IH. rewrite fmap_cons in Hin. apply elem_of_cons in Hin as [?|?]; done.
Qed.

Lemma insts_resolveAll (b x : block) (gs : list GotoJump) (irs : IRState) :
  insts (foldl (resolveOne b) irs gs) x
  = if decide (x ∈ tentativeTarget <$> gs) then None
    else map (redirectAll b gs) <$> insts irs x.
Proof.
  revert irs. induction gs as [|g gs IH]; intros irs.
  - rewrite decide_False by apply not_elem_of_nil. cbn [foldl].
    destruct (insts irs x) as [l|]; [|done]. cbn. f_equal. symmetry. apply map_id.
  - cbn [foldl]. rewrite IH, insts_resolveOne, fmap_cons.
    destruct (decide (x ∈ tentativeTarget <$> gs)) as [Hin|Hin].
    + rewrite decide_True; [done|]. rewrite elem_of_cons. by right.
    + destruct (decide (tentativeTarget g = x)) as [<-|Hne].
      * rewrite decide_True; [done|]. rewrite elem_of_cons. by left.
      * rewrite decide_False; [|rewrite elem_of_cons; by intros [?|?]].
        destruct (insts irs x) as [l|]; [|done]. cbn. f_equal.
        by rewrite map_map.
Qed.

Lemma jumpToLabel_forward_insts (st st' : ScopeStack) (loc : Loc) (l : Identifier) :
  labelTargets st !! l = None → jumpToLabel st loc l = Ok st' →
  scopebb (irs st) ∈ dom (func (irs st)) →
  insts (irs st') (scopebb (irs st))
  = Some (instsOf (irs st) (scopebb (irs st)) ++ [Br (fresh (dom (func (irs st))))]).
Proof.
  unfold jumpToLabel. intros ->. cbn. intros [= <-] Hcur.
  rewrite irs_setCurrentUnresolvedGotos. cbn.
  assert (Hne : scopebb (irs st) ≠ fresh (dom (func (irs st)))).
  { intros E'. rewrite E' in Hcur. by apply is_fresh in Hcur. }
  apply insts_is_Some in Hcur as [l0 Hl].
  unfold appendInst. rewrite insts_editBlock_eq.
  pose proof (insts_createBlock "goto.unresolved" (irs st) (scopebb (irs st))) as Hc.
  cbn in Hc. rewrite decide_False in Hc by done.
  unfold instsOf. rewrite Hl in *.
  unfold createBlock in Hc. cbn in Hc. by rewrite Hc.
Qed.

(** C5: [addLabelTarget] binds the label to the given block and the current
    cleanup cursor, and scans only the current unresolved list (that of the
    innermost scope, or the top-level one). Every entry awaiting the label
    has the uses of its placeholder redirected to the block and its
    placeholder erased, in list order, and leaves the list; entries awaiting
    other labels stay, in order; no other list or scope field changes.
    When the block is none of those placeholders, each of them is gone from
    the function and no instruction uses it any more. In particular, after
    a goto to a label not yet defined and any operations that neither push
    nor pop a cleanup scope nor define the label, defining the label removes
    the goto from the list, eliminates its placeholder and leaves no edge to
    it; when the definition follows at once, the branch that ended the
    block of the goto now goes to the block of the label. *)
Theorem addLabelTarget_resolves_current_gotos
    (st0 st : ScopeStack) (loc : Loc) (labelName : Identifier) (targetBlock : block)
    (ops : list Op) :
  labelTargets st0 !! labelName = None →
  Forall (λ o, ¬ pushesOrPopsCleanup o ∧ ¬ definesLabel labelName o) ops →
  jumpToLabel st0 loc labelName ≫= runOps ops = Ok st →
  Forall (λ g, tentativeTarget g ≠ targetBlock)
    (filter (λ g, targetLabel g = labelName) (currentUnresolvedGotos st)) →
  (∀ s : ScopeStack,
     let matching := filter (λ g, targetLabel g = labelName) (currentUnresolvedGotos s) in
     let s' := addLabelTarget s labelName targetBlock in
     labelTargets s'
     = <[labelName := mkJumpTarget targetBlock (currentCleanupScope s) None]>
         (labelTargets s)
     ∧ currentUnresolvedGotos s'
       = filter (λ g, targetLabel g ≠ labelName) (currentUnresolvedGotos s)
     ∧ irs s' = foldl (resolveOne targetBlock) (irs s) matching
     ∧ continueTargets s' = continueTargets s
     ∧ breakTargets s' = breakTargets s
     ∧ match last (cleanupScopes s) with
       | Some sc =>
           cleanupScopes s'
           = removelast (cleanupScopes s)
             ++ [setUnresolvedGotos
                   (filter (λ g, targetLabel g ≠ labelName) (unresolvedGotos sc)) sc]
           ∧ topLevelUnresolvedGotos s' = topLevelUnresolvedGotos s
       | None =>
           cleanupScopes s' = []
           ∧ topLevelUnresolvedGotos s'
             = filter (λ g, targetLabel g ≠ labelName) (topLevelUnresolvedGotos s)
       end
     ∧ (Forall (λ g, tentativeTarget g ≠ targetBlock) matching →
        ∀ g, g ∈ matching →
          (tentativeTarget g ∉ dom (func (irs s')))
          ∧ noUses (tentativeTarget g) (irs s')))
  ∧ (let placeholder := fresh (dom (func (irs st0))) in
     let cur := scopebb (irs st0) in
     let st' := addLabelTarget st labelName targetBlock in
     (mkGotoJump loc cur placeholder labelName ∈ currentUnresolvedGotos st)
     ∧ (mkGotoJump loc cur placeholder labelName ∉ currentUnresolvedGotos st')
     ∧ (placeholder ∉ dom (func (irs st')))
     ∧ noUses placeholder (irs st')
     ∧ (ops = [] → cur ∈ dom (func (irs st0)) →
        cur ∉ tentativeTarget <$>
                filter (λ g, targetLabel g = labelName) (currentUnresolvedGotos st) →
        last (instsOf (irs st') cur) = Some (Br targetBlock))).
Proof.
  intros Hnone Hops Hrun Hneq.
  assert (Hgen : ∀ s : ScopeStack,
    Forall (λ g, tentativeTarget g ≠ targetBlock)
      (filter (λ g, targetLabel g = labelName) (currentUnresolvedGotos s)) →
    ∀ g, g ∈ filter (λ g, targetLabel g = labelName) (currentUnresolvedGotos s) →
      (tentativeTarget g ∉ dom (func (irs (addLabelTarget s labelName targetBlock))))
      ∧ noUses (tentativeTarget g) (irs (addLabelTarget s labelName targetBlock))).
  { intros s Hall g Hg.
    destruct (addLabelTarget_current s labelName targetBlock) as [_ ->].
    destruct (resolveAll_gone targetBlock _ (irs s) g Hall Hg) as [H1 H2].
    split; [|done]. rewrite <- insts_is_Some, H1. by intros [? ?]. }
  split.
  - intros s matching s'. subst matching s'.
    destruct (addLabelTarget_current s labelName targetBlock) as [Hc Hi].
    split; [apply addLabelTarget_labelTargets|].
    split; [exact Hc|]. split; [exact Hi|].
    split; [|split; [|split; [|by apply Hgen]]].
    + unfold addLabelTarget, setCurrentUnresolvedGotos.
      rewrite resolveGotos_spec. cbn. by destruct (last (cleanupScopes s)).
    + unfold addLabelTarget, setCurrentUnresolvedGotos.
      rewrite resolveGotos_spec. cbn. by destruct (last (cleanupScopes s)).
    + unfold addLabelTarget, setCurrentUnresolvedGotos, currentUnresolvedGotos.
      rewrite resolveGotos_spec. cbn.
      destruct (snoc_cases (cleanupScopes s)) as [E|(cs & sc & E)]; rewrite E.
      * cbn. by rewrite E.
      * by rewrite last_snoc.
  - cbn zeta. inv_bind Hrun. rename a into st1.
    set (g := mkGotoJump loc (scopebb (irs st0)) (fresh (dom (func (irs st0)))) labelName).
    assert (Hg1 : g ∈ currentUnresolvedGotos st1).
    { rewrite (jumpToLabel_forward_current _ _ _ _ Hnone Ha).
      apply elem_of_app. right. apply list_elem_of_singleton. done. }
    assert (Hg : g ∈ currentUnresolvedGotos st)
      by (by eapply (runOps_keeps_pending ops g)).
    assert (Hgm : g ∈ filter (λ g, targetLabel g = labelName) (currentUnresolvedGotos st))
      by (by apply list_elem_of_filter).
    split; [exact Hg|]. split.
    { destruct (addLabelTarget_current st labelName targetBlock) as [-> _].
      rewrite list_elem_of_filter. cbn. tauto. }
    destruct (Hgen st Hneq g Hgm) as [Hd Hu].
    split; [exact Hd|]. split; [exact Hu|].
    intros -> Hcur Hnot. cbn in Hrun. injection Hrun as <-.
    destruct (addLabelTarget_current st1 labelName targetBlock) as [_ Hi].
    unfold instsOf. rewrite Hi, insts_resolveAll, decide_False by done.
    rewrite (jumpToLabel_forward_insts _ _ _ _ Hnone Ha Hcur). cbn.
    rewrite map_app. cbn. rewrite last_snoc. f_equal.
    apply redirectAll_Br_placeholder.
    apply list_elem_of_fmap. by exists g.
Qed.

(** ** Terminators under the edits of the core *)

Lemma getTerminator_snoc (l : list instr) (i : instr) :
  getTerminator (l ++ [i]) = if isTerminator i then Some i else None.
Proof. unfold getTerminator. by rewrite last_snoc. Qed.

Lemma getTerminator_Some (l : list instr) (t : instr) :
  getTerminator l = Some t → l = removelast l ++ [t] ∧ isTerminator t = true.
Proof.
  unfold getTerminator.
  destruct (snoc_cases l) as [->|(l' & x & ->)]; [done|].
  rewrite last_snoc, removelast_snoc.
  destruct (isTerminator x) eqn:E; [|done]. by intros [= ->].
Qed.

Lemma getTerminator_insertBefore (i : instr) (l : list instr) :
  getTerminator (insertBeforeTerminator i l) = getTerminator l.
Proof.
  unfold insertBeforeTerminator.
  destruct (getTerminator l) as [t|] eqn:E; [|done].
  apply getTerminator_Some in E as [_ Ht].
  change [i; t] with ([i] ++ [t]). by rewrite app_assoc, getTerminator_snoc, Ht.
Qed.

Lemma isTerminator_replaceUses (old new : block) (i : instr) :
  isTerminator (replaceUses old new i) = isTerminator i.
Proof. by destruct i. Qed.

Lemma getTerminator_replaceUses (old new : block) (l : list instr) :
  getTerminator (map (replaceUses old new) l) = replaceUses old new <$> getTerminator l.
Proof.
  destruct (snoc_cases l) as [->|(l' & x & ->)]; [done|].
  rewrite map_app. cbn [map]. rewrite !getTerminator_snoc, isTerminator_replaceUses.
  by destruct (isTerminator x).
Qed.

Lemma instsOf_editBlock (b b' : block) (g : list instr → list instr) (irs : IRState) :
  instsOf (editBlock b g irs) b'
  = if decide (b = b' ∧ b ∈ dom (func irs)) then g (instsOf irs b') else instsOf irs b'.
Proof.
  unfold instsOf. rewrite insts_editBlock.
  destruct (decide (b = b')) as [<-|Hne].
  - destruct (insts irs b) as [l|] eqn:E.
    + rewrite decide_True; [done|]. split; [done|]. apply insts_is_Some. by rewrite E.
    + rewrite decide_False; [done|]. intros [_ Hin].
      apply insts_is_Some in Hin as [? ?]. congruence.
  - rewrite decide_False; [done|]. by intros [? _].
Qed.

Lemma termOf_storeBeforeTerminator (c : nat) (sel : value) (b b' : block) (irs : IRState) :
  termOf (storeBeforeTerminator c sel b irs) b' = termOf irs b'.
Proof.
  unfold termOf, storeBeforeTerminator. rewrite instsOf_editBlock.
  case_decide; [|done]. apply getTerminator_insertBefore.
Qed.

Lemma termOf_storeZeroes (sel : value) (v : list block) (b' : block) (irs : IRState) :
  termOf (storeZeroes sel v irs) b' = termOf irs b'.
Proof.
  revert irs. induction v as [|b v IH]; intros irs; [done|].
  cbn [storeZeroes]. by rewrite IH, termOf_storeBeforeTerminator.
Qed.

Lemma termOf_appendInst (b b' : block) (i : instr) (irs : IRState) :
  termOf (appendInst b i irs) b'
  = if decide (b = b' ∧ b ∈ dom (func irs))
    then (if isTerminator i then Some i else None)
    else termOf irs b'.
Proof.
  unfold termOf, appendInst. rewrite instsOf_editBlock.
  case_decide; [|done]. apply getTerminator_snoc.
Qed.

Lemma termOf_replaceAllUsesWith (old new b : block) (irs : IRState) :
  termOf (replaceAllUsesWith old new irs) b = replaceUses old new <$> termOf irs b.
Proof.
  unfold termOf, instsOf. rewrite insts_replaceAllUsesWith.
  destruct (insts irs b) as [l|]; [|done]. apply getTerminator_replaceUses.
Qed.

Lemma termOf_ext (irs irs' : IRState) (b : block) :
  func irs' = func irs → termOf irs' b = termOf irs b.
Proof. unfold termOf, instsOf, insts. by intros ->. Qed.

Lemma termOf_convertToSwitch (sel : value) (sc : CleanupScope) (d : block)
    (irs irs' : IRState) (b : block) :
  endBlock sc ∈ dom (func irs) →
  convertToSwitch sel sc d irs = Ok irs' →
  termOf irs' b
  = if decide (b = endBlock sc) then Some (Switch (nextValue irs) d [])
    else termOf irs b.
Proof.
  unfold convertToSwitch. intros Hin.
  destruct (getTerminator _) eqn:E; [|done]. intros [= <-].
  rewrite (termOf_ext (editBlock (endBlock sc)
    (λ l, removelast l ++ [Load (nextValue irs) sel; Switch (nextValue irs) d []]) irs) _)
    by done.
  unfold termOf. rewrite instsOf_editBlock.
  destruct (decide (b = endBlock sc)) as [->|Hne].
  - rewrite decide_True by done.
    change [Load (nextValue irs) sel; Switch (nextValue irs) d []]
      with ([Load (nextValue irs) sel] ++ [Switch (nextValue irs) d []]).
    by rewrite app_assoc, getTerminator_snoc.
  - rewrite decide_False; [done|]. by intros [? _].
Qed.

Lemma convertToSwitch_Ok (sel : value) (sc : CleanupScope) (d : block) (irs : IRState) :
  is_Some (termOf irs (endBlock sc)) → isOk (convertToSwitch sel sc d irs).
Proof.
  unfold convertToSwitch, termOf. by intros [t ->].
Qed.

Lemma addCase_Some (c : nat) (d : block) (l : list instr) (t : instr) :
  getTerminator l = Some t → isSwitch t →
  ∃ l', addCase c d l = Some l' ∧ ∃ t', getTerminator l' = Some t' ∧ isSwitch t'.
Proof.
  unfold addCase. intros -> Ht. destruct t; try done.
  eexists. split; [done|]. rewrite getTerminator_snoc. by eexists.
Qed.

Lemma termOf_createBranchSelector (irs irs' : IRState) (sc : CleanupScope)
    (t0 : CleanupExitTarget) (sel : value) (b : block) :
  endBlock sc ∈ dom (func irs) →
  createBranchSelector irs sc t0 = Ok (sel, irs') →
  termOf irs' b
  = if decide (b = endBlock sc)
    then Some (Switch (Pos.succ (nextValue irs)) (branchTarget t0) [])
    else termOf irs b.
Proof.
  unfold createBranchSelector. cbn. intros Hin H. inv_bind H. injection H as <- <-.
  match type of Ha with
  | convertToSwitch _ _ _ (storeZeroes ?x ?v ?i) = _ =>
      destruct (storeZeroes_frame x v i) as (_ & Hd & _ & Hn)
  end.
  erewrite termOf_convertToSwitch; [|by rewrite Hd|done].
  rewrite Hn. cbn. case_decide; [done|]. by rewrite termOf_storeZeroes.
Qed.

Lemma createBranchSelector_Ok (irs : IRState) (sc : CleanupScope) (t0 : CleanupExitTarget) :
  is_Some (termOf irs (endBlock sc)) →
  ∃ irs', createBranchSelector irs sc t0 = Ok (nextValue irs, irs').
Proof.
  intros Hterm. unfold createBranchSelector. cbn.
  match goal with
  | |- context [convertToSwitch ?x ?y ?z ?i] =>
      pose proof (convertToSwitch_Ok x y z i) as Hok;
      destruct (convertToSwitch x y z i) as [irs1|f]
  end.
  - by eexists.
  - exfalso. apply Hok. by rewrite termOf_storeZeroes.
Qed.

Lemma termOf_selectExit_other (sel : value) (irs irs' : IRState) (sc sc' : CleanupScope)
    (s c b : block) :
  selectExit sel irs sc s c = Ok (irs', sc') →
  b ≠ endBlock sc → termOf irs' b = termOf irs b.
Proof.
  unfold selectExit. intros H Hb. destruct (findExitTarget _ _ _).
  - injection H as <- <-. by rewrite termOf_storeBeforeTerminator.
  - destruct (addCase _ _ _); [|done]. injection H as <- <-.
    rewrite termOf_storeBeforeTerminator. unfold termOf.
    rewrite instsOf_editBlock, decide_False; [done|]. by intros [? _].
Qed.

Lemma selectExit_Ok (sel : value) (irs : IRState) (sc : CleanupScope) (s c : block)
    (t : instr) :
  endBlock sc ∈ dom (func irs) → branchSelector sc = Some sel →
  termOf irs (endBlock sc) = Some t → isSwitch t →
  1 ≤ length (exitTargets sc) →
  (length (exitTargets sc) = 1 → findExitTarget 0 (exitTargets sc) c = None) →
  ∃ irs' sc', selectExit sel irs sc s c = Ok (irs', sc') ∧ scopeOk irs' sc'.
Proof.
  intros Hin Hsel Ht Hsw Hlen Hone. unfold selectExit.
  destruct (findExitTarget 0 (exitTargets sc) c) as [i|] eqn:Ef.
  - eexists _, _. split; [done|]. split; cbn.
    + by rewrite dom_alter_L.
    + rewrite Hsel, length_alter. split.
      * destruct (decide (length (exitTargets sc) = 1)) as [E|E]; [|lia].
        by specialize (Hone E).
      * exists t. by rewrite termOf_storeBeforeTerminator.
  - destruct (addCase_Some (length (exitTargets sc)) c _ t Ht Hsw)
      as (l' & -> & t' & Ht' & Hsw').
    eexists _, _. split; [done|]. split; cbn.
    + by rewrite !dom_alter_L.
    + rewrite Hsel, length_app. split; [cbn; lia|].
      exists t'. rewrite termOf_storeBeforeTerminator. unfold termOf.
      by rewrite instsOf_editBlock, decide_True.
Qed.

(** Only the exit block of the scope can change its terminator. *)
Lemma executeCleanup_termOf_other (irs irs' : IRState) (sc sc' : CleanupScope)
    (s c b : block) :
  endBlock sc ∈ dom (func irs) →
  executeCleanup irs sc s c = Ok (irs', sc') →
  b ≠ endBlock sc → termOf irs' b = termOf irs b.
Proof.
  unfold executeCleanup. intros Hin H Hb.
  destruct (exitTargets sc) as [|t0 ts] eqn:Et.
  - inv_bind H. injection H as <- <-. rewrite termOf_appendInst.
    rewrite decide_False; [done|]. by intros [? _].
  - case_bool_decide as Hc.
    + inv_bind H. by injection H as <- <-.
    + inv_bind H. destruct a as [sel irs1].
      rewrite (termOf_selectExit_other _ _ _ _ _ _ _ _ H) by done.
      destruct (branchSelector sc); [by injection Ha as <- <-|].
      erewrite termOf_createBranchSelector; [|done..]. by rewrite decide_False.
Qed.

(** A well-formed scope takes any request and stays well formed. *)
Lemma executeCleanup_Ok (irs : IRState) (sc : CleanupScope) (s c : block) :
  scopeOk irs sc →
  ∃ irs' sc', executeCleanup irs sc s c = Ok (irs', sc') ∧ scopeOk irs' sc'.
Proof.
  intros [Hin Hok]. unfold executeCleanup.
  destruct (exitTargets sc) as [|t0 ts] eqn:Et.
  - destruct (branchSelector sc) eqn:Es; [cbn in Hok; lia|].
    cbn. eexists _, _. split; [done|]. split; cbn.
    + by rewrite dom_alter_L.
    + rewrite Es. right. split; [done|].
      rewrite termOf_appendInst, decide_True by done. by eexists.
  - case_bool_decide as Hc.
    + destruct Hc as [-> Hc].
      destruct (branchSelector sc) eqn:Es; [cbn in Hok; lia|].
      cbn. eexists _, _. split; [done|]. split; cbn; [done|].
      rewrite Es. right. split; [done|].
      destruct Hok as [Hbad|[_ Hterm]]; [congruence|exact Hterm].
    + destruct (branchSelector sc) as [sel|] eqn:Es.
      * destruct Hok as [Hlen (t & Ht & Hsw)]. cbn.
        apply (selectExit_Ok sel irs _ s c t); cbn; try done.
        -- rewrite Et. cbn in *. lia.
        -- rewrite Et. cbn in *. lia.
      * destruct Hok as [Hbad|[Hlen Hterm]]; [congruence|].
        destruct ts as [|? ?]; [|cbn in Hlen; lia].
        assert (Hne : branchTarget t0 ≠ c) by naive_solver.
        destruct (createBranchSelector_Ok irs sc t0 Hterm) as [irs1 Hcr].
        rewrite Hcr. cbn.
        pose proof (termOf_createBranchSelector _ _ _ _ _ (endBlock sc) Hin Hcr) as Ht1.
        rewrite decide_True in Ht1 by done.
        apply createBranchSelector_frame in Hcr as (_ & _ & Hd).
        eapply (selectExit_Ok _ irs1 _ s c); cbn; try done.
        -- by rewrite Hd.
        -- rewrite Et. cbn. lia.
        -- rewrite Et. cbn. intros _. by rewrite decide_False.
Qed.

(** ** Well-formedness of the stack is kept *)

Lemma scopeOk_ext (irs irs' : IRState) (sc : CleanupScope) :
  dom (func irs') = dom (func irs) →
  termOf irs' (endBlock sc) = termOf irs (endBlock sc) →
  scopeOk irs sc → scopeOk irs' sc.
Proof. unfold scopeOk. by intros -> ->. Qed.

Lemma scopeOk_replaceAllUsesWith (old new : block) (irs : IRState) (sc : CleanupScope) :
  scopeOk irs sc → scopeOk (replaceAllUsesWith old new irs) sc.
Proof.
  unfold scopeOk. intros [Hin Hok]. split.
  - unfold replaceAllUsesWith. cbn. by rewrite dom_fmap_L.
  - rewrite termOf_replaceAllUsesWith.
    destruct (branchSelector sc).
    + destruct Hok as [Hlen (t & -> & Hsw)]. split; [done|].
      exists (replaceUses old new t). split; [done|]. by destruct t.
    + destruct Hok as [?|[? [t ->]]]; [by left|right]. split; [done|]. by eexists.
Qed.

Lemma stackOk_replaceAllUsesWith (old new : block) (st : ScopeStack) :
  stackOk st → stackOk (setIrs (replaceAllUsesWith old new (irs st)) st).
Proof.
  intros [Hall Hnd]. split; [|done]. cbn.
  eapply Forall_impl; [exact Hall|]. intros sc. apply scopeOk_replaceAllUsesWith.
Qed.

Lemma stackOk_appendInst (b : block) (i : instr) (st : ScopeStack) :
  b ∉ endBlock <$> cleanupScopes st →
  stackOk st → stackOk (setIrs (appendInst b i (irs st)) st).
Proof.
  intros Hb [Hall Hnd]. split; [|done]. cbn.
  apply Forall_forall. intros sc Hsc.
  rewrite Forall_forall in Hall.
  apply (scopeOk_ext (irs st)); [apply dom_editBlock| |by apply Hall].
  rewrite termOf_appendInst, decide_False; [done|].
  intros [-> _]. apply Hb. apply list_elem_of_fmap. by exists sc.
Qed.

Lemma executeCleanupAt_Ok (i : nat) (s c : block) (st : ScopeStack) :
  stackOk st → i < length (cleanupScopes st) →
  ∃ st', executeCleanupAt i s c st = Ok st' ∧ stackOk st'.
Proof.
  intros [Hall Hnd] Hi. unfold executeCleanupAt.
  destruct (lookup_lt_is_Some_2 _ _ Hi) as [sc Hsc]. rewrite Hsc.
  assert (Hsok : scopeOk (irs st) sc) by (by eapply Forall_lookup_1).
  destruct (executeCleanup_Ok (irs st) sc s c Hsok) as (irs' & sc' & Hex & Hok').
  rewrite Hex. cbn. eexists. split; [done|].
  pose proof (executeCleanup_frame _ _ _ _ _ _ Hex) as (Hb & He & Hu & Hs & Hd).
  assert (Hends : endBlock <$> <[i:=sc']> (cleanupScopes st)
                  = endBlock <$> cleanupScopes st).
  { rewrite list_fmap_insert. apply list_insert_id.
    by rewrite list_lookup_fmap, Hsc, He. }
  split; cbn; [|by rewrite Hends].
  apply Forall_lookup. intros j scj Hj.
  destruct (decide (i = j)) as [->|Hne].
  - rewrite list_lookup_insert_eq in Hj by done. by injection Hj as <-.
  - rewrite list_lookup_insert_ne in Hj by done.
    apply (scopeOk_ext (irs st)); [done| |by eapply Forall_lookup_1].
    eapply executeCleanup_termOf_other; [by destruct Hsok|done|].
    intros E. apply Hne.
    eapply (NoDup_lookup _ i j (endBlock sc)); [exact Hnd|..];
      rewrite list_lookup_fmap; [by rewrite Hsc|rewrite Hj; cbn; by rewrite E].
Qed.

Lemma runChain_Ok (calls : list (nat * block * block)) (st : ScopeStack) :
  stackOk st →
  Forall (λ call, call.1.1 < length (cleanupScopes st)) calls →
  ∃ st', runChain calls st = Ok st' ∧ stackOk st'.
Proof.
  revert st. induction calls as [|[[i s] c] calls IH]; intros st Hok Hall.
  - by exists st.
  - inversion Hall as [|? ? Hi Hrest]; subst. cbn in Hi. cbn [runChain].
    destruct (executeCleanupAt_Ok i s c st Hok Hi) as (st1 & Hex & Hok1).
    rewrite Hex. cbn. apply IH; [done|].
    by rewrite (cleanupFrame_length _ _ (executeCleanupAt_cleanupFrame _ _ _ _ _ Hex)).
Qed.

(** ** [runCleanups] performs the chain of the specification *)

Lemma unwoundScopes_ge (i t : nat) : i ≤ t → unwoundScopes i t = [].
Proof. intros. unfold unwoundScopes. by replace (i - t) with 0 by lia. Qed.

Lemma unwoundScopes_S (i t : nat) :
  t ≤ i → unwoundScopes (S i) t = i :: unwoundScopes i t.
Proof.
  intros. unfold unwoundScopes. replace (S i - t) with (S (i - t)) by lia.
  rewrite seq_S, rev_unit. f_equal. lia.
Qed.

Lemma elem_of_unwoundScopes (i t k : nat) : k ∈ unwoundScopes i t ↔ t ≤ k < i.
Proof.
  unfold unwoundScopes. rewrite list_elem_of_In, <- in_rev, in_seq. lia.
Qed.

Lemma runCleanups_loop_chain (t : nat) (c bb : block) (cs : list CleanupScope)
    (i : nat) (st : ScopeStack) :
  i ≤ length (cleanupScopes st) →
  beginBlock <$> cleanupScopes st = beginBlock <$> cs →
  scopebb (irs st) = bb →
  runCleanups_loop i t c st
  = runChain ((λ k, (k, bb, chainContinuation cs t c k)) <$> unwoundScopes i t) st.
Proof.
  revert st. induction i as [|i IH]; intros st Hi Hb Hbb.
  - by rewrite unwoundScopes_ge by lia.
  - cbn [runCleanups_loop]. case_bool_decide as Ht.
    2:{ by rewrite unwoundScopes_ge by lia. }
    rewrite unwoundScopes_S by lia. cbn [fmap list_fmap runChain].
    assert (Hnext :
      (if bool_decide (t < i) then
         match cleanupScopes st !! (i - 1) with
         | Some sc => Ok (beginBlock sc)
         | None => Fail (UndefinedBehaviour "cleanupScopes[i - 1] out of range")
         end
       else Ok c) = Ok (chainContinuation cs t c i)).
    { unfold chainContinuation. case_bool_decide.
      - rewrite decide_False by lia.
        rewrite <- list_lookup_fmap, <- Hb, list_lookup_fmap.
        destruct (lookup_lt_is_Some_2 (cleanupScopes st) (i - 1)) as [sc ->]; [lia|done].
      - by rewrite decide_True by lia. }
    rewrite Hnext. cbn. rewrite Hbb.
    destruct (executeCleanupAt i bb (chainContinuation cs t c i) st) as [st1|f] eqn:Hex;
      [|done].
    cbn. pose proof (executeCleanupAt_cleanupFrame _ _ _ _ _ Hex) as Hfr.
    apply IH.
    + rewrite (cleanupFrame_length _ _ Hfr). lia.
    + destruct Hfr as (_&_&_&_&_&_&->&_). done.
    + destruct Hfr as (_&_&_&_&->&_). done.
Qed.

(** C3: under the precondition [targetScope <= depth], [runCleanups] with
    the cursor at the current depth only appends the branch to
    [continueWith] at the end of the current block and leaves every scope
    as it is. Below the current depth it appends the branch to the entry
    block of the innermost scope and then performs exactly the calls of
    [cleanupChain]: one multiplexer call for each of the
    [depth - targetScope] scopes above the cursor, innermost first, each
    with the current block as source, continuing at the entry block of the
    next scope outward, and at [continueWith] for the outermost scope
    unwound. On a well-formed stack whose exit blocks do not include the
    current block the calls all succeed. [runAllCleanups] is [runCleanups]
    to cursor 0. *)
Theorem runCleanups_unwinds_chain
    (st : ScopeStack) (targetScope : nat) (continueWith : block) :
  targetScope ≤ currentCleanupScope st →
  let cur := scopebb (irs st) in
  let depth := currentCleanupScope st in
  let chain := cleanupChain st targetScope continueWith in
  (targetScope = depth →
     runCleanups st targetScope continueWith
     = Ok (setIrs (appendInst cur (Br continueWith) (irs st)) st))
  ∧ (targetScope < depth →
     ∃ sc, last (cleanupScopes st) = Some sc
       ∧ runCleanups st targetScope continueWith
         = runChain chain (setIrs (appendInst cur (Br (beginBlock sc)) (irs st)) st)
       ∧ (stackOk st → cur ∉ endBlock <$> cleanupScopes st →
          ∃ st', runCleanups st targetScope continueWith = Ok st' ∧ stackOk st'))
  ∧ (λ call, call.1.1) <$> chain = rev (seq targetScope (depth - targetScope))
  ∧ length chain = depth - targetScope
  ∧ (∀ i src k, (i, src, k) ∈ chain →
       src = cur
       ∧ targetScope ≤ i < depth
       ∧ (i = targetScope → k = continueWith)
       ∧ (i ≠ targetScope →
          ∃ sc', cleanupScopes st !! (i - 1) = Some sc' ∧ k = beginBlock sc'))
  ∧ runAllCleanups st continueWith = runCleanups st 0 continueWith.
Proof.
  intros Hpre cur depth chain. subst cur depth chain.
  unfold currentCleanupScope in *.
  split; [|split; [|split; [|split; [|split]]]].
  - intros ->. unfold runCleanups, currentCleanupScope.
    by rewrite !bool_decide_true by done.
  - intros Hlt.
    destruct (snoc_cases (cleanupScopes st)) as [E|(cs & sc & E)].
    { rewrite E in Hlt. cbn in Hlt. lia. }
    exists sc. split; [by rewrite E, last_snoc|].
    assert (Hrun : runCleanups st targetScope continueWith
      = runChain (cleanupChain st targetScope continueWith)
          (setIrs (appendInst (scopebb (irs st)) (Br (beginBlock sc)) (irs st)) st)).
    { unfold runCleanups, currentCleanupScope.
      rewrite (bool_decide_true (targetScope ≤ _)) by exact Hpre. cbn.
      rewrite (bool_decide_false (targetScope = _)) by (clear -Hlt; lia).
      rewrite E at 1. rewrite last_snoc.
      by apply runCleanups_loop_chain. }
    split; [exact Hrun|]. intros Hok Hcur. rewrite Hrun.
    apply runChain_Ok; [by apply stackOk_appendInst|].
    apply Forall_forall. intros call Hcall.
    apply list_elem_of_fmap in Hcall as (k & -> & Hk).
    apply elem_of_unwoundScopes in Hk. cbn. unfold currentCleanupScope in Hk. lia.
  - unfold cleanupChain. rewrite <- list_fmap_compose. cbn. apply list_fmap_id.
  - unfold cleanupChain, unwoundScopes. by rewrite length_fmap, length_rev, length_seq.
  - intros i src k Hin.
    apply list_elem_of_fmap in Hin as (j & [= -> -> ->] & Hj).
    apply elem_of_unwoundScopes in Hj. unfold currentCleanupScope in Hj.
    split; [done|]. split; [done|]. unfold chainContinuation. split.
    + intros ->. by rewrite decide_True.
    + intros Hne. rewrite decide_False by done.
      destruct (lookup_lt_is_Some_2 (cleanupScopes st) (j - 1)) as [sc' Hsc']; [lia|].
      exists sc'. by rewrite Hsc'.
  - done.
Qed.

(** ** [popCleanups] performs the plan of the specification *)

Lemma runPopSteps_app (ps qs : list PopStep) (st : ScopeStack) :
  runPopSteps (ps ++ qs) st = runPopSteps ps st ≫= runPopSteps qs.
Proof.
  revert st. induction ps as [|p ps IH]; intros st; [done|].
  cbn [app runPopSteps]. destruct (runPopStep st p) as [st1|f]; [|done].
  cbn. apply IH.
Qed.

Lemma popCleanups_gotos_steps (i : nat) (entry : block) (gs : list GotoJump)
    (st : ScopeStack) :
  beginBlock <$> cleanupScopes st !! i = Some entry →
  popCleanups_gotos i gs st = runPopSteps (flat_map (gotoSteps i entry) gs) st.
Proof.
  revert st. induction gs as [|g gs IH]; intros st Hb; [done|].
  cbn [popCleanups_gotos flat_map gotoSteps app runPopSteps runPopStep].
  destruct (cleanupScopes st !! i) as [sc|] eqn:Ei; [|done].
  injection Hb as <-. cbn.
  match goal with
  | |- context [executeCleanupAt ?a ?b ?c ?s] =>
      destruct (executeCleanupAt a b c s) as [st1|f] eqn:Hex; [|done]
  end.
  cbn. apply IH.
  rewrite (cleanupFrame_beginBlock _ _ i (executeCleanupAt_cleanupFrame _ _ _ _ _ Hex)).
  cbn. by rewrite Ei.
Qed.

Lemma pendingAt_ge (cs : list CleanupScope) (k : nat) :
  length cs ≤ k → pendingAt cs k = [].
Proof. intros. unfold pendingAt. by rewrite drop_ge. Qed.

Lemma pendingAt_snoc (cs : list CleanupScope) (sc : CleanupScope) (k : nat) :
  k ≤ length cs →
  pendingAt (cs ++ [sc]) k = pendingAt cs k ++ unresolvedGotos sc.
Proof.
  intros. unfold pendingAt. rewrite drop_app_le by done.
  rewrite fmap_app, concat_app. cbn. by rewrite app_nil_r.
Qed.

Lemma pendingAt_last (cs : list CleanupScope) (sc : CleanupScope) :
  pendingAt (cs ++ [sc]) (length cs) = unresolvedGotos sc.
Proof. by rewrite pendingAt_snoc, pendingAt_ge by done. Qed.

Lemma setUnresolvedGotos_id (sc : CleanupScope) :
  setUnresolvedGotos (unresolvedGotos sc) sc = sc.
Proof. by destruct sc. Qed.

Lemma poppedScopes_ge (cs : list CleanupScope) (t : nat) :
  length cs ≤ t → poppedScopes cs t = cs.
Proof.
  intros Hle. unfold poppedScopes. destruct t as [|t'].
  - destruct cs; [done|cbn in Hle; lia].
  - rewrite take_ge, pendingAt_ge by done.
    apply list_eq. intros j. rewrite list_lookup_alter.
    case_decide as Hj; [|done]. subst j.
    destruct (cs !! t') as [sc|]; [|done]. cbn.
    by rewrite app_nil_r, setUnresolvedGotos_id.
Qed.

Lemma poppedTopLevel_ge (top : list GotoJump) (cs : list CleanupScope) (t : nat) :
  length cs ≤ t → poppedTopLevel top cs t = top.
Proof.
  intros Hle. unfold poppedTopLevel. destruct t; [|done].
  by rewrite pendingAt_ge, app_nil_r.
Qed.

(** Merging the innermost list outward and removing the scope, seen from
    the stack before: the shape after popping is the same. *)
Lemma poppedScopes_merge (cs : list CleanupScope) (sa sc sc1 : CleanupScope) (t : nat) :
  t ≤ S (length cs) → unresolvedGotos sc1 = unresolvedGotos sc →
  poppedScopes
    (cs ++ [setUnresolvedGotos (unresolvedGotos sa ++ unresolvedGotos sc1) sa]) t
  = poppedScopes (cs ++ [sa; sc]) t.
Proof.
  intros Ht HU. unfold poppedScopes. destruct t as [|t']; [done|].
  change (cs ++ [sa; sc]) with (cs ++ [sa] ++ [sc]). rewrite (app_assoc cs).
  destruct (decide (S t' = S (length cs))) as [E|Hne].
  - injection E as ->.
    rewrite take_ge by (rewrite length_app; cbn; lia).
    rewrite take_app_le by (rewrite length_app; cbn; lia).
    rewrite (take_ge (cs ++ [sa])) by (rewrite length_app; cbn; lia).
    rewrite pendingAt_ge by (rewrite length_app; cbn; lia).
    replace (S (length cs)) with (length (cs ++ [sa])) by (rewrite length_app; cbn; lia).
    rewrite pendingAt_last, HU.
    apply list_eq. intros j. rewrite !list_lookup_alter.
    case_decide as Hj; [subst j|].
    + rewrite !list_lookup_middle by done. cbn. by rewrite app_nil_r.
    + destruct (decide (j < length cs)).
      * by rewrite !lookup_app_l by done.
      * rewrite !lookup_ge_None_2; [done|rewrite length_app; cbn; lia..].
  - rewrite !take_app_le by (rewrite ?length_app; cbn; lia).
    rewrite !pendingAt_snoc by (rewrite ?length_app; cbn; lia).
    cbn. rewrite HU. by rewrite <- !app_assoc.
Qed.

Lemma pendingAt_merge (cs : list CleanupScope) (sa sc sc1 : CleanupScope) (k : nat) :
  k ≤ length cs → unresolvedGotos sc1 = unresolvedGotos sc →
  pendingAt
    (cs ++ [setUnresolvedGotos (unresolvedGotos sa ++ unresolvedGotos sc1) sa]) k
  = pendingAt (cs ++ [sa; sc]) k.
Proof.
  intros Hk HU.
  change (cs ++ [sa; sc]) with (cs ++ [sa] ++ [sc]). rewrite (app_assoc cs).
  rewrite !pendingAt_snoc by (rewrite ?length_app; cbn; lia).
  cbn. rewrite HU. by rewrite <- !app_assoc.
Qed.

Lemma executeCleanupAt_snoc (cs : list CleanupScope) (sc : CleanupScope) (s c : block)
    (st st' : ScopeStack) :
  cleanupScopes st = cs ++ [sc] →
  executeCleanupAt (length cs) s c st = Ok st' →
  ∃ sc', cleanupScopes st' = cs ++ [sc']
    ∧ unresolvedGotos sc' = unresolvedGotos sc
    ∧ beginBlock sc' = beginBlock sc.
Proof.
  intros E. unfold executeCleanupAt. rewrite E, list_lookup_middle by done.
  intros H. inv_bind H. destruct a as [irs' sc']. injection H as <-.
  apply executeCleanup_frame in Ha as (Hb & _ & Hu & _).
  exists sc'. cbn. split; [|done].
  rewrite insert_app_r_alt, Nat.sub_diag by done. done.
Qed.

Lemma popCleanups_gotos_result (gs : list GotoJump) (cs : list CleanupScope)
    (sc : CleanupScope) (st st1 : ScopeStack) :
  cleanupScopes st = cs ++ [sc] →
  popCleanups_gotos (length cs) gs st = Ok st1 →
  cleanupFrame st st1
  ∧ ∃ sc1, cleanupScopes st1 = cs ++ [sc1]
      ∧ unresolvedGotos sc1 = unresolvedGotos sc
      ∧ beginBlock sc1 = beginBlock sc.
Proof.
  revert st sc. induction gs as [|g gs IH]; intros st sc E H; cbn in H.
  - injection H as <-. split; [apply cleanupFrame_refl|]. by exists sc.
  - rewrite E, list_lookup_middle in H by done. inv_bind H.
    pose proof (executeCleanupAt_cleanupFrame _ _ _ _ _ Ha) as Hfr.
    apply (executeCleanupAt_snoc cs sc) in Ha as (sc' & E' & Hu & Hb); [|done].
    destruct (IH a sc' E' H) as (Hfr' & sc1 & E1 & Hu1 & Hb1).
    split.
    + eapply cleanupFrame_trans; [|exact Hfr'].
      eapply cleanupFrame_trans; [|exact Hfr].
      apply cleanupFrame_setIrs; [done|].
      unfold replaceAllUsesWith. cbn. by rewrite dom_fmap_L.
    + exists sc1. split; [done|]. split; congruence.
Qed.

Lemma popCleanups_gotos_Ok (i : nat) (gs : list GotoJump) (st : ScopeStack) :
  stackOk st → i < length (cleanupScopes st) →
  ∃ st1, popCleanups_gotos i gs st = Ok st1 ∧ stackOk st1.
Proof.
  revert st. induction gs as [|g gs IH]; intros st Hok Hi; [by exists st|].
  cbn [popCleanups_gotos].
  destruct (lookup_lt_is_Some_2 _ _ Hi) as [sc ->].
  set (st0 := setIrs _ st).
  assert (Hok0 : stackOk st0) by (by apply stackOk_replaceAllUsesWith).
  destruct (executeCleanupAt_Ok i (sourceBlock g) (tentativeTarget g) st0 Hok0 Hi)
    as (st1 & Hex & Hok1).
  rewrite Hex. cbn. apply IH; [done|].
  by rewrite (cleanupFrame_length _ _ (executeCleanupAt_cleanupFrame _ _ _ _ _ Hex)).
Qed.

Lemma mergeAndPop_outermost (sc1 : CleanupScope) (st : ScopeStack) :
  cleanupScopes st = [sc1] →
  runPopStep st (MergeAndPop 0)
  = Ok (setCleanupScopes []
          (setTopLevelUnresolvedGotos
             (topLevelUnresolvedGotos st ++ unresolvedGotos sc1) st)).
Proof.
  intros E. unfold runPopStep, mergeUnresolved, currentUnresolvedGotos.
  rewrite E. cbn. rewrite bool_decide_true by done. cbn. by rewrite E.
Qed.

Lemma mergeAndPop_inner (cs : list CleanupScope) (sa sc1 : CleanupScope) (st : ScopeStack) :
  cleanupScopes st = cs ++ [sa; sc1] →
  runPopStep st (MergeAndPop (S (length cs)))
  = Ok (setCleanupScopes
          (cs ++ [setUnresolvedGotos (unresolvedGotos sa ++ unresolvedGotos sc1) sa]) st).
Proof.
  intros E. unfold runPopStep, mergeUnresolved, currentUnresolvedGotos.
  rewrite E. change (cs ++ [sa; sc1]) with (cs ++ [sa] ++ [sc1]).
  rewrite (app_assoc cs), last_snoc, bool_decide_false by done.
  replace (S (length cs) - 1) with (length cs) by lia.
  rewrite (lookup_app_l (cs ++ [sa])) by (rewrite length_app; cbn; lia).
  rewrite list_lookup_middle by done. cbn.
  rewrite insert_app_l by (rewrite length_app; cbn; lia).
  rewrite insert_app_r_alt, Nat.sub_diag by done. cbn.
  by rewrite pop_back_snoc.
Qed.

Lemma scopeOk_setUnresolvedGotos (irs : IRState) (gs : list GotoJump) (sc : CleanupScope) :
  scopeOk irs sc → scopeOk irs (setUnresolvedGotos gs sc).
Proof. done. Qed.

Lemma stackOk_merged (cs : list CleanupScope) (sa sc1 : CleanupScope) (gs : list GotoJump)
    (st : ScopeStack) :
  cleanupScopes st = cs ++ [sa; sc1] → stackOk st →
  stackOk (setCleanupScopes (cs ++ [setUnresolvedGotos gs sa]) st).
Proof.
  intros E [Hall Hnd]. rewrite E in Hall, Hnd.
  change (cs ++ [sa; sc1]) with (cs ++ [sa] ++ [sc1]) in *.
  rewrite app_assoc in Hall, Hnd.
  apply Forall_app in Hall as [Hall _].
  rewrite fmap_app in Hnd. apply NoDup_app in Hnd as (Hnd & _ & _).
  split; cbn.
  - apply Forall_app in Hall as [Hcs Hsa]. apply Forall_app. split; [done|].
    inversion Hsa as [|? ? Hsa1 _]; subst. constructor; [|done].
    by apply scopeOk_setUnresolvedGotos.
  - by rewrite fmap_app in *.
Qed.

Lemma popCleanups_loop_unfold (n t : nat) (st : ScopeStack) :
  t < S n →
  popCleanups_loop (S n) t st
  = popCleanups_gotos n (currentUnresolvedGotos st) st
    ≫= λ st1, runPopStep st1 (MergeAndPop n) ≫= popCleanups_loop n t.
Proof.
  intros Ht. cbn [popCleanups_loop]. rewrite bool_decide_true by done.
  destruct (popCleanups_gotos n (currentUnresolvedGotos st) st) as [st1|f]; [|done].
  cbn. destruct (mergeUnresolved n st1) as [st2|f]; [|done].
  cbn. by destruct (pop_back (cleanupScopes st2)).
Qed.

Lemma flat_map_ext_elem {A B} (f g : A → list B) (l : list A) :
  (∀ x, x ∈ l → f x = g x) → flat_map f l = flat_map g l.
Proof.
  induction l as [|x l IH]; intros H; [done|].
  cbn. rewrite (H x) by (rewrite elem_of_cons; by left).
  rewrite IH; [done|]. intros y Hy. apply H. rewrite elem_of_cons. by right.
Qed.

Lemma popPlan_snoc (cs : list CleanupScope) (sc : CleanupScope) (t : nat) :
  t ≤ length cs →
  popPlan (cs ++ [sc]) t
  = flat_map (gotoSteps (length cs) (beginBlock sc)) (unresolvedGotos sc)
    ++ [MergeAndPop (length cs)]
    ++ flat_map (scopeSteps (cs ++ [sc])) (unwoundScopes (length cs) t).
Proof.
  intros Ht. unfold popPlan. rewrite length_app. cbn [length].
  rewrite Nat.add_1_r, unwoundScopes_S by done. cbn [flat_map].
  unfold scopeSteps at 1. rewrite list_lookup_middle by done.
  by rewrite pendingAt_last, <- app_assoc.
Qed.

Lemma scopeSteps_merge (cs : list CleanupScope) (sa sc sc1 : CleanupScope) (k : nat) :
  k ≤ length cs → unresolvedGotos sc1 = unresolvedGotos sc →
  scopeSteps (cs ++ [setUnresolvedGotos (unresolvedGotos sa ++ unresolvedGotos sc1) sa]) k
  = scopeSteps (cs ++ [sa; sc]) k.
Proof.
  intros Hk HU. unfold scopeSteps. rewrite (pendingAt_merge cs sa sc sc1) by done.
  destruct (decide (k = length cs)) as [->|Hne].
  - rewrite !list_lookup_middle by done. done.
  - by rewrite !lookup_app_l by lia.
Qed.

Lemma popCleanups_loop_plan (t n : nat) (st : ScopeStack) :
  length (cleanupScopes st) = n →
  popCleanups_loop n t st = runPopSteps (popPlan (cleanupScopes st) t) st.
Proof.
  revert st. induction n as [|n IH]; intros st Hlen.
  - destruct (cleanupScopes st); [done|discriminate].
  - destruct (snoc_cases (cleanupScopes st)) as [E|(cs & sc & E)].
    { rewrite E in Hlen. discriminate. }
    assert (Hn : length cs = n).
    { rewrite E, length_app in Hlen. cbn in Hlen. lia. }
    destruct (decide (t < S n)) as [Ht|Ht].
    2:{ cbn [popCleanups_loop]. rewrite bool_decide_false by done.
        unfold popPlan. by rewrite unwoundScopes_ge by lia. }
    rewrite popCleanups_loop_unfold by done.
    rewrite E, popPlan_snoc by lia. rewrite !runPopSteps_app.
    assert (Hcur : currentUnresolvedGotos st = unresolvedGotos sc).
    { unfold currentUnresolvedGotos. by rewrite E, last_snoc. }
    rewrite Hcur, Hn.
    rewrite (popCleanups_gotos_steps n (beginBlock sc)).
    2:{ rewrite E, <- Hn, list_lookup_middle by done. done. }
    destruct (runPopSteps (flat_map (gotoSteps n (beginBlock sc)) (unresolvedGotos sc)) st)
      as [st1|f] eqn:Hst1; [|done].
    cbn [mbind Result_bind runPopSteps app].
    destruct (runPopStep st1 (MergeAndPop n)) as [st3|f] eqn:Hst3; [|done].
    cbn [mbind Result_bind].
    rewrite <- (popCleanups_gotos_steps n (beginBlock sc)) in Hst1.
    2:{ rewrite E, <- Hn, list_lookup_middle by done. done. }
    rewrite <- Hn in Hst1.
    destruct (popCleanups_gotos_result _ cs sc st st1 E Hst1) as (Hfr & sc1 & E1 & Hu1 & Hb1).
    destruct (snoc_cases cs) as [->|(cs0 & sa & ->)].
    + cbn in Hn. subst n. rewrite (mergeAndPop_outermost sc1) in Hst3 by done.
      injection Hst3 as <-. by rewrite unwoundScopes_ge by lia.
    + rewrite length_app in Hn. cbn in Hn.
      replace n with (S (length cs0)) in * by lia.
      rewrite <- app_assoc in E1. cbn in E1.
      rewrite (mergeAndPop_inner cs0 sa sc1) in Hst3 by done.
      injection Hst3 as <-. rewrite IH.
      2:{ cbn. rewrite length_app. cbn. lia. }
      cbn [cleanupScopes setCleanupScopes]. unfold popPlan at 1.
      rewrite length_app. cbn [length]. rewrite Nat.add_1_r.
      f_equal. apply flat_map_ext_elem. intros k Hk.
      apply elem_of_unwoundScopes in Hk.
      rewrite <- (app_assoc cs0). cbn [app].
      apply scopeSteps_merge; [lia|done].
Qed.

Lemma popCleanups_loop_shape (t n : nat) (st st' : ScopeStack) :
  length (cleanupScopes st) = n →
  popCleanups_loop n t st = Ok st' →
  cleanupScopes st' = poppedScopes (cleanupScopes st) t
  ∧ topLevelUnresolvedGotos st'
    = poppedTopLevel (topLevelUnresolvedGotos st) (cleanupScopes st) t
  ∧ continueTargets st' = continueTargets st
  ∧ breakTargets st' = breakTargets st
  ∧ scopebb (irs st') = scopebb (irs st)
  ∧ dom (func (irs st')) = dom (func (irs st)).
Proof.
  revert st. induction n as [|n IH]; intros st Hlen H.
  - cbn in H. injection H as <-.
    by rewrite poppedScopes_ge, poppedTopLevel_ge by lia.
  - destruct (decide (t < S n)) as [Ht|Ht].
    2:{ cbn [popCleanups_loop] in H. rewrite bool_decide_false in H by done.
        injection H as <-. by rewrite poppedScopes_ge, poppedTopLevel_ge by lia. }
    destruct (snoc_cases (cleanupScopes st)) as [E|(cs & sc & E)].
    { rewrite E in Hlen. discriminate. }
    assert (Hn : length cs = n).
    { rewrite E, length_app in Hlen. cbn in Hlen. lia. }
    rewrite popCleanups_loop_unfold in H by done.
    inv_bind H. rename a into st1. inv_bind H. rename a into st3.
    assert (Hcur : currentUnresolvedGotos st = unresolvedGotos sc).
    { unfold currentUnresolvedGotos. by rewrite E, last_snoc. }
    rewrite Hcur, <- Hn in Ha.
    destruct (popCleanups_gotos_result _ cs sc st st1 E Ha)
      as (Hfr & sc1 & E1 & Hu1 & Hb1).
    destruct Hfr as (Hct & Hbt & _ & Htop & Hsb & Hdom & _).
    rewrite E.
    destruct (snoc_cases cs) as [->|(cs0 & sa & ->)].
    + cbn in Hn. subst n. rewrite (mergeAndPop_outermost sc1) in Ha0 by done.
      injection Ha0 as <-. cbn in H. injection H as <-. cbn.
      assert (t = 0) as -> by lia.
      unfold poppedScopes, poppedTopLevel, pendingAt. cbn.
      rewrite app_nil_r, Htop, Hu1. done.
    + rewrite length_app in Hn. cbn in Hn.
      rewrite <- app_assoc in E1. cbn in E1.
      replace n with (S (length cs0)) in * by lia.
      rewrite (mergeAndPop_inner cs0 sa sc1) in Ha0 by done.
      injection Ha0 as <-.
      apply IH in H as (-> & -> & -> & -> & -> & ->).
      2:{ cbn. rewrite length_app. cbn. lia. }
      cbn. rewrite <- (app_assoc cs0). cbn [app].
      rewrite (poppedScopes_merge cs0 sa sc sc1) by (done || lia).
      split; [done|]. split; [|done].
      unfold poppedTopLevel. destruct t; [|done].
      by rewrite (pendingAt_merge cs0 sa sc sc1), Htop by (done || lia).
Qed.

Lemma popCleanups_loop_Ok (t n : nat) (st : ScopeStack) :
  length (cleanupScopes st) = n → stackOk st →
  ∃ st', popCleanups_loop n t st = Ok st' ∧ stackOk st'.
Proof.
  revert st. induction n as [|n IH]; intros st Hlen Hok; [by exists st|].
  destruct (decide (t < S n)) as [Ht|Ht].
  2:{ cbn [popCleanups_loop]. rewrite bool_decide_false by done. by exists st. }
  destruct (snoc_cases (cleanupScopes st)) as [E|(cs & sc & E)].
  { rewrite E in Hlen. discriminate. }
  assert (Hn : length cs = n).
  { rewrite E, length_app in Hlen. cbn in Hlen. lia. }
  rewrite popCleanups_loop_unfold by done.
  destruct (popCleanups_gotos_Ok n (currentUnresolvedGotos st) st Hok) as (st1 & Hst1 & Hok1);
    [lia|].
  rewrite Hst1. cbn [mbind Result_bind].
  assert (Hcur : currentUnresolvedGotos st = unresolvedGotos sc).
  { unfold currentUnresolvedGotos. by rewrite E, last_snoc. }
  rewrite Hcur, <- Hn in Hst1.
  destruct (popCleanups_gotos_result _ cs sc st st1 E Hst1)
    as (Hfr & sc1 & E1 & Hu1 & Hb1).
  destruct (snoc_cases cs) as [->|(cs0 & sa & ->)].
  - cbn in Hn. subst n. rewrite (mergeAndPop_outermost sc1) by done.
    cbn. eexists. split; [done|]. split; cbn; [constructor|constructor].
  - rewrite length_app in Hn. cbn in Hn.
    rewrite <- app_assoc in E1. cbn in E1.
    replace n with (S (length cs0)) in * by lia.
    rewrite (mergeAndPop_inner cs0 sa sc1) by done.
    cbn [mbind Result_bind]. apply IH.
    + cbn. rewrite length_app. cbn. lia.
    + by apply (stackOk_merged cs0 sa sc1).
Qed.

(** ** One multiplexer edge per pending goto and popped scope *)

Lemma edgesAt_app (i : nat) (ps qs : list PopStep) :
  edgesAt i (ps ++ qs) = edgesAt i ps ++ edgesAt i qs.
Proof. apply omap_app. Qed.

Lemma edgesAt_gotoSteps (i j : nat) (entry : block) (gs : list GotoJump) :
  edgesAt i (flat_map (gotoSteps j entry) gs)
  = if decide (j = i) then gotoEdge <$> gs else [].
Proof.
  induction gs as [|g gs IH]; [by case_decide|].
  cbn [flat_map]. rewrite edgesAt_app, IH. unfold edgesAt. cbn.
  by case_decide.
Qed.

Lemma edgesAt_scopeSteps (i j : nat) (cs : list CleanupScope) :
  edgesAt i (scopeSteps cs j)
  = if decide (j = i ∧ j < length cs) then gotoEdge <$> pendingAt cs i else [].
Proof.
  unfold scopeSteps. destruct (cs !! j) as [sc|] eqn:Ej.
  - apply lookup_lt_Some in Ej as Hlt.
    rewrite edgesAt_app, edgesAt_gotoSteps. cbn. rewrite app_nil_r.
    destruct (decide (j = i)) as [->|Hne].
    + by rewrite decide_True.
    + rewrite decide_False; [done|]. by intros [? _].
  - apply lookup_ge_None in Ej. rewrite decide_False; [done|]. lia.
Qed.

Lemma edgesAt_flat_map (i : nat) (cs : list CleanupScope) (l : list nat) :
  NoDup l → Forall (λ j, j < length cs) l →
  edgesAt i (flat_map (scopeSteps cs) l)
  = if decide (i ∈ l) then gotoEdge <$> pendingAt cs i else [].
Proof.
  induction l as [|j l IH]; intros Hnd Hall.
  - by rewrite decide_False by apply not_elem_of_nil.
  - inversion Hnd as [|? ? Hj Hnd']; subst.
    inversion Hall as [|? ? Hlt Hall']; subst.
    cbn [flat_map]. rewrite edgesAt_app, edgesAt_scopeSteps, IH by done.
    destruct (decide (j = i)) as [->|Hne].
    + rewrite decide_True by done.
      rewrite (decide_False (P := i ∈ l)) by done.
      rewrite decide_True by (rewrite elem_of_cons; by left).
      by rewrite app_nil_r.
    + rewrite decide_False by (by intros [? _]). cbn.
      destruct (decide (i ∈ l)) as [Hi|Hi].
      * rewrite decide_True; [done|]. rewrite elem_of_cons. by right.
      * rewrite decide_False; [done|]. rewrite elem_of_cons. by intros [?|?].
Qed.

Lemma edgesAt_popPlan (i t : nat) (cs : list CleanupScope) :
  edgesAt i (popPlan cs t)
  = if decide (t ≤ i < length cs) then gotoEdge <$> pendingAt cs i else [].
Proof.
  unfold popPlan. rewrite edgesAt_flat_map.
  - destruct (decide (t ≤ i < length cs)) as [Hi|Hi].
    + rewrite decide_True; [done|]. by apply elem_of_unwoundScopes.
    + rewrite decide_False; [done|]. by rewrite elem_of_unwoundScopes.
  - unfold unwoundScopes. apply NoDup_ListNoDup, List.NoDup_rev, List.seq_NoDup.
  - apply Forall_forall. intros j Hj. apply elem_of_unwoundScopes in Hj. lia.
Qed.

Lemma pendingAt_split (cs : list CleanupScope) (i : nat) :
  pendingAt cs 0 = concat (unresolvedGotos <$> take i cs) ++ pendingAt cs i.
Proof.
  unfold pendingAt. rewrite drop_0, <- concat_app, <- fmap_app.
  by rewrite take_drop.
Qed.

Lemma elem_of_pendingAt (cs : list CleanupScope) (i k : nat) (sc : CleanupScope)
    (g : GotoJump) :
  cs !! k = Some sc → g ∈ unresolvedGotos sc → i ≤ k → g ∈ pendingAt cs i.
Proof.
  intros Hk Hg Hik. unfold pendingAt. rewrite list_elem_of_In, in_concat.
  exists (unresolvedGotos sc). split; [|by rewrite <- list_elem_of_In].
  rewrite <- list_elem_of_In. apply list_elem_of_fmap. exists sc. split; [done|].
  apply list_elem_of_lookup. exists (k - i). rewrite lookup_drop.
  by replace (i + (k - i)) with k by lia.
Qed.

Lemma elem_of_outer (cs : list CleanupScope) (i k : nat) (sc : CleanupScope)
    (g : GotoJump) :
  cs !! k = Some sc → g ∈ unresolvedGotos sc → k < i →
  g ∈ concat (unresolvedGotos <$> take i cs).
Proof.
  intros Hk Hg Hki. rewrite list_elem_of_In, in_concat.
  exists (unresolvedGotos sc). split; [|by rewrite <- list_elem_of_In].
  rewrite <- list_elem_of_In. apply list_elem_of_fmap. exists sc. split; [done|].
  apply list_elem_of_lookup. exists k. by rewrite lookup_take_lt.
Qed.

Lemma count_edges_absent (x : block) (gs : list GotoJump) :
  x ∉ tentativeTarget <$> gs →
  length (filter (λ e, e.2 = x) (gotoEdge <$> gs)) = 0.
Proof.
  induction gs as [|g gs IH]; intros Hx; [done|].
  rewrite fmap_cons in Hx. apply not_elem_of_cons in Hx as [Hne Hx].
  rewrite fmap_cons, filter_cons_False by (cbn; congruence).
  by apply IH.
Qed.

Lemma count_edges_once (g : GotoJump) (gs : list GotoJump) :
  NoDup (tentativeTarget <$> gs) → g ∈ gs →
  length (filter (λ e, e.2 = tentativeTarget g) (gotoEdge <$> gs)) = 1.
Proof.
  induction gs as [|g0 gs IH]; intros Hnd Hg.
  - by apply elem_of_nil in Hg.
  - rewrite fmap_cons in Hnd. inversion Hnd as [|? ? Hg0 Hnd']; subst.
    rewrite fmap_cons. apply elem_of_cons in Hg as [->|Hg].
    + rewrite filter_cons_True by done. cbn. by rewrite count_edges_absent.
    + rewrite filter_cons_False; [by apply IH|].
      cbn. intros E. apply Hg0. rewrite E.
      apply list_elem_of_fmap. by exists g.
Qed.

(** C4: [popCleanups] performs exactly the plan of the specification: for
    each scope from the innermost down to [targetScope], for every goto
    pending on it the uses of the placeholder are redirected to the entry
    block of the scope and the multiplexer is called from the source block
    of the goto to the same placeholder; then the list is appended to the
    list of the next enclosing scope (or to the top-level list) and the
    scope is removed. The multiplexer calls on a popped scope are one per
    goto pending on it, in list order, and there are none on any other
    scope. Afterwards the stack holds the scopes below [targetScope],
    unchanged but for the pending gotos appended to the innermost of them
    (or to the top-level list). On a well-formed stack the call succeeds.
    When the placeholders are pairwise distinct, a goto registered on scope
    [k] receives exactly one edge on each popped scope from [targetScope]
    to [k] and none elsewhere. *)
Theorem popCleanups_threads_pending_gotos (st : ScopeStack) (targetScope : nat) :
  let cs := cleanupScopes st in
  let plan := popPlan cs targetScope in
  popCleanups st targetScope = runPopSteps plan st
  ∧ (∀ i, edgesAt i plan
          = if decide (targetScope ≤ i < length cs)
            then gotoEdge <$> pendingAt cs i else [])
  ∧ (∀ st', popCleanups st targetScope = Ok st' →
       cleanupScopes st' = poppedScopes cs targetScope
       ∧ topLevelUnresolvedGotos st'
         = poppedTopLevel (topLevelUnresolvedGotos st) cs targetScope
       ∧ continueTargets st' = continueTargets st
       ∧ breakTargets st' = breakTargets st
       ∧ labelTargets st' = labelTargets st
       ∧ scopebb (irs st') = scopebb (irs st)
       ∧ dom (func (irs st')) = dom (func (irs st)))
  ∧ (stackOk st → ∃ st', popCleanups st targetScope = Ok st' ∧ stackOk st')
  ∧ (NoDup (tentativeTarget <$> pendingAt cs 0) →
     ∀ k sc g, cs !! k = Some sc → g ∈ unresolvedGotos sc →
     ∀ i, length (filter (λ e, e.2 = tentativeTarget g) (edgesAt i plan))
          = if decide (targetScope ≤ i ≤ k) then 1 else 0).
Proof.
  intros cs plan. subst cs plan.
  assert (Hloop : popCleanups st targetScope
                  = popCleanups_loop (length (cleanupScopes st)) targetScope st).
  { unfold popCleanups, currentCleanupScope. case_bool_decide as Ht; [|done].
    subst targetScope. destruct (length (cleanupScopes st)) as [|n]; [done|].
    cbn [popCleanups_loop]. rewrite bool_decide_false; [done|lia]. }
  split; [|split; [|split; [|split]]].
  - rewrite Hloop. by apply popCleanups_loop_plan.
  - intros i. apply edgesAt_popPlan.
  - intros st' H. rewrite Hloop in H.
    pose proof (popCleanups_loop_labelTargets _ _ _ _ H) as Hl.
    apply popCleanups_loop_shape in H as (? & ? & ? & ? & ? & ?); [|done].
    by repeat split.
  - intros Hok. rewrite Hloop. by apply popCleanups_loop_Ok.
  - intros Hnd k sc g Hk Hg i.
    pose proof (lookup_lt_Some _ _ _ Hk) as Hlt.
    rewrite edgesAt_popPlan.
    destruct (decide (targetScope ≤ i < length (cleanupScopes st))) as [Hi|Hi].
    2:{ rewrite decide_False by lia. done. }
    rewrite (pendingAt_split _ i), fmap_app in Hnd.
    apply NoDup_app in Hnd as (_ & Hdisj & Hnd).
    destruct (decide (i ≤ k)) as [Hik|Hik].
    + rewrite decide_True by lia. apply count_edges_once; [done|].
      by eapply elem_of_pendingAt.
    + rewrite decide_False by lia. apply count_edges_absent.
      apply Hdisj. apply list_elem_of_fmap. exists g. split; [done|].
      eapply elem_of_outer; [done..|lia].
Qed.

(** ** The exact effect of one multiplexer call *)

Lemma insertBeforeTerminator_snoc (i t : instr) (l : list instr) :
  isTerminator t = true → insertBeforeTerminator i (l ++ [t]) = l ++ [i; t].
Proof.
  intros Ht. unfold insertBeforeTerminator.
  by rewrite getTerminator_snoc, Ht, removelast_snoc.
Qed.

Lemma insertBeforeTerminator_None (i : instr) (l : list instr) :
  getTerminator l = None → insertBeforeTerminator i l = l.
Proof. unfold insertBeforeTerminator. by intros ->. Qed.

Lemma instsOf_storeBeforeTerminator (c : nat) (sel : value) (b b' : block) (irs : IRState) :
  instsOf (storeBeforeTerminator c sel b irs) b'
  = if decide (b = b') then insertBeforeTerminator (Store c sel) (instsOf irs b')
    else instsOf irs b'.
Proof.
  unfold storeBeforeTerminator. rewrite instsOf_editBlock.
  destruct (decide (b = b')) as [<-|Hne].
  - destruct (decide (b ∈ dom (func irs))) as [Hin|Hin].
    + by rewrite decide_True.
    + rewrite decide_False by (by intros [_ ?]).
      unfold instsOf, insts. apply not_elem_of_dom in Hin. by rewrite Hin.
  - rewrite decide_False; [done|]. by intros [? _].
Qed.

Lemma instsOf_storeZeroes (sel : value) (v : list block) (irs : IRState) (b : block) :
  instsOf (storeZeroes sel v irs) b
  = match termOf irs b with
    | Some t =>
        removelast (instsOf irs b) ++ replicate (occurrences b v) (Store 0 sel) ++ [t]
    | None => instsOf irs b
    end.
Proof.
  revert irs. induction v as [|x v IH]; intros irs.
  - cbn. destruct (termOf irs b) as [t|] eqn:Et; [|done].
    by apply getTerminator_Some in Et as [Hl _].
  - cbn [storeZeroes]. rewrite IH, termOf_storeBeforeTerminator.
    rewrite instsOf_storeBeforeTerminator. unfold occurrences.
    destruct (termOf irs b) as [t|] eqn:Et.
    + apply getTerminator_Some in Et as [Hl Ht].
      destruct (decide (x = b)) as [->|Hne].
      * rewrite filter_cons_True by done. cbn [length replicate].
        rewrite Hl at 1. rewrite insertBeforeTerminator_snoc by done.
        replace (removelast (instsOf irs b) ++ [Store 0 sel; t])
          with ((removelast (instsOf irs b) ++ [Store 0 sel]) ++ [t])
          by (by rewrite <- app_assoc).
        rewrite removelast_snoc, <- app_assoc. done.
      * by rewrite filter_cons_False by done.
    + destruct (decide (x = b)) as [->|Hne]; [|done].
      by apply insertBeforeTerminator_None.
Qed.

Lemma executeCleanup_first (irs : IRState) (sc : CleanupScope) (s c : block) :
  exitTargets sc = [] → branchSelector sc = None →
  executeCleanup irs sc s c
  = Ok (appendInst (endBlock sc) (Br c) irs,
        setExitTargets [mkExitTarget c [s]] sc).
Proof. unfold executeCleanup. by intros -> ->. Qed.

Lemma executeCleanup_sole (irs : IRState) (sc : CleanupScope) (t0 : CleanupExitTarget)
    (s : block) :
  exitTargets sc = [t0] → branchSelector sc = None →
  executeCleanup irs sc s (branchTarget t0)
  = Ok (irs, setExitTargets [addSource s t0] sc).
Proof.
  unfold executeCleanup. intros -> ->. by rewrite bool_decide_true.
Qed.

Lemma setBranchSelector_id (sc : CleanupScope) (sel : value) :
  branchSelector sc = Some sel → setBranchSelector (Some sel) sc = sc.
Proof. destruct sc. cbn. by intros ->. Qed.

Lemma executeCleanup_selected (irs : IRState) (sc : CleanupScope) (sel : value)
    (s c : block) :
  branchSelector sc = Some sel → 2 ≤ length (exitTargets sc) →
  executeCleanup irs sc s c = selectExit sel irs sc s c.
Proof.
  unfold executeCleanup. intros Hsel Hlen.
  destruct (exitTargets sc) as [|t0 [|t1 ts]] eqn:Et; [cbn in Hlen; lia..|].
  rewrite bool_decide_false by (by intros [? _]).
  rewrite Hsel. cbn. by rewrite setBranchSelector_id.
Qed.

Lemma executeCleanup_second (irs : IRState) (sc : CleanupScope) (t0 : CleanupExitTarget)
    (s c : block) :
  exitTargets sc = [t0] → branchSelector sc = None → branchTarget t0 ≠ c →
  executeCleanup irs sc s c
  = createBranchSelector irs sc t0
    ≫= λ '(sel, irs1), selectExit sel irs1 (setBranchSelector (Some sel) sc) s c.
Proof.
  unfold executeCleanup. intros -> -> Hne.
  by rewrite bool_decide_false by (by intros [_ ?]).
Qed.

Lemma instsOf_ext (irs irs' : IRState) (b : block) :
  func irs' = func irs → instsOf irs' b = instsOf irs b.
Proof. unfold instsOf, insts. by intros ->. Qed.

Lemma createBranchSelector_exact (irs : IRState) (sc : CleanupScope)
    (t0 : CleanupExitTarget) :
  endBlock sc ∈ dom (func irs) → is_Some (termOf irs (endBlock sc)) →
  let sel := nextValue irs in
  let r := Pos.succ sel in
  let backfilled b :=
    match termOf irs b with
    | Some t =>
        removelast (instsOf irs b)
        ++ replicate (occurrences b (sourceBlocks t0)) (Store 0 sel) ++ [t]
    | None => instsOf irs b
    end in
  ∃ irs1, createBranchSelector irs sc t0 = Ok (sel, irs1)
    ∧ allocas irs1
      = allocas irs ++ [Alloca sel Int32Ty ("branchsel." +:+ blockName irs (beginBlock sc))]
    ∧ nextValue irs1 = Pos.succ r
    ∧ scopebb irs1 = scopebb irs
    ∧ dom (func irs1) = dom (func irs)
    ∧ ∀ b, instsOf irs1 b
           = if decide (b = endBlock sc)
             then removelast (backfilled b) ++ [Load r sel; Switch r (branchTarget t0) []]
             else backfilled b.
Proof.
  intros Hin Hterm sel r backfilled.
  unfold createBranchSelector, createSelector. cbn zeta.
  set (irsA := mkIRState (func irs) _ (scopebb irs) (Pos.succ (nextValue irs))).
  destruct (storeZeroes_frame sel (sourceBlocks t0) irsA) as (Hs & Hd & Ha & Hn).
  unfold convertToSwitch.
  fold (termOf (storeZeroes (nextValue irs) (sourceBlocks t0) irsA) (endBlock sc)).
  rewrite termOf_storeZeroes, (termOf_ext irs irsA) by done.
  destruct Hterm as [te Hte]. rewrite Hte. cbn.
  eexists. split; [done|]. cbn.
  fold sel. rewrite Ha, Hn, Hs, dom_alter_L, Hd. repeat split; try done.
  intros b.
  match goal with
  | |- instsOf ?i b = _ =>
      rewrite (instsOf_ext (editBlock (endBlock sc)
        (λ l, removelast l ++ [Load r sel; Switch r (branchTarget t0) []])
        (storeZeroes sel (sourceBlocks t0) irsA)) i) by done
  end.
  rewrite instsOf_editBlock, instsOf_storeZeroes.
  rewrite (termOf_ext irs irsA), (instsOf_ext irs irsA) by done.
  destruct (decide (b = endBlock sc)) as [->|Hne].
  - rewrite decide_True; [done|]. split; [done|]. by rewrite Hd.
  - rewrite decide_False; [done|]. by intros [? _].
Qed.

Lemma editBlock_const (b : block) (g : list instr → list instr) (irs : IRState) :
  editBlock b (λ _, g (instsOf irs b)) irs = editBlock b g irs.
Proof.
  unfold editBlock. f_equal. apply map_eq. intros b'. rewrite !lookup_alter.
  case_decide; [|done]. subst b'. unfold instsOf, insts.
  by destruct (func irs !! b).
Qed.

Lemma selectExit_new (sel : value) (irs : IRState) (sc : CleanupScope) (s c : block)
    (r : value) (d0 : block) (cs : list (nat * block)) :
  findExitTarget 0 (exitTargets sc) c = None →
  termOf irs (endBlock sc) = Some (Switch r d0 cs) →
  let n := length (exitTargets sc) in
  selectExit sel irs sc s c
  = Ok (storeBeforeTerminator n sel s
          (editBlock (endBlock sc)
             (λ l, removelast l ++ [Switch r d0 (cs ++ [(n, c)])]) irs),
        setExitTargets (exitTargets sc ++ [mkExitTarget c [s]]) sc).
Proof.
  intros Hf Ht n. unfold selectExit. rewrite Hf. unfold addCase.
  unfold termOf in Ht. rewrite Ht.
  by rewrite <- (editBlock_const _ (λ l, removelast l ++ [Switch r d0 (cs ++ [(n, c)])])).
Qed.

Lemma selectExit_known (sel : value) (irs : IRState) (sc : CleanupScope) (s c : block)
    (i : nat) :
  findExitTarget 0 (exitTargets sc) c = Some i →
  selectExit sel irs sc s c
  = Ok (storeBeforeTerminator i sel s irs,
        setExitTargets (alter (addSource s) i (exitTargets sc)) sc).
Proof. intros Hf. unfold selectExit. by rewrite Hf. Qed.

Lemma runRequests_sole (irs : IRState) (sc : CleanupScope) (t0 : CleanupExitTarget)
    (srcs : list block) :
  exitTargets sc = [t0] → branchSelector sc = None →
  runRequests irs sc ((λ s, (s, branchTarget t0)) <$> srcs)
  = Ok (irs, setExitTargets
               [mkExitTarget (branchTarget t0) (sourceBlocks t0 ++ srcs)] sc).
Proof.
  revert sc t0. induction srcs as [|s srcs IH]; intros sc t0 Et Es.
  - cbn. rewrite app_nil_r. do 2 f_equal. destruct sc, t0. cbn in *. by subst.
  - cbn [fmap list_fmap runRequests].
    rewrite (executeCleanup_sole irs sc t0 s) by done. cbn.
    rewrite (IH _ (addSource s t0)) by done. cbn.
    by rewrite <- app_assoc.
Qed.

Lemma blockName_editBlock (b b' : block) (g : list instr → list instr) (irs : IRState) :
  blockName (editBlock b g irs) b' = blockName irs b'.
Proof.
  unfold blockName, editBlock. cbn. rewrite lookup_alter.
  case_decide; [|done]. subst. by destruct (func irs !! b').
Qed.

Lemma occurrences_notin (b : block) (v : list block) : b ∉ v → occurrences b v = 0.
Proof.
  unfold occurrences. induction v as [|x v IH]; intros Hb; [done|].
  apply not_elem_of_cons in Hb as [Hne Hb].
  rewrite filter_cons_False by done. by apply IH.
Qed.

(** C1: on a scope that has served no request yet, any number of requests
    for one and the same destination leave the scope without selector: the
    first call appends the unconditional branch to the destination at the
    end of the exit block and creates the single exit target, every call
    appends its source block to that target, and nothing else changes in
    the function. The first request for a second destination allocates
    exactly one selector slot, an [i32] alloca at the function entry;
    every block recorded as a source receives one store of 0 per recorded
    occurrence immediately before its terminator (followed, in the block of
    the new request, by the store of 1); the branch that ended the exit
    block is replaced by a load of the selector and a switch on the loaded
    value whose default is the original destination and whose only case, 1,
    is the new destination. *)
Theorem executeCleanup_one_destination_then_selector
    (irs : IRState) (sc : CleanupScope) (d d' s0 s' : block) (srcs : list block) :
  exitTargets sc = [] → branchSelector sc = None →
  endBlock sc ∈ dom (func irs) → d' ≠ d →
  let sources := s0 :: srcs in
  let irs1 := appendInst (endBlock sc) (Br d) irs in
  let sc1 := setExitTargets [mkExitTarget d sources] sc in
  let sel := nextValue irs in
  let r := Pos.succ sel in
  runRequests irs sc ((λ s, (s, d)) <$> sources) = Ok (irs1, sc1)
  ∧ branchSelector sc1 = None
  ∧ instsOf irs1 (endBlock sc) = instsOf irs (endBlock sc) ++ [Br d]
  ∧ (∀ b, b ≠ endBlock sc → instsOf irs1 b = instsOf irs b)
  ∧ allocas irs1 = allocas irs
  ∧ ∃ irs2,
      executeCleanup irs1 sc1 s' d'
      = Ok (irs2,
            setExitTargets [mkExitTarget d sources; mkExitTarget d' [s']]
              (setBranchSelector (Some sel) sc))
      ∧ allocas irs2
        = allocas irs
          ++ [Alloca sel Int32Ty ("branchsel." +:+ blockName irs (beginBlock sc))]
      ∧ (∀ b, b ≠ endBlock sc →
           instsOf irs2 b
           = match termOf irs b with
             | Some t =>
                 removelast (instsOf irs b)
                 ++ replicate (occurrences b sources) (Store 0 sel)
                 ++ (if decide (b = s') then [Store 1 sel] else [])
                 ++ [t]
             | None => instsOf irs b
             end)
      ∧ termOf irs2 (endBlock sc) = Some (Switch r d [(1, d')])
      ∧ (endBlock sc ∉ s' :: sources →
           instsOf irs2 (endBlock sc)
           = instsOf irs (endBlock sc) ++ [Load r sel; Switch r d [(1, d')]]).
Proof.
  intros Et Es Hin Hne sources irs1 sc1 sel r.
  assert (Hend1 : instsOf irs1 (endBlock sc) = instsOf irs (endBlock sc) ++ [Br d]).
  { unfold irs1, appendInst. by rewrite instsOf_editBlock, decide_True. }
  assert (Hother1 : ∀ b, b ≠ endBlock sc → instsOf irs1 b = instsOf irs b).
  { intros b Hb. unfold irs1, appendInst.
    rewrite instsOf_editBlock, decide_False; [done|]. by intros [? _]. }
  split.
  { unfold sources. cbn [fmap list_fmap runRequests].
    rewrite executeCleanup_first by done. cbn [mbind Result_bind].
    rewrite (runRequests_sole _ _ (mkExitTarget d [s0])) by done. done. }
  split; [done|]. split; [exact Hend1|]. split; [exact Hother1|]. split; [done|].
  assert (Hterm1 : termOf irs1 (endBlock sc) = Some (Br d)).
  { unfold termOf. by rewrite Hend1, getTerminator_snoc. }
  assert (Hin1 : endBlock sc1 ∈ dom (func irs1)).
  { unfold irs1, appendInst. by rewrite dom_editBlock. }
  destruct (createBranchSelector_exact irs1 sc1 (mkExitTarget d sources) Hin1)
    as (irsB & Hcr & Hal & Hnv & Hsb & Hdom & Hinsts).
  { cbn. by rewrite Hterm1. }
  unfold sc1 in Hinsts.
  cbn [endBlock setExitTargets branchTarget sourceBlocks] in Hinsts.
  change (nextValue irs1) with (nextValue irs) in *.
  assert (HtermB : termOf irsB (endBlock sc) = Some (Switch r d [])).
  { unfold termOf. rewrite Hinsts, decide_True by done.
    change [Load (Pos.succ (nextValue irs)) (nextValue irs);
            Switch (Pos.succ (nextValue irs)) d []]
      with ([Load r sel] ++ [Switch r d []]).
    by rewrite app_assoc, getTerminator_snoc. }
  rewrite (executeCleanup_second irs1 sc1 (mkExitTarget d sources)) by done.
  rewrite Hcr. cbn [mbind Result_bind].
  assert (Hfind : findExitTarget 0
            (exitTargets (setBranchSelector (Some (nextValue irs1)) sc1)) d' = None).
  { cbn. by rewrite decide_False. }
  rewrite (selectExit_new _ irsB _ s' d' r d [] Hfind HtermB).
  eexists. split; [reflexivity|].
  cbn [length exitTargets setBranchSelector setExitTargets endBlock].
  split.
  { unfold storeBeforeTerminator, editBlock, setFunc.
    cbn [allocas]. rewrite Hal. unfold irs1, appendInst.
    by rewrite blockName_editBlock. }
  split; [|split].
  - intros b Hb. rewrite instsOf_storeBeforeTerminator.
    rewrite instsOf_editBlock, (decide_False (P := _ ∧ _)) by (by intros [? _]).
    rewrite Hinsts, (decide_False (P := b = _)) by done.
    replace (termOf irs1 b) with (termOf irs b)
      by (unfold termOf; by rewrite Hother1).
    rewrite Hother1 by done.
    destruct (termOf irs b) as [t|] eqn:Etb.
    + apply getTerminator_Some in Etb as [_ Ht].
      destruct (decide (s' = b)) as [->|Hsb'].
      * rewrite decide_True by done.
        rewrite app_assoc, insertBeforeTerminator_snoc by done.
        by rewrite <- app_assoc.
      * by rewrite decide_False by done.
    + destruct (decide (s' = b)) as [->|Hsb']; [|done].
      by apply insertBeforeTerminator_None.
  - rewrite termOf_storeBeforeTerminator. unfold termOf.
    rewrite instsOf_editBlock, decide_True by (by rewrite Hdom).
    by rewrite getTerminator_snoc.
  - intros Hnot. apply not_elem_of_cons in Hnot as [Hs' Hsrc].
    rewrite instsOf_storeBeforeTerminator, decide_False by done.
    rewrite instsOf_editBlock, decide_True by (by rewrite Hdom).
    rewrite Hinsts, decide_True by done.
    rewrite Hterm1, Hend1, removelast_snoc.
    rewrite occurrences_notin by done. cbn [replicate app].
    rewrite removelast_snoc.
    change [Load (Pos.succ (nextValue irs)) (nextValue irs);
            Switch (Pos.succ (nextValue irs)) d []]
      with ([Load r sel] ++ [Switch r d []]).
    rewrite app_assoc, removelast_snoc, <- app_assoc. done.
Qed.

(** ** Selector indices *)

Lemma findExitTarget_None (i0 : nat) (ts : list CleanupExitTarget) (c : block) :
  findExitTarget i0 ts c = None ↔ c ∉ branchTarget <$> ts.
Proof.
  revert i0. induction ts as [|t ts IH]; intros i0; cbn.
  - split; [intros _; apply not_elem_of_nil|done].
  - rewrite not_elem_of_cons. case_decide as Ht.
    + split; [done|]. intros [? _]. congruence.
    + rewrite IH. split; [intros; split; [congruence|done]|by intros [_ ?]].
Qed.

Lemma branchTargets_addSource (s : block) (i : nat) (ts : list CleanupExitTarget) :
  branchTarget <$> alter (addSource s) i ts = branchTarget <$> ts.
Proof.
  apply list_eq. intros j. rewrite !list_lookup_fmap, list_lookup_alter.
  case_decide; [|done]. subst. by destruct (ts !! j).
Qed.

(** C2 as stated fails on a scope with a single destination and no
    selector: destination 6 is known at index 0 and the source block has a
    terminator, yet the call stores nothing: it leaves the function as it
    is and only records the source block. *)
Lemma known_sole_destination_gets_no_store :
  findExitTarget 0 (exitTargets sole_scope) 6%positive = Some 0
  ∧ termOf sole_irs 4%positive = Some (Br 2%positive)
  ∧ executeCleanup sole_irs sole_scope 4%positive 6%positive
    = Ok (sole_irs,
          setExitTargets [mkExitTarget 6%positive [5%positive; 4%positive]] sole_scope)
  ∧ ¬ ∃ sel sc',
        executeCleanup sole_irs sole_scope 4%positive 6%positive
        = Ok (storeBeforeTerminator 0 sel 4%positive sole_irs, sc').
Proof.
  split; [reflexivity|]. split; [reflexivity|]. split; [reflexivity|].
  intros (sel & sc' & H).
  assert (E : executeCleanup sole_irs sole_scope 4%positive 6%positive
              = Ok (sole_irs,
                    setExitTargets [mkExitTarget 6%positive [5%positive; 4%positive]]
                      sole_scope)) by reflexivity.
  rewrite E in H.
  apply (f_equal (λ r, match r with
                       | Ok (i, _) => instsOf i 4%positive
                       | Fail _ => []
                       end)) in H.
  vm_compute in H. discriminate H.
Qed.

Lemma indexed_scopeOk (irs : IRState) (sc : CleanupScope) :
  indexed irs sc → scopeOk irs sc.
Proof.
  intros [Hin H]. split; [done|]. destruct (branchSelector sc).
  - destruct H as (r & d0 & d1 & ds & Ht & Hterm). split.
    + apply (f_equal length) in Ht. rewrite length_fmap in Ht. cbn in Ht. lia.
    + by eexists.
  - destruct H as [?|(t0 & -> & Hterm)]; [by left|right].
    split; [done|]. by eexists.
Qed.

Lemma executeCleanup_index_step (irs : IRState) (sc : CleanupScope) (s c : block) :
  scopeOk irs sc →
  ∃ irs' sc', executeCleanup irs sc s c = Ok (irs', sc')
    ∧ indexStep irs sc s c irs' sc'.
Proof.
  intros [Hin Hok]. unfold indexStep.
  destruct (branchSelector sc) as [sel|] eqn:Es.
  - destruct Hok as [Hlen (t & Ht & Hsw)].
    rewrite (executeCleanup_selected _ _ sel) by done.
    destruct t as [|r d0 cs| | | |]; try done.
    destruct (findExitTarget 0 (exitTargets sc) c) as [i|] eqn:Ef.
    + rewrite (selectExit_known _ _ _ _ _ i) by done.
      eexists _, _. split; [done|]. done.
    + rewrite (selectExit_new _ _ _ _ _ r d0 cs) by done.
      eexists _, _. split; [done|]. cbn. split; [done|].
      destruct (exitTargets sc) as [|t0 ts]; [cbn in Hlen; lia|].
      by exists sel, irs, r, d0, cs.
  - destruct Hok as [Et|[Hlen Hterm]].
    + rewrite Et. cbn [findExitTarget]. rewrite executeCleanup_first by done.
      eexists _, _. split; [done|]. done.
    + destruct (exitTargets sc) as [|t0 [|t1 ts]] eqn:Et; [done| |cbn in Hlen; lia].
      cbn [findExitTarget]. case_decide as Hc.
      * subst c. rewrite (executeCleanup_sole _ _ t0) by done.
        eexists _, _. split; [done|]. done.
      * rewrite (executeCleanup_second _ _ t0) by done.
        destruct (createBranchSelector_Ok irs sc t0 Hterm) as [irsS Hcr].
        pose proof (termOf_createBranchSelector _ _ _ _ _ (endBlock sc) Hin Hcr) as HtS.
        rewrite decide_True in HtS by done.
        rewrite Hcr. cbn [mbind Result_bind].
        rewrite (selectExit_new _ irsS _ s c _ _ [] ) by (cbn; rewrite ?Et; cbn;
          by rewrite ?decide_False).
        eexists _, _. split; [done|]. cbn. rewrite ?Et. split; [done|].
        by exists (nextValue irs), irsS, (Pos.succ (nextValue irs)), (branchTarget t0), [].
Qed.

Lemma switchCases_snoc (ds : list block) (c : block) :
  switchCases (ds ++ [c]) = switchCases ds ++ [(S (length ds), c)].
Proof. unfold switchCases. rewrite imap_app. cbn. by rewrite Nat.add_0_r. Qed.

Lemma termOf_store_edit (n : nat) (sel : value) (s b : block)
    (g : list instr → list instr) (irs : IRState) :
  b ∈ dom (func irs) →
  termOf (storeBeforeTerminator n sel s (editBlock b g irs)) b
  = getTerminator (g (instsOf irs b)).
Proof.
  intros Hb. rewrite termOf_storeBeforeTerminator. unfold termOf.
  by rewrite instsOf_editBlock, decide_True.
Qed.

Lemma indexStep_indexed (irs irs' : IRState) (sc sc' : CleanupScope) (s c : block) :
  indexed irs sc →
  executeCleanup irs sc s c = Ok (irs', sc') →
  indexStep irs sc s c irs' sc' →
  indexed irs' sc'
  ∧ branchTarget <$> exitTargets sc'
    = (if decide (c ∈ branchTarget <$> exitTargets sc)
       then branchTarget <$> exitTargets sc
       else (branchTarget <$> exitTargets sc) ++ [c]).
Proof.
  intros [Hin Hidx] Hex Hstep.
  pose proof (executeCleanup_frame _ _ _ _ _ _ Hex) as (_ & He & _ & _ & Hd).
  unfold indexStep in Hstep. unfold indexed. rewrite He, Hd.
  destruct (findExitTarget 0 (exitTargets sc) c) as [i|] eqn:Ef.
  - destruct Hstep as [Hts Hsel].
    assert (Hc : c ∈ branchTarget <$> exitTargets sc).
    { destruct (decide (c ∈ branchTarget <$> exitTargets sc)) as [?|Hn]; [done|].
      apply findExitTarget_None with (i0 := 0) in Hn. congruence. }
    rewrite decide_True by done. rewrite Hts, branchTargets_addSource.
    split; [|done]. split; [done|].
    destruct (branchSelector sc) as [sel|].
    + destruct Hsel as [-> ->]. by rewrite termOf_storeBeforeTerminator.
    + destruct Hsel as (-> & -> & ->).
      destruct Hidx as [Et|(t0 & Et & Hterm)]; [by rewrite Et in Ef|].
      right. exists (addSource s t0). by rewrite Et.
  - destruct Hstep as [Hts Hrest].
    assert (Hc : c ∉ branchTarget <$> exitTargets sc) by (by apply findExitTarget_None in Ef).
    rewrite decide_False by done. rewrite Hts, fmap_app. cbn [fmap list_fmap branchTarget].
    split; [|done]. split; [done|].
    destruct (exitTargets sc) as [|t0 ts] eqn:Et.
    + destruct Hrest as [-> ->]. right. eexists. split; [done|]. cbn.
      by rewrite termOf_appendInst, decide_True.
    + destruct Hrest as (sel & irsS & r & d0 & cs & -> & HS & HtS & ->).
      destruct (branchSelector sc) as [sel0|] eqn:Es.
      * destruct HS as [-> ->].
        destruct Hidx as (r' & d0' & d1 & ds & Htg & Hterm).
        rewrite Hterm in HtS. injection HtS as -> -> <-.
        exists r, d0, d1, (ds ++ [c]). rewrite Htg. split; [done|].
        rewrite termOf_store_edit by done.
        rewrite getTerminator_snoc. cbn [isTerminator].
        rewrite app_comm_cons, switchCases_snoc.
        apply (f_equal length) in Htg. rewrite length_fmap in Htg.
        by rewrite Htg.
      * destruct Hidx as [?|(t0' & Et' & Hterm)]; [done|].
        injection Et' as -> ->.
        pose proof (termOf_createBranchSelector _ _ _ _ _ (endBlock sc) Hin HS) as HtS'.
        rewrite decide_True in HtS' by done.
        rewrite HtS' in HtS. injection HtS as <- <- <-.
        apply createBranchSelector_frame in HS as (_ & _ & HdS).
        exists (Pos.succ (nextValue irs)), (branchTarget t0'), c, [].
        split; [done|].
        rewrite termOf_store_edit by (by rewrite HdS).
        by rewrite getTerminator_snoc.
Qed.

Lemma runRequests_indexed (reqs : list (block * block)) (irs : IRState)
    (sc : CleanupScope) :
  indexed irs sc →
  ∃ irs' sc', runRequests irs sc reqs = Ok (irs', sc')
    ∧ indexed irs' sc'
    ∧ branchTarget <$> exitTargets sc'
      = foldl (λ acc x, if decide (x ∈ acc) then acc else acc ++ [x])
          (branchTarget <$> exitTargets sc) (snd <$> reqs).
Proof.
  revert irs sc. induction reqs as [|[s c] reqs IH]; intros irs sc Hidx.
  - by exists irs, sc.
  - cbn [runRequests fmap list_fmap foldl snd].
    destruct (executeCleanup_index_step irs sc s c (indexed_scopeOk _ _ Hidx))
      as (irs1 & sc1 & Hex & Hstep).
    destruct (indexStep_indexed _ _ _ _ _ _ Hidx Hex Hstep) as [Hidx1 Htg].
    rewrite Hex. cbn [mbind Result_bind].
    destruct (IH irs1 sc1 Hidx1) as (irs' & sc' & Hrun & Hidx' & Htg').
    exists irs', sc'. split; [done|]. split; [done|]. by rewrite Htg', Htg.
Qed.

Lemma runRequests_endBlock (reqs : list (block * block)) (irs irs' : IRState)
    (sc sc' : CleanupScope) :
  runRequests irs sc reqs = Ok (irs', sc') → endBlock sc' = endBlock sc.
Proof.
  revert irs sc. induction reqs as [|[s c] reqs IH]; intros irs sc H; cbn in H.
  - by injection H as <- <-.
  - inv_bind H. destruct a as [irs1 sc1].
    apply IH in H as ->. by apply executeCleanup_frame in Ha as (_ & -> & _).
Qed.

Lemma findExitTarget_Some (i0 i : nat) (ts : list CleanupExitTarget) (c : block) :
  findExitTarget i0 ts c = Some i →
  i0 ≤ i ∧ ∃ t, ts !! (i - i0) = Some t ∧ branchTarget t = c.
Proof.
  revert i0. induction ts as [|t ts IH]; intros i0; cbn; [done|].
  case_decide as Hd.
  - intros [= <-]. split; [lia|]. exists t. by rewrite Nat.sub_diag.
  - intros H. apply IH in H as (Hle & t' & Hl & Hb). split; [lia|].
    exists t'. split; [|done].
    replace (i - i0) with (S (i - S i0)) by lia. done.
Qed.

Lemma distinctInOrder_snoc (l : list block) (x : block) :
  distinctInOrder (l ++ [x])
  = if decide (x ∈ distinctInOrder l) then distinctInOrder l
    else distinctInOrder l ++ [x].
Proof. unfold distinctInOrder. by rewrite foldl_app. Qed.

Lemma NoDup_distinctInOrder (l : list block) : NoDup (distinctInOrder l).
Proof.
  induction l as [|x l IH] using rev_ind; [constructor|].
  rewrite distinctInOrder_snoc. case_decide as Hx; [done|].
  apply NoDup_app. split; [done|]. split; [|apply NoDup_singleton].
  intros y Hy Hy'. apply list_elem_of_singleton in Hy'. by subst.
Qed.

(** With pairwise distinct destinations the search finds the position of
    the destination. *)
Lemma indexStep_positionStep (irs irs' : IRState) (sc sc' : CleanupScope) (s c : block) :
  NoDup (branchTarget <$> exitTargets sc) →
  indexStep irs sc s c irs' sc' → positionStep irs sc s c irs' sc'.
Proof.
  intros Hnd Hstep. unfold indexStep in Hstep. split.
  - intros i t Hi Ht.
    destruct (findExitTarget 0 (exitTargets sc) c) as [j|] eqn:Hf.
    + apply findExitTarget_Some in Hf as (_ & tj & Hj & Htj).
      rewrite Nat.sub_0_r in Hj.
      assert (i = j) as ->; [|done].
      eapply (NoDup_lookup _ _ _ _ Hnd); rewrite list_lookup_fmap.
      * by rewrite Hi.
      * rewrite Hj. cbn. congruence.
    + apply findExitTarget_None in Hf. destruct Hf. rewrite <- Ht.
      apply list_elem_of_fmap_2. by eapply list_elem_of_lookup_2.
  - intros Hnew. apply (findExitTarget_None 0) in Hnew. rewrite Hnew in Hstep.
    destruct Hstep as [Hts Hrest]. cbn zeta. split; [done|]. split; [|done].
    rewrite Hts. by apply list_lookup_middle.
Qed.

(** C2, amended: on a scope that has served no request yet, after any
    sequence of requests the exit targets are the distinct destinations in
    the order of their first request, so the first has index 0 and each new
    one received the number of targets present before it; with two or more
    of them the exit block ends in the switch that defaults to the first and
    has case [i] for the destination at index [i]. A further request keeps
    every index: a new destination is appended, at the position equal to
    the current number of exit targets, gets a switch case for that number
    and a store of it before the terminator of the source block; a
    destination that is the branch target of the exit target at position
    [i] gets only a store of [i] there once the scope has its selector, and
    no store at all while it is the only destination of a scope without
    selector, where only the source block is recorded. *)
Theorem selector_indices_in_order_of_first_request
    (irs : IRState) (sc : CleanupScope) (reqs : list (block * block)) (s c : block) :
  exitTargets sc = [] → branchSelector sc = None → endBlock sc ∈ dom (func irs) →
  ∃ irs1 sc1,
    runRequests irs sc reqs = Ok (irs1, sc1)
    ∧ branchTarget <$> exitTargets sc1 = distinctInOrder (snd <$> reqs)
    ∧ match distinctInOrder (snd <$> reqs) with
      | [] => branchSelector sc1 = None
      | [d0] =>
          branchSelector sc1 = None ∧ termOf irs1 (endBlock sc) = Some (Br d0)
      | d0 :: ds =>
          ∃ sel r, branchSelector sc1 = Some sel
            ∧ termOf irs1 (endBlock sc) = Some (Switch r d0 (switchCases ds))
      end
    ∧ ∃ irs2 sc2,
        executeCleanup irs1 sc1 s c = Ok (irs2, sc2)
        ∧ positionStep irs1 sc1 s c irs2 sc2
        ∧ branchTarget <$> exitTargets sc2 = distinctInOrder (snd <$> reqs ++ [(s, c)])
        ∧ (∀ j t, exitTargets sc1 !! j = Some t →
             ∃ t', exitTargets sc2 !! j = Some t' ∧ branchTarget t' = branchTarget t).
Proof.
  intros Et Es Hin.
  assert (Hidx : indexed irs sc).
  { split; [done|]. rewrite Es. by left. }
  destruct (runRequests_indexed reqs irs sc Hidx) as (irs1 & sc1 & Hrun & Hidx1 & Htg).
  rewrite Et in Htg. cbn [fmap list_fmap] in Htg. fold (distinctInOrder (snd <$> reqs)) in Htg.
  exists irs1, sc1. split; [done|]. split; [done|].
  pose proof (runRequests_endBlock _ _ _ _ _ Hrun) as He.
  split.
  { rewrite <- Htg. destruct Hidx1 as [_ Hi]. rewrite He in Hi.
    destruct (branchSelector sc1) as [sel|].
    - destruct Hi as (r & d0 & d1 & ds & -> & Hterm). by exists sel, r.
    - destruct Hi as [->|(t0 & -> & Hterm)]; [done|]. by cbn. }
  destruct (executeCleanup_index_step irs1 sc1 s c (indexed_scopeOk _ _ Hidx1))
    as (irs2 & sc2 & Hex & Hstep).
  destruct (indexStep_indexed _ _ _ _ _ _ Hidx1 Hex Hstep) as [_ Htg2].
  exists irs2, sc2. split; [done|].
  split; [apply indexStep_positionStep; [rewrite Htg; apply NoDup_distinctInOrder|done]|].
  assert (Htg2' : branchTarget <$> exitTargets sc2
                  = distinctInOrder (snd <$> reqs ++ [(s, c)])).
  { rewrite fmap_app. cbn [fmap list_fmap snd].
    by rewrite distinctInOrder_snoc, <- Htg. }
  split; [exact Htg2'|].
  intros j t Hj.
  assert (Hpre : (branchTarget <$> exitTargets sc2) !! j = Some (branchTarget t)).
  { rewrite Htg2. case_decide.
    - by rewrite list_lookup_fmap, Hj.
    - apply lookup_app_l_Some. by rewrite list_lookup_fmap, Hj. }
  rewrite list_lookup_fmap in Hpre.
  destruct (exitTargets sc2 !! j) as [t'|]; [|done].
  exists t'. split; [done|]. by injection Hpre.
Qed.

(** * The statements at work on a concrete function *)

Ltac solve_in_dom := apply elem_of_dom; vm_compute; eauto.

Lemma demo_stack_ok : stackOk demo_stack.
Proof.
  split.
  - repeat constructor; try solve_in_dom; by left.
  - cbn. apply NoDup_ListNoDup. repeat constructor; cbn; intros H; intuition discriminate.
Qed.

Lemma executeCleanup_one_destination_then_selector_witness :
  ∃ irs2 sc2,
    executeCleanup (appendInst 5%positive (Br 7%positive) demo_irs)
      (setExitTargets [mkExitTarget 7%positive [9%positive]] demo_inner)
      10%positive 8%positive
    = Ok (irs2, sc2)
    ∧ branchSelector sc2 = Some 20%positive
    ∧ instsOf irs2 9%positive = [Store 0 20%positive; Br 4%positive]
    ∧ instsOf irs2 10%positive = [Store 1 20%positive; Br 4%positive]
    ∧ instsOf irs2 5%positive
      = [Load 21%positive 20%positive; Switch 21%positive 7%positive [(1, 8%positive)]].
Proof.
  destruct (executeCleanup_one_destination_then_selector demo_irs demo_inner
              7%positive 8%positive 9%positive 10%positive [])
    as (_ & _ & _ & _ & _ & irs2 & Hex & _ & Hb & _ & He).
  - reflexivity.
  - reflexivity.
  - solve_in_dom.
  - discriminate.
  - exists irs2. eexists. split; [exact Hex|]. split; [reflexivity|].
    split; [|split].
    + rewrite Hb by discriminate. vm_compute; reflexivity.
    + rewrite Hb by discriminate. vm_compute; reflexivity.
    + change 5%positive with (endBlock demo_inner) at 1.
      rewrite He; [vm_compute; reflexivity|].
      intros Hin. repeat (apply elem_of_cons in Hin as [Hin|Hin]; [discriminate|]).
      by apply elem_of_nil in Hin.
Defined.

Lemma selector_indices_in_order_of_first_request_witness :
  ∃ irs1 sc1,
    runRequests demo_irs demo_inner
      [(9%positive, 7%positive); (10%positive, 8%positive)]
    = Ok (irs1, sc1)
    ∧ branchTarget <$> exitTargets sc1 = [7%positive; 8%positive]
    ∧ ∃ irs2 sc2,
        executeCleanup irs1 sc1 9%positive 8%positive = Ok (irs2, sc2)
        ∧ irs2 = storeBeforeTerminator 1 20%positive 9%positive irs1
        ∧ instsOf irs2 9%positive
          = [Store 0 20%positive; Store 1 20%positive; Br 4%positive]
        ∧ sourceBlocks <$> exitTargets sc2 = [[9%positive]; [10%positive; 9%positive]].
Proof.
  destruct (selector_indices_in_order_of_first_request demo_irs demo_inner
              [(9%positive, 7%positive); (10%positive, 8%positive)]
              9%positive 8%positive)
    as (irs1 & sc1 & Hrun & Htg & _ & irs2 & sc2 & Hex & [Hknown _] & _).
  - reflexivity.
  - reflexivity.
  - solve_in_dom.
  - assert (Hd : demo_two = (irs1, sc1)).
    { unfold demo_two. rewrite Hrun. reflexivity. }
    assert (irs1 = demo_two.1) as -> by (by rewrite Hd).
    assert (sc1 = demo_two.2) as -> by (by rewrite Hd).
    clear Hd.
    assert (Hl : exitTargets demo_two.2 !! 1
                 = Some (mkExitTarget 8%positive [10%positive]))
      by (vm_compute; reflexivity).
    assert (Hs : branchSelector demo_two.2 = Some 20%positive)
      by (vm_compute; reflexivity).
    destruct (Hknown 1 _ Hl eq_refl) as [Hts Hsel]. rewrite Hs in Hsel.
    destruct Hsel as [_ Hirs].
    exists demo_two.1, demo_two.2. split; [exact Hrun|]. split; [exact Htg|].
    exists irs2, sc2. split; [exact Hex|]. split; [exact Hirs|].
    split; [rewrite Hirs|rewrite Hts]; vm_compute; reflexivity.
Defined.

Lemma runCleanups_unwinds_chain_witness :
  cleanupChain demo_stack 0 7%positive
  = [(1, 6%positive, 2%positive); (0, 6%positive, 7%positive)]
  ∧ ∃ st', runCleanups demo_stack 0 7%positive = Ok st' ∧ stackOk st'.
Proof.
  assert (Hpre : 0 ≤ currentCleanupScope demo_stack) by (vm_compute; lia).
  destruct (runCleanups_unwinds_chain demo_stack 0 7%positive Hpre)
    as (_ & Hlt & _).
  split; [vm_compute; reflexivity|].
  destruct Hlt as (sc & _ & _ & Hok); [vm_compute; lia|].
  apply Hok; [apply demo_stack_ok|].
  cbn. intros Hin. repeat (apply elem_of_cons in Hin as [Hin|Hin]; [discriminate|]).
  by apply elem_of_nil in Hin.
Defined.

Lemma demo_goto_ok : stackOk demo_goto.
Proof.
  split.
  - repeat constructor; try solve_in_dom; by left.
  - cbn. apply NoDup_ListNoDup. repeat constructor; cbn; intros H; intuition discriminate.
Qed.

Lemma popCleanups_threads_pending_gotos_witness :
  edgesAt 1 (popPlan (cleanupScopes demo_goto) 0) = [(6%positive, 13%positive)]
  ∧ edgesAt 0 (popPlan (cleanupScopes demo_goto) 0) = [(6%positive, 13%positive)]
  ∧ ∃ st', popCleanups demo_goto 0 = Ok st'
      ∧ cleanupScopes st' = []
      ∧ topLevelUnresolvedGotos st'
        = [mkGotoJump 1%positive 6%positive 13%positive 5%positive].
Proof.
  destruct (popCleanups_threads_pending_gotos demo_goto 0)
    as (_ & Hedges & Hshape & Hok & _).
  split; [rewrite Hedges; vm_compute; reflexivity|].
  split; [rewrite Hedges; vm_compute; reflexivity|].
  destruct (Hok demo_goto_ok) as (st' & Hpop & _).
  exists st'. split; [exact Hpop|].
  destruct (Hshape st' Hpop) as (-> & -> & _). split; vm_compute; reflexivity.
Defined.

Lemma addLabelTarget_resolves_current_gotos_witness :
  let st' := addLabelTarget demo_pending 5%positive 7%positive in
  (13%positive ∉ dom (func (irs st')))
  ∧ noUses 13%positive (irs st')
  ∧ currentUnresolvedGotos st'
    = [mkGotoJump 2%positive 6%positive 14%positive 6%positive].
Proof.
  destruct (addLabelTarget_resolves_current_gotos demo_stack demo_pending
              1%positive 5%positive 7%positive demo_ops)
    as (Hgen & _ & _ & Hd & Hu & _).
  - vm_compute; reflexivity.
  - repeat constructor; cbn; try tauto; discriminate.
  - vm_compute; reflexivity.
  - vm_compute. repeat constructor. discriminate.
  - cbn zeta. split; [exact Hd|]. split; [exact Hu|].
    destruct (Hgen demo_pending) as (_ & -> & _). vm_compute; reflexivity.
Defined.

Lemma label_entries_are_permanent_witness :
  labelTargets demo_labelled !! 5%positive = Some (mkJumpTarget 7%positive 1 None)
  ∧ jumpToLabel demo_labelled 3%positive 5%positive
    = runCleanups demo_labelled 1 7%positive.
Proof.
  apply (label_entries_are_permanent (setCleanupScopes [demo_outer] demo_stack)
           demo_labelled 5%positive 7%positive demo_later_ops 3%positive).
  - repeat constructor; cbn; try tauto; discriminate.
  - vm_compute; reflexivity.
Defined.

(** ** Scenarios *)

(** Two jumps that leave both scopes for the same destination: no scope
    needs a selector, and each exit block ends in a plain branch. *)
Example single_exits_need_no_selector :
  ∃ st, runOps [OpRunAllCleanups 7%positive;
                OpCodegen (setScopebb 11%positive);
                OpRunAllCleanups 7%positive] demo_stack = Ok st
    ∧ allocas (irs st) = []
    ∧ branchSelector <$> cleanupScopes st = [None; None]
    ∧ instsOf (irs st) 5%positive = [Br 2%positive]
    ∧ instsOf (irs st) 3%positive = [Br 7%positive]
    ∧ instsOf (irs st) 11%positive = [Br 4%positive].
Proof. eexists. split; [vm_compute; reflexivity|]. repeat split. Qed.

(** Two breaks out of the inner scope to two different blocks: the inner
    scope gets its selector, the first break is backfilled with a store of
    0, the second stores 1, and the exit block switches between the two. *)
Example two_breaks_force_selector :
  ∃ st, runOps [OpRunCleanups 1 7%positive;
                OpCodegen (setScopebb 11%positive);
                OpRunCleanups 1 12%positive] demo_stack = Ok st
    ∧ allocas (irs st) = [Alloca 20%positive Int32Ty "branchsel.inner.finally"]
    ∧ branchSelector <$> cleanupScopes st = [None; Some 20%positive]
    ∧ instsOf (irs st) 6%positive
      = [OtherInst 3 false []; Store 0 20%positive; Br 4%positive]
    ∧ instsOf (irs st) 11%positive = [Store 1 20%positive; Br 4%positive]
    ∧ instsOf (irs st) 5%positive
      = [Load 21%positive 20%positive;
         Switch 21%positive 7%positive [(1, 12%positive)]].
Proof. eexists. split; [vm_compute; reflexivity|]. repeat split. Qed.

(** A forward goto from inside both scopes to a label defined after both
    are closed: the goto runs the inner cleanup, then the outer one, and
    arrives at the block of the label; the placeholder is gone. *)
Example forward_goto_crosses_two_scopes :
  ∃ st, runOps [OpJumpToLabel 1%positive 5%positive;
                OpPopCleanups 0;
                OpAddLabelTarget 5%positive 7%positive] demo_stack = Ok st
    ∧ instsOf (irs st) 6%positive = [OtherInst 3 false []; Br 4%positive]
    ∧ instsOf (irs st) 5%positive = [Br 2%positive]
    ∧ instsOf (irs st) 3%positive = [Br 7%positive]
    ∧ insts (irs st) 13%positive = None
    ∧ topLevelUnresolvedGotos st = []
    ∧ ScopeStack_destroy st = [].
Proof. eexists. split; [vm_compute; reflexivity|]. repeat split. Qed.

(** A goto whose label is never defined is reported at the end of the
    function. *)
Example undefined_label_is_reported :
  ∃ st, runOps [OpJumpToLabel 1%positive 5%positive; OpPopCleanups 0] demo_stack = Ok st
    ∧ ScopeStack_destroy st
      = [DiagError 1%positive "goto into try/finally scope is not allowed"; DiagFatal].
Proof. eexists. split; vm_compute; reflexivity. Qed.

(* ================================================================== *)
(** * Further properties of the code *)

(** ** Bookkeeping of the multiplexer *)

Lemma executeCleanup_exitTargets (irs irs' : IRState) (sc sc' : CleanupScope)
    (s c : block) :
  executeCleanup irs sc s c = Ok (irs', sc') →
  exitTargets sc' = recordRequest (exitTargets sc) s c.
Proof.
  unfold executeCleanup, recordRequest.
  destruct (exitTargets sc) as [|t0 ts] eqn:E.
  - intros H. inv_bind H. by injection H as <- <-.
  - case_bool_decide as Hc.
    + destruct Hc as [-> <-]. intros H. inv_bind H. injection H as <- <-.
      cbn. by rewrite decide_True.
    + intros H. inv_bind H. destruct a as [sel irs1].
      unfold selectExit in H. cbn [exitTargets setBranchSelector] in H.
      rewrite E in H.
      destruct (findExitTarget 0 (t0 :: ts) c) as [i|].
      * by injection H as <- <-.
      * destruct (addCase _ _ _); [|done]. by injection H as <- <-.
Qed.

Lemma sourcesOf_snoc (d : block) (done : list (block * block)) (s c : block) :
  sourcesOf d (done ++ [(s, c)])
  = sourcesOf d done ++ (if decide (c = d) then [s] else []).
Proof.
  unfold sourcesOf. rewrite filter_app, fmap_app. f_equal.
  rewrite filter_cons. cbn. by case_decide.
Qed.

Lemma length_concat_addSource (s : block) (i : nat) (ts : list CleanupExitTarget)
    (t : CleanupExitTarget) :
  ts !! i = Some t →
  length (concat (sourceBlocks <$> alter (addSource s) i ts))
  = S (length (concat (sourceBlocks <$> ts))).
Proof.
  revert i. induction ts as [|t' ts IH]; intros [|i]; cbn; try done.
  - intros _. rewrite !length_app. cbn. lia.
  - intros H. rewrite !length_app. fold (alter (addSource s) i ts).
    rewrite (IH i H). lia.
Qed.

Lemma sourcesOf_absent (d : block) (done : list (block * block)) :
  (∀ r, r ∈ done → r.2 ≠ d) → sourcesOf d done = [].
Proof.
  unfold sourcesOf. induction done as [|r done IH]; intros H; [done|].
  rewrite filter_cons_False.
  - apply IH. intros r' Hr'. apply H. rewrite elem_of_cons. by right.
  - apply H. rewrite elem_of_cons. by left.
Qed.

Lemma recorded_step (ts : list CleanupExitTarget) (done : list (block * block))
    (s c : block) :
  recorded ts done → recorded (recordRequest ts s c) (done ++ [(s, c)]).
Proof.
  intros (Hnd & Hsrc & Hne & Hcov & Hlen). unfold recordRequest.
  destruct (findExitTarget 0 ts c) as [i|] eqn:Hf.
  - apply findExitTarget_Some in Hf as (_ & ti & Hi & Hti).
    rewrite Nat.sub_0_r in Hi.
    split; [by rewrite branchTargets_addSource|].
    split; [|split; [|split]].
    + intros t' Ht'. apply list_elem_of_lookup in Ht' as (j & Hj).
      rewrite list_lookup_alter in Hj. rewrite sourcesOf_snoc.
      destruct (decide (i = j)) as [->|Hij].
      * rewrite Hi in Hj. injection Hj as <-. cbn.
        rewrite decide_True by done. f_equal.
        apply Hsrc. by eapply list_elem_of_lookup_2.
      * rewrite decide_False, app_nil_r.
        { apply Hsrc. by eapply list_elem_of_lookup_2. }
        intros Hc. apply Hij.
        eapply (NoDup_lookup _ _ _ _ Hnd); rewrite list_lookup_fmap.
        -- by rewrite Hi.
        -- rewrite Hj. cbn. congruence.
    + intros t' Ht'. apply list_elem_of_lookup in Ht' as (j & Hj).
      rewrite list_lookup_alter in Hj.
      destruct (decide (i = j)) as [->|Hij].
      * rewrite Hi in Hj. injection Hj as <-. cbn. by intros ?%app_nil_r_inv.
      * apply Hne. by eapply list_elem_of_lookup_2.
    + intros r Hr. rewrite branchTargets_addSource.
      apply elem_of_app in Hr as [Hr|Hr]; [by apply Hcov|].
      apply list_elem_of_singleton in Hr as ->. cbn. rewrite <- Hti.
      apply list_elem_of_fmap_2. by eapply list_elem_of_lookup_2.
    + rewrite (length_concat_addSource _ _ _ _ Hi), length_app. cbn. lia.
  - apply findExitTarget_None in Hf.
    assert (Hnone : sourcesOf c done = []).
    { apply sourcesOf_absent. intros r Hr Hrc. apply Hf. rewrite <- Hrc. by apply Hcov. }
    split; [|split; [|split; [|split]]].
    + rewrite fmap_app. apply NoDup_app. split; [done|].
      split; [|apply NoDup_singleton].
      intros x Hx Hx'. apply list_elem_of_singleton in Hx'. by subst.
    + intros t Ht. rewrite sourcesOf_snoc.
      apply elem_of_app in Ht as [Ht|Ht].
      * rewrite decide_False, app_nil_r; [by apply Hsrc|].
        intros ->. apply Hf. by apply list_elem_of_fmap_2.
      * apply list_elem_of_singleton in Ht as ->. cbn.
        by rewrite decide_True, Hnone.
    + intros t Ht. apply elem_of_app in Ht as [Ht|Ht]; [by apply Hne|].
      by apply list_elem_of_singleton in Ht as ->.
    + intros r Hr. rewrite fmap_app.
      apply elem_of_app in Hr as [Hr|Hr].
      * apply elem_of_app. left. by apply Hcov.
      * apply list_elem_of_singleton in Hr as ->. apply elem_of_app. right.
        cbn. apply list_elem_of_singleton. done.
    + rewrite fmap_app, concat_app, !length_app. cbn. lia.
Qed.

Lemma runRequests_recorded (reqs done : list (block * block)) (irs irs1 : IRState)
    (sc sc1 : CleanupScope) :
  recorded (exitTargets sc) done →
  runRequests irs sc reqs = Ok (irs1, sc1) →
  recorded (exitTargets sc1) (done ++ reqs).
Proof.
  revert done irs sc. induction reqs as [|[s c] reqs IH]; intros done irs sc Hrec; cbn.
  - intros [= <- <-]. by rewrite app_nil_r.
  - intros H. inv_bind H. destruct a as [irs' sc'].
    change ((s, c) :: reqs) with ([(s, c)] ++ reqs).
    rewrite (assoc_L (++) done [(s, c)] reqs). eapply IH; [|exact H].
    rewrite (executeCleanup_exitTargets _ _ _ _ _ _ Ha). by apply recorded_step.
Qed.

(** X1: served from a scope without exit targets, the multiplexer keeps one
    exit target per distinct destination; each exit target holds exactly
    the source blocks of the requests for its destination, in the order of
    the requests, so none is empty; every request is recorded under its
    destination, and the recorded source blocks are as many as the
    requests. *)
Theorem exit_targets_record_sources_by_destination
    (irs irs1 : IRState) (sc sc1 : CleanupScope) (reqs : list (block * block)) :
  exitTargets sc = [] →
  runRequests irs sc reqs = Ok (irs1, sc1) →
  NoDup (branchTarget <$> exitTargets sc1)
  ∧ (∀ t, t ∈ exitTargets sc1 →
       sourceBlocks t = sourcesOf (branchTarget t) reqs ∧ sourceBlocks t ≠ [])
  ∧ (∀ s c, (s, c) ∈ reqs →
       ∃ t, t ∈ exitTargets sc1 ∧ branchTarget t = c ∧ s ∈ sourceBlocks t)
  ∧ length (concat (sourceBlocks <$> exitTargets sc1)) = length reqs.
Proof.
  intros He Hrun.
  destruct (runRequests_recorded reqs [] irs irs1 sc sc1) as (Hnd & Hsrc & Hne & Hcov & Hlen);
    [|done|].
  { rewrite He. repeat split; [constructor|by intros ? ?%elem_of_nil..]. }
  cbn in *.
  assert (Hin : ∀ s c, (s, c) ∈ reqs →
            ∃ t, t ∈ exitTargets sc1 ∧ branchTarget t = c ∧ s ∈ sourceBlocks t).
  { intros s c Hr. pose proof (Hcov _ Hr) as Hc. cbn in Hc.
    apply list_elem_of_fmap in Hc as (t & -> & Ht). exists t.
    split; [done|]. split; [done|]. rewrite (Hsrc t Ht). unfold sourcesOf.
    apply (list_elem_of_fmap_2 fst _ (s, branchTarget t)).
    by apply list_elem_of_filter. }
  split; [done|]. split; [|split; [done|done]].
  intros t Ht. split; [by apply Hsrc|by apply Hne].
Qed.

(** ** Failures and footprint of the multiplexer *)

Lemma createBranchSelector_fails (irs : IRState) (sc : CleanupScope)
    (t0 : CleanupExitTarget) :
  termOf irs (endBlock sc) = None →
  createBranchSelector irs sc t0
  = Fail (UndefinedBehaviour "endBlock->getTerminator() is null").
Proof.
  intros Ht. unfold createBranchSelector, createSelector, convertToSwitch.
  fold (termOf (storeZeroes (nextValue irs) (sourceBlocks t0)
                  (mkIRState (func irs)
                     (allocas irs ++
                      [Alloca (nextValue irs) Int32Ty
                         ("branchsel." +:+ blockName irs (beginBlock sc))])
                     (scopebb irs) (Pos.succ (nextValue irs)))) (endBlock sc)).
  rewrite termOf_storeZeroes.
  change (termOf _ (endBlock sc)) with (termOf irs (endBlock sc)).
  by rewrite Ht.
Qed.

Lemma addCase_None (c : nat) (d : block) (l : list instr) :
  (∀ t, getTerminator l = Some t → ¬ isSwitch t) → addCase c d l = None.
Proof.
  unfold addCase. intros H. destruct (getTerminator l) as [[]|]; try done.
  by destruct (H _ eq_refl).
Qed.

Lemma termOf_in_dom (irs : IRState) (b : block) :
  is_Some (termOf irs b) → b ∈ dom (func irs).
Proof.
  unfold termOf, instsOf. intros [t Ht]. apply insts_is_Some.
  destruct (insts irs b); [done|]. done.
Qed.

(** X2: a multiplexer call fails in exactly three situations. The request
    needs no selector (no exit target yet, or the only one has the
    requested destination) but the scope has one: the assertion
    [!scope.branchSelector]. A selector has to be created but the exit
    block has no terminator to replace: the null [getTerminator()]. The
    scope has a selector, the destination is new and the exit block does
    not end in a switch: the checked cast. In every other situation the
    call succeeds. *)
Theorem executeCleanup_fails_exactly_when
    (irs : IRState) (sc : CleanupScope) (s c : block) (f : Failure) :
  executeCleanup irs sc s c = Fail f ↔
    ((needsNoSelector sc c ∧ branchSelector sc ≠ None
      ∧ f = AssertionFailure "!scope.branchSelector")
     ∨ (¬ needsNoSelector sc c ∧ branchSelector sc = None
        ∧ termOf irs (endBlock sc) = None
        ∧ f = UndefinedBehaviour "endBlock->getTerminator() is null")
     ∨ (¬ needsNoSelector sc c ∧ branchSelector sc ≠ None
        ∧ (c ∉ branchTarget <$> exitTargets sc)
        ∧ (∀ t, termOf irs (endBlock sc) = Some t → ¬ isSwitch t)
        ∧ f = AssertionFailure "cast<SwitchInst>(endBlock->getTerminator())")).
Proof.
  unfold executeCleanup, needsNoSelector.
  destruct (exitTargets sc) as [|t0 ts] eqn:Et.
  - destruct (branchSelector sc) as [sel|] eqn:Es; cbn.
    + split; [intros [= <-]; left; by repeat split|].
      intros [(_ & _ & ->)|[(H & _)|(H & _)]]; [done|by destruct H..].
    + split; [done|].
      intros [(_ & H & _)|[(H & _)|(H & _)]]; by destruct H.
  - case_bool_decide as Hc.
    + destruct Hc as [-> Hc]. destruct (branchSelector sc) as [sel|] eqn:Es; cbn.
      * split; [intros [= <-]; left; by repeat split|].
        intros [(_ & _ & ->)|[(H & _)|(H & _)]]; [done|by destruct H..].
      * split; [done|].
        intros [(_ & H & _)|[(H & _)|(H & _)]]; by destruct H.
    + assert (Hn : ¬ match ts with [] => branchTarget t0 = c | _ :: _ => False end).
      { destruct ts; [|tauto]. intros ?. by apply Hc. }
      destruct (branchSelector sc) as [sel|] eqn:Es.
      * cbn. unfold selectExit. cbn [exitTargets setBranchSelector endBlock].
        rewrite Et.
        destruct (findExitTarget 0 (t0 :: ts) c) as [i|] eqn:Hf.
        -- split; [done|].
           intros [(H & _)|[(_ & H & _)|(_ & _ & Hnin & _)]]; [done..|].
           apply (findExitTarget_None 0 (t0 :: ts)) in Hnin. congruence.
        -- apply findExitTarget_None in Hf.
           destruct (addCase _ _ _) as [l|] eqn:Ha.
           ++ split; [done|].
              intros [(H & _)|[(_ & H & _)|(_ & _ & _ & Hsw & _)]]; [done..|].
              rewrite (addCase_None _ _ _ Hsw) in Ha. done.
           ++ split.
              ** intros [= <-]. right. right. repeat split; try done.
                 intros t Ht Hsw. unfold addCase in Ha. unfold termOf in Ht.
                 rewrite Ht in Ha. by destruct t.
              ** intros [(H & _)|[(_ & H & _)|(_ & _ & _ & _ & ->)]]; done.
      * destruct (termOf irs (endBlock sc)) as [t|] eqn:Ht.
        -- destruct (createBranchSelector_Ok irs sc t0) as [irs1 Hcr]; [by eexists|].
           rewrite Hcr. cbn.
           assert (Hin : endBlock sc ∈ dom (func irs))
             by (apply termOf_in_dom; by eexists).
           pose proof (termOf_createBranchSelector _ _ _ _ _ (endBlock sc) Hin Hcr) as Ht1.
           rewrite decide_True in Ht1 by done.
           apply createBranchSelector_frame in Hcr as (_ & _ & Hd).
           destruct (selectExit_Ok (nextValue irs) irs1
                       (setBranchSelector (Some (nextValue irs)) sc) s c
                       (Switch (Pos.succ (nextValue irs)) (branchTarget t0) []))
             as (irs2 & sc2 & Hsel & _); cbn; try done.
           ++ by rewrite Hd.
           ++ rewrite Et. cbn. lia.
           ++ rewrite Et. cbn. destruct ts; [|done]. intros _.
              rewrite decide_False; [done|]. intros ?. by apply Hc.
           ++ rewrite Hsel. split; [done|].
              intros [(H & _)|[(_ & _ & H & _)|(_ & H & _)]]; done.
        -- rewrite createBranchSelector_fails by done. cbn.
           split; [intros [= <-]; right; left; by repeat split|].
           intros [(H & _)|[(_ & _ & _ & ->)|(_ & H & _)]]; done.
Qed.

Lemma instsOf_createBranchSelector_other (irs irs' : IRState) (sc : CleanupScope)
    (t0 : CleanupExitTarget) (sel : value) (b : block) :
  createBranchSelector irs sc t0 = Ok (sel, irs') →
  b ≠ endBlock sc → b ∉ sourceBlocks t0 → instsOf irs' b = instsOf irs b.
Proof.
  intros H Hb Hs.
  destruct (termOf irs (endBlock sc)) as [t|] eqn:Ht;
    [|by rewrite createBranchSelector_fails in H].
  assert (Hsome : is_Some (termOf irs (endBlock sc))) by (by eexists).
  destruct (createBranchSelector_exact irs sc t0 (termOf_in_dom _ _ Hsome) Hsome)
    as (irs1 & Heq & _ & _ & _ & _ & Hinsts).
  rewrite Heq in H. injection H as _ <-.
  rewrite Hinsts, decide_False by done.
  destruct (termOf irs b) as [tb|] eqn:Hb'; [|done].
  rewrite occurrences_notin by done. cbn.
  by apply getTerminator_Some in Hb' as [<- _].
Qed.

Lemma instsOf_selectExit_other (sel : value) (irs irs' : IRState) (sc sc' : CleanupScope)
    (s c b : block) :
  selectExit sel irs sc s c = Ok (irs', sc') →
  b ≠ endBlock sc → b ≠ s → instsOf irs' b = instsOf irs b.
Proof.
  unfold selectExit. intros H Hb Hs. destruct (findExitTarget _ _ _).
  - injection H as <- <-. rewrite instsOf_storeBeforeTerminator. by rewrite decide_False.
  - destruct (addCase _ _ _); [|done]. injection H as <- <-.
    rewrite instsOf_storeBeforeTerminator, decide_False by done.
    rewrite instsOf_editBlock, decide_False; [done|]. by intros [? _].
Qed.

Lemma allocas_selectExit (sel : value) (irs irs' : IRState) (sc sc' : CleanupScope)
    (s c : block) :
  selectExit sel irs sc s c = Ok (irs', sc') → allocas irs' = allocas irs.
Proof.
  unfold selectExit. intros H. destruct (findExitTarget _ _ _).
  - by injection H as <- <-.
  - destruct (addCase _ _ _); [|done]. by injection H as <- <-.
Qed.

Lemma createBranchSelector_Some (irs irs' : IRState) (sc : CleanupScope)
    (t0 : CleanupExitTarget) (sel : value) :
  createBranchSelector irs sc t0 = Ok (sel, irs') →
  is_Some (termOf irs (endBlock sc)).
Proof.
  intros H. destruct (termOf irs (endBlock sc)) eqn:Ht; [by eexists|].
  by rewrite createBranchSelector_fails in H.
Qed.

Lemma executeCleanup_termOf_frame (irs irs' : IRState) (sc sc' : CleanupScope)
    (s c b : block) :
  executeCleanup irs sc s c = Ok (irs', sc') →
  b ≠ endBlock sc → termOf irs' b = termOf irs b.
Proof.
  unfold executeCleanup. intros H Hne.
  destruct (exitTargets sc) as [|t0 ts] eqn:Et.
  - inv_bind H. injection H as <- <-.
    rewrite termOf_appendInst, decide_False; [done|]. by intros [? _].
  - case_bool_decide as Hc.
    + inv_bind H. by injection H as <- <-.
    + inv_bind H. destruct a as [sel irs1].
      rewrite (termOf_selectExit_other _ _ _ _ _ _ _ _ H) by done.
      destruct (branchSelector sc) as [sel0|] eqn:Es; [by injection Ha as <- <-|].
      pose proof (createBranchSelector_Some _ _ _ _ _ Ha) as Hsome.
      erewrite termOf_createBranchSelector; [|by apply termOf_in_dom|done].
      by rewrite decide_False.
Qed.

Lemma executeCleanup_instsOf_frame (irs irs' : IRState) (sc sc' : CleanupScope)
    (s c b : block) :
  executeCleanup irs sc s c = Ok (irs', sc') →
  b ≠ endBlock sc → b ≠ s → b ∉ firstSources sc →
  instsOf irs' b = instsOf irs b.
Proof.
  unfold executeCleanup, firstSources. intros H Hne Hns Hnf.
  destruct (exitTargets sc) as [|t0 ts] eqn:Et.
  - inv_bind H. injection H as <- <-. unfold appendInst.
    rewrite instsOf_editBlock, decide_False; [done|]. by intros [? _].
  - case_bool_decide as Hc.
    + inv_bind H. by injection H as <- <-.
    + inv_bind H. destruct a as [sel irs1].
      rewrite (instsOf_selectExit_other _ _ _ _ _ _ _ _ H) by done.
      destruct (branchSelector sc) as [sel0|] eqn:Es; [by injection Ha as <- <-|].
      by rewrite (instsOf_createBranchSelector_other _ _ _ _ _ _ Ha).
Qed.

Lemma executeCleanup_allocas (irs irs' : IRState) (sc sc' : CleanupScope) (s c : block) :
  executeCleanup irs sc s c = Ok (irs', sc') →
  allocas irs' = allocas irs
  ∨ (branchSelector sc = None
     ∧ branchSelector sc' = Some (nextValue irs)
     ∧ allocas irs'
       = allocas irs
         ++ [Alloca (nextValue irs) Int32Ty
               ("branchsel." +:+ blockName irs (beginBlock sc))]).
Proof.
  unfold executeCleanup. intros H.
  destruct (exitTargets sc) as [|t0 ts] eqn:Et.
  - inv_bind H. injection H as <- <-. by left.
  - case_bool_decide as Hc.
    + inv_bind H. injection H as <- <-. by left.
    + inv_bind H. destruct a as [sel irs1].
      rewrite (allocas_selectExit _ _ _ _ _ _ _ H).
      destruct (branchSelector sc) as [sel0|] eqn:Es; [injection Ha as <- <-; by left|].
      right. split; [done|].
      pose proof (createBranchSelector_Some _ _ _ _ _ Ha) as Hsome.
      destruct (createBranchSelector_exact irs sc t0 (termOf_in_dom _ _ Hsome) Hsome)
        as (irs1' & Heq & Hal & _).
      rewrite Heq in Ha. injection Ha as <- <-.
      by destruct (selectExit_frame _ _ _ _ _ _ _ H) as (_ & _ & _ & -> & _).
Qed.

(** X3: a successful multiplexer call neither adds nor removes a block and
    does not move the insertion point; it keeps the entry block, the exit
    block and the unresolved gotos of the scope; it leaves the terminator
    of every block but the exit block as it was, and every instruction of
    a block that is neither the exit block, nor the source block, nor
    recorded as a source of the first exit target. The allocas at the
    function entry are unchanged or, when the scope had no selector,
    extended by exactly the selector slot. *)
Theorem executeCleanup_touches_only_its_blocks
    (irs irs' : IRState) (sc sc' : CleanupScope) (s c : block) :
  executeCleanup irs sc s c = Ok (irs', sc') →
  dom (func irs') = dom (func irs)
  ∧ scopebb irs' = scopebb irs
  ∧ beginBlock sc' = beginBlock sc
  ∧ endBlock sc' = endBlock sc
  ∧ unresolvedGotos sc' = unresolvedGotos sc
  ∧ (∀ b, b ≠ endBlock sc → termOf irs' b = termOf irs b)
  ∧ (∀ b, b ≠ endBlock sc → b ≠ s → b ∉ firstSources sc →
       instsOf irs' b = instsOf irs b)
  ∧ (allocas irs' = allocas irs
     ∨ (branchSelector sc = None
        ∧ branchSelector sc' = Some (nextValue irs)
        ∧ allocas irs'
          = allocas irs
            ++ [Alloca (nextValue irs) Int32Ty
                  ("branchsel." +:+ blockName irs (beginBlock sc))])).
Proof.
  intros H.
  destruct (executeCleanup_frame _ _ _ _ _ _ H) as (Hb & He & Hu & Hs & Hd).
  do 5 (split; [done|]). split; [|split].
  - intros b. apply (executeCleanup_termOf_frame _ _ _ _ _ _ _ H).
  - intros b. apply (executeCleanup_instsOf_frame _ _ _ _ _ _ _ H).
  - apply (executeCleanup_allocas _ _ _ _ _ _ H).
Qed.

(** ** Unwinding and closing scopes *)

Lemma setCleanupScopes_id (st : ScopeStack) : setCleanupScopes (cleanupScopes st) st = st.
Proof. by destruct st. Qed.

Lemma popCleanups_loop_ge (i t : nat) (st : ScopeStack) :
  i ≤ t → popCleanups_loop i t st = Ok st.
Proof.
  intros H. destruct i as [|i]; [done|]. cbn [popCleanups_loop].
  by rewrite bool_decide_false by lia.
Qed.

Lemma popCleanups_as_loop (st : ScopeStack) (t : nat) :
  popCleanups st t = popCleanups_loop (currentCleanupScope st) t st.
Proof.
  unfold popCleanups. case_bool_decide as H; [|done].
  by rewrite popCleanups_loop_ge by lia.
Qed.

Lemma runCleanups_loop_below (i t : nat) (c : block) (st st' : ScopeStack) :
  runCleanups_loop i t c st = Ok st' →
  take t (cleanupScopes st') = take t (cleanupScopes st).
Proof.
  revert st. induction i as [|i IH]; intros st H; cbn [runCleanups_loop] in H.
  - by injection H as <-.
  - case_bool_decide as Hlt; [|by injection H as <-].
    inv_bind H. rename a into nextBlock. inv_bind H. rename a into st1.
    rewrite (IH _ H). unfold executeCleanupAt in Ha0.
    destruct (cleanupScopes st !! i); [|done]. inv_bind Ha0. destruct a as [irs' sc'].
    injection Ha0 as <-. cbn. apply take_insert_ge. lia.
Qed.

(** X4: a successful [runCleanups] pushes and pops no scope: the depth, the
    entry blocks, the exit blocks and the unresolved gotos of the scopes
    are as before, the scopes below the target cursor are untouched
    altogether, and so are the top-level gotos, the continue and break
    targets, the labels, the insertion block and the set of blocks. *)
Theorem runCleanups_keeps_scopes_and_targets
    (st st' : ScopeStack) (targetScope : nat) (continueWith : block) :
  runCleanups st targetScope continueWith = Ok st' →
  currentCleanupScope st' = currentCleanupScope st
  ∧ beginBlock <$> cleanupScopes st' = beginBlock <$> cleanupScopes st
  ∧ endBlock <$> cleanupScopes st' = endBlock <$> cleanupScopes st
  ∧ unresolvedGotos <$> cleanupScopes st' = unresolvedGotos <$> cleanupScopes st
  ∧ take targetScope (cleanupScopes st') = take targetScope (cleanupScopes st)
  ∧ topLevelUnresolvedGotos st' = topLevelUnresolvedGotos st
  ∧ continueTargets st' = continueTargets st
  ∧ breakTargets st' = breakTargets st
  ∧ labelTargets st' = labelTargets st
  ∧ scopebb (irs st') = scopebb (irs st)
  ∧ dom (func (irs st')) = dom (func (irs st)).
Proof.
  intros H.
  pose proof (runCleanups_frame _ _ _ _ H) as Hfr.
  pose proof (cleanupFrame_length _ _ Hfr) as Hlen.
  destruct Hfr as (Hc & Hb & Hl & Ht & Hs & Hd & Hbb & Heb & Hu).
  repeat (split; [done|]). split; [|done].
  unfold runCleanups in H. inv_bind H. case_bool_decide.
  - by injection H as <-.
  - destruct (last (cleanupScopes st)); [|done].
    by rewrite (runCleanups_loop_below _ _ _ _ _ H).
Qed.

Lemma executeCleanupAt_termOf (i : nat) (s c b : block) (st st' : ScopeStack) :
  executeCleanupAt i s c st = Ok st' →
  (endBlock <$> cleanupScopes st) !! i ≠ Some b →
  termOf (irs st') b = termOf (irs st) b.
Proof.
  unfold executeCleanupAt. intros H Hb.
  destruct (cleanupScopes st !! i) as [sc|] eqn:Ei; [|done].
  inv_bind H. destruct a as [irs' sc']. injection H as <-. cbn.
  apply (executeCleanup_termOf_frame _ _ _ _ _ _ _ Ha).
  intros ->. apply Hb. by rewrite list_lookup_fmap, Ei.
Qed.

Lemma runCleanups_loop_termOf (i t : nat) (c b : block) (st st' : ScopeStack) :
  runCleanups_loop i t c st = Ok st' →
  b ∉ endBlock <$> drop t (cleanupScopes st) →
  termOf (irs st') b = termOf (irs st) b.
Proof.
  revert st. induction i as [|i IH]; intros st H Hb; cbn [runCleanups_loop] in H.
  - by injection H as <-.
  - case_bool_decide as Hlt; [|by injection H as <-].
    inv_bind H. rename a into nextBlock. inv_bind H. rename a into st1.
    pose proof (executeCleanupAt_cleanupFrame _ _ _ _ _ Ha0) as Hfr.
    destruct Hfr as (_ & _ & _ & _ & _ & _ & _ & He & _).
    rewrite (IH _ H).
    + apply (executeCleanupAt_termOf _ _ _ _ _ _ Ha0).
      intros Hi. apply Hb. rewrite fmap_drop.
      apply (list_elem_of_lookup_2 _ (i - t)). rewrite lookup_drop.
      by replace (t + (i - t)) with i by lia.
    + by rewrite fmap_drop, He, <- fmap_drop.
Qed.

(** X5: after a successful [runCleanups] every block other than the current
    one and the exit blocks of the scopes unwound has the terminator it
    had; the current block, when it is a block of the function and none of
    these exit blocks, ends in the branch to [continueWith] when the
    target cursor is the current depth, and to the entry block of the
    innermost scope otherwise. *)
Theorem runCleanups_ends_the_current_block
    (st st' : ScopeStack) (targetScope : nat) (continueWith : block) :
  runCleanups st targetScope continueWith = Ok st' →
  let cur := scopebb (irs st) in
  let unwound := endBlock <$> drop targetScope (cleanupScopes st) in
  (∀ b, b ≠ cur → b ∉ unwound → termOf (irs st') b = termOf (irs st) b)
  ∧ (cur ∈ dom (func (irs st)) → cur ∉ unwound →
     termOf (irs st') cur
     = Some (Br (match last (cleanupScopes st) with
                 | Some sc =>
                     if decide (targetScope = currentCleanupScope st)
                     then continueWith else beginBlock sc
                 | None => continueWith
                 end))).
Proof.
  intros H. cbn zeta. unfold runCleanups in H.
  destruct (decide (targetScope ≤ currentCleanupScope st)) as [Hle|Hle].
  2:{ by rewrite (bool_decide_false (targetScope ≤ _)) in H by done. }
  rewrite (bool_decide_true (targetScope ≤ _)) in H by done.
  cbn [assert mbind Result_bind] in H.
  case_bool_decide as Heq.
  - injection H as <-. cbn. split.
    + intros b Hb _. rewrite termOf_appendInst, decide_False; [done|].
      intros [? _]. by apply Hb.
    + intros Hin _. rewrite termOf_appendInst, decide_True by done. cbn.
      destruct (last (cleanupScopes st)); [|done]. by rewrite decide_True.
  - destruct (last (cleanupScopes st)) as [sc|] eqn:El; [|done].
    split.
    + intros b Hb Hun. rewrite (runCleanups_loop_termOf _ _ _ b _ _ H) by done.
      cbn. rewrite termOf_appendInst, decide_False; [done|].
      intros [? _]. by apply Hb.
    + intros Hin Hun. rewrite (runCleanups_loop_termOf _ _ _ _ _ _ H) by done.
      cbn. rewrite termOf_appendInst, decide_True by done. cbn.
      by rewrite decide_False.
Qed.

(** X6: with a target cursor above the current depth [runCleanups] fails its
    assertion, whereas [popCleanups] finds nothing to pop and returns the
    stack as it is. *)
Theorem cursor_beyond_depth
    (st : ScopeStack) (targetScope : nat) (continueWith : block) :
  currentCleanupScope st < targetScope →
  runCleanups st targetScope continueWith
  = Fail (AssertionFailure "targetScope <= currentCleanupScope()")
  ∧ popCleanups st targetScope = Ok st.
Proof.
  intros H. split.
  - unfold runCleanups. by rewrite (bool_decide_false (targetScope ≤ _)) by lia.
  - rewrite popCleanups_as_loop. apply popCleanups_loop_ge. lia.
Qed.

Lemma mergeAndPop_length (cs : list CleanupScope) (sc : CleanupScope)
    (st st2 : ScopeStack) :
  cleanupScopes st = cs ++ [sc] →
  runPopStep st (MergeAndPop (length cs)) = Ok st2 →
  length (cleanupScopes st2) = length cs.
Proof.
  intros E H. destruct (snoc_cases cs) as [->|(cs0 & sa & ->)].
  - rewrite (mergeAndPop_outermost sc) in H by done. by injection H as <-.
  - rewrite length_app in H. cbn [length] in H. rewrite Nat.add_1_r in H.
    rewrite <- app_assoc in E. cbn in E.
    rewrite (mergeAndPop_inner cs0 sa sc) in H by done. injection H as <-.
    cbn. by rewrite !length_app.
Qed.

Lemma length_poppedScopes (cs : list CleanupScope) (t : nat) :
  t ≤ length cs → length (poppedScopes cs t) = t.
Proof.
  intros H. destruct t as [|t]; [done|]. unfold poppedScopes.
  rewrite length_alter, length_take. lia.
Qed.

Lemma popCleanups_loop_two_stages (t t' n : nat) (st : ScopeStack) :
  length (cleanupScopes st) = n → t' ≤ t → t ≤ n →
  popCleanups_loop n t st ≫= popCleanups_loop t t' = popCleanups_loop n t' st.
Proof.
  revert st. induction n as [|n IH]; intros st Hlen Htt Htn.
  - assert (t = 0) as -> by lia. done.
  - destruct (decide (t = S n)) as [->|Hne].
    { by rewrite (popCleanups_loop_ge (S n) (S n)) by lia. }
    rewrite !popCleanups_loop_unfold by lia.
    destruct (snoc_cases (cleanupScopes st)) as [E|(cs & sc & E)].
    { rewrite E in Hlen. discriminate. }
    assert (Hn : length cs = n).
    { rewrite E, length_app in Hlen. cbn in Hlen. lia. }
    destruct (popCleanups_gotos n (currentUnresolvedGotos st) st) as [st1|f] eqn:Hg;
      [|done].
    cbn [mbind Result_bind].
    rewrite <- Hn in Hg.
    assert (Hcur : currentUnresolvedGotos st = unresolvedGotos sc).
    { unfold currentUnresolvedGotos. by rewrite E, last_snoc. }
    rewrite Hcur in Hg.
    destruct (popCleanups_gotos_result _ cs sc st st1 E Hg) as (_ & sc1 & E1 & _).
    destruct (runPopStep st1 (MergeAndPop n)) as [st2|f] eqn:Hm; [|done].
    cbn [mbind Result_bind]. apply IH; [|done|lia].
    rewrite <- Hn in Hm. rewrite (mergeAndPop_length cs sc1 st1 st2 E1 Hm). done.
Qed.

(** X7: closing scopes in two steps is closing them in one: [popCleanups] to
    a cursor between the target and the current depth, followed by
    [popCleanups] to the target, has the result (or the failure) of
    [popCleanups] to the target. *)
Theorem popCleanups_in_two_stages (st : ScopeStack) (targetScope middle : nat) :
  targetScope ≤ middle → middle ≤ currentCleanupScope st →
  popCleanups st middle ≫= (λ st1, popCleanups st1 targetScope)
  = popCleanups st targetScope.
Proof.
  intros H1 H2. rewrite !popCleanups_as_loop.
  rewrite <- (popCleanups_loop_two_stages middle targetScope
                (currentCleanupScope st) st eq_refl H1 H2).
  destruct (popCleanups_loop (currentCleanupScope st) middle st) as [st1|f] eqn:Hp;
    [|done].
  cbn. rewrite popCleanups_as_loop. f_equal.
  apply popCleanups_loop_shape in Hp as (Hcs & _); [|done].
  unfold currentCleanupScope. rewrite Hcs. by apply length_poppedScopes.
Qed.

Lemma popCleanups_loop_no_pending (t n : nat) (st : ScopeStack) :
  length (cleanupScopes st) = n → t ≤ n →
  Forall (λ sc, unresolvedGotos sc = []) (drop t (cleanupScopes st)) →
  popCleanups_loop n t st = Ok (setCleanupScopes (take t (cleanupScopes st)) st).
Proof.
  revert st. induction n as [|n IH]; intros st Hlen Htn Hall.
  - apply nil_length_inv in Hlen. cbn. rewrite Hlen, take_nil, <- Hlen.
    by rewrite setCleanupScopes_id.
  - destruct (decide (t = S n)) as [->|Hne].
    { rewrite popCleanups_loop_ge by lia.
      rewrite take_ge by lia. by rewrite setCleanupScopes_id. }
    rewrite popCleanups_loop_unfold by lia.
    destruct (snoc_cases (cleanupScopes st)) as [E|(cs & sc & E)].
    { rewrite E in Hlen. discriminate. }
    assert (Hn : length cs = n).
    { rewrite E, length_app in Hlen. cbn in Hlen. lia. }
    rewrite E in Hall. rewrite drop_app_le in Hall by lia.
    apply Forall_app in Hall as [Hall Hsc].
    apply (proj1 (Forall_singleton _ _)) in Hsc. cbn beta in Hsc.
    assert (Hcur : currentUnresolvedGotos st = []).
    { unfold currentUnresolvedGotos. rewrite E, last_snoc. exact Hsc. }
    rewrite Hcur. cbn [popCleanups_gotos mbind Result_bind].
    assert (Hstep : runPopStep st (MergeAndPop n) = Ok (setCleanupScopes cs st)).
    { rewrite <- Hn. destruct (snoc_cases cs) as [->|(cs0 & sa & ->)].
      - rewrite (mergeAndPop_outermost sc) by done. rewrite Hsc, app_nil_r.
        by destruct st.
      - rewrite length_app. cbn [length]. rewrite Nat.add_1_r.
        rewrite <- app_assoc in E. cbn in E.
        rewrite (mergeAndPop_inner cs0 sa sc) by done.
        by rewrite Hsc, app_nil_r, setUnresolvedGotos_id. }
    rewrite Hstep. cbn [mbind Result_bind].
    rewrite IH; [|done|lia|done]. cbn. rewrite E, take_app_le by lia. done.
Qed.

(** X8: when no scope at or above the target cursor has an unresolved goto,
    [popCleanups] only drops these scopes: no instruction and no list
    changes. *)
Theorem popCleanups_without_pending_gotos (st : ScopeStack) (targetScope : nat) :
  targetScope ≤ currentCleanupScope st →
  Forall (λ sc, unresolvedGotos sc = []) (drop targetScope (cleanupScopes st)) →
  popCleanups st targetScope
  = Ok (setCleanupScopes (take targetScope (cleanupScopes st)) st).
Proof.
  intros Ht Hall. rewrite popCleanups_as_loop.
  by apply popCleanups_loop_no_pending.
Qed.

Lemma cleanupScopes_foldl_pushCleanup (ps : list (block * block)) (st : ScopeStack) :
  foldl (λ s p, pushCleanup s p.1 p.2) st ps
  = setCleanupScopes
      (cleanupScopes st ++ ((λ p, mkCleanupScope p.1 p.2 [] None []) <$> ps)) st.
Proof.
  revert st. induction ps as [|p ps IH]; intros st; cbn.
  - by rewrite app_nil_r, setCleanupScopes_id.
  - rewrite IH. unfold pushCleanup. cbn. by rewrite <- app_assoc.
Qed.

(** X9: [pushCleanup] adds one scope each time, and the current unresolved
    list is empty after a push; closing the scopes just pushed gives back
    the stack exactly as it was. *)
Theorem pushCleanup_popCleanups_round_trip
    (st : ScopeStack) (ps : list (block * block)) :
  let st' := foldl (λ s p, pushCleanup s p.1 p.2) st ps in
  currentCleanupScope st' = currentCleanupScope st + length ps
  ∧ currentUnresolvedGotos st'
    = (if decide (ps = []) then currentUnresolvedGotos st else [])
  ∧ popCleanups st' (currentCleanupScope st) = Ok st.
Proof.
  cbn zeta. rewrite cleanupScopes_foldl_pushCleanup.
  split; [|split].
  - unfold currentCleanupScope. cbn. by rewrite length_app, length_fmap.
  - unfold currentUnresolvedGotos. cbn.
    destruct (snoc_cases ps) as [->|(ps' & p & ->)].
    + by rewrite app_nil_r.
    + rewrite fmap_app, app_assoc. cbn. rewrite last_snoc.
      rewrite decide_False; [done|]. by intros ?%app_nil_r_inv.
  - rewrite popCleanups_as_loop.
    unfold currentCleanupScope.
    rewrite (popCleanups_loop_no_pending _ _ _ eq_refl);
      cbn [cleanupScopes setCleanupScopes].
    + rewrite take_app_length. by destruct st.
    + rewrite length_app. lia.
    + rewrite drop_app_length. apply Forall_fmap. by apply Forall_true.
Qed.



Lemma last_Some_snoc {A} (l : list A) (x : A) :
  last l = Some x → removelast l ++ [x] = l.
Proof.
  destruct (snoc_cases l) as [->|(l' & y & ->)]; [done|].
  rewrite last_snoc, removelast_snoc. by intros [= ->].
Qed.

Lemma setCurrentUnresolvedGotos_id (st : ScopeStack) :
  setCurrentUnresolvedGotos (currentUnresolvedGotos st) st = st.
Proof.
  unfold setCurrentUnresolvedGotos, currentUnresolvedGotos.
  destruct (last (cleanupScopes st)) as [sc|] eqn:El.
  - rewrite setUnresolvedGotos_id, (last_Some_snoc _ _ El). by destruct st.
  - by destruct st.
Qed.

Lemma filter_all {A} (P : A → Prop) `{∀ x, Decision (P x)} (l : list A) :
  Forall P l → filter P l = l.
Proof.
  induction 1 as [|x l Hx _ IH]; [done|]. by rewrite filter_cons_True, IH.
Qed.

Lemma filter_none {A} (P : A → Prop) `{∀ x, Decision (P x)} (l : list A) :
  Forall (λ x, ¬ P x) l → filter P l = [].
Proof.
  induction 1 as [|x l Hx _ IH]; [done|]. by rewrite filter_cons_False.
Qed.

Lemma addLabelTarget_no_match (st : ScopeStack) (l : Identifier) (b : block) :
  Forall (λ g, targetLabel g ≠ l) (currentUnresolvedGotos st) →
  addLabelTarget st l b
  = setLabelTargets
      (<[l := mkJumpTarget b (currentCleanupScope st) None]> (labelTargets st)) st.
Proof.
  intros Hall. unfold addLabelTarget. rewrite resolveGotos_spec.
  change (currentUnresolvedGotos (setLabelTargets _ st))
    with (currentUnresolvedGotos st).
  rewrite (filter_all _ _ Hall), (filter_none (λ g, targetLabel g = l)).
  2:{ eapply Forall_impl; [exact Hall|]. cbn. intros g Hg. exact Hg. }
  cbn [foldl].
  set (st1 := setLabelTargets _ st).
  change (irs st1) with (irs st). 
  replace (setIrs (irs st) st1) with st1 by (by destruct st).
  change (currentUnresolvedGotos st) with (currentUnresolvedGotos st1).
  apply setCurrentUnresolvedGotos_id.
Qed.

Lemma currentCleanupScope_setCurrent (gs : list GotoJump) (st : ScopeStack) :
  currentCleanupScope (setCurrentUnresolvedGotos gs st) = currentCleanupScope st.
Proof.
  unfold setCurrentUnresolvedGotos, currentCleanupScope.
  destruct (last (cleanupScopes st)) as [sc|] eqn:El; [|done].
  cbn. rewrite <- (last_Some_snoc _ _ El) at 2. by rewrite !length_app.
Qed.

Lemma currentCleanupScope_addLabelTarget (st : ScopeStack) (l : Identifier) (b : block) :
  currentCleanupScope (addLabelTarget st l b) = currentCleanupScope st.
Proof.
  unfold addLabelTarget. destruct (resolveGotos _ _ _ _) as [gs irs'].
  by rewrite currentCleanupScope_setCurrent.
Qed.

(** X10: [addLabelTarget] does not look for an earlier definition: called again
    for the same label it replaces the entry of the label table by the new
    block (at the same cursor) and changes nothing else; the gotos the
    first call resolved stay resolved to the first block. *)
Theorem addLabelTarget_again_only_rebinds
    (st : ScopeStack) (labelName : Identifier) (targetBlock targetBlock' : block) :
  let st1 := addLabelTarget st labelName targetBlock in
  addLabelTarget st1 labelName targetBlock'
  = setLabelTargets
      (<[labelName := mkJumpTarget targetBlock' (currentCleanupScope st) None]>
         (labelTargets st)) st1.
Proof.
  cbn zeta. rewrite addLabelTarget_no_match.
  - rewrite currentCleanupScope_addLabelTarget, addLabelTarget_labelTargets.
    by rewrite insert_insert_eq.
  - destruct (addLabelTarget_current st labelName targetBlock) as [-> _].
    apply Forall_forall. intros g Hg. by apply list_elem_of_filter in Hg as [? _].
Qed.

Lemma currentCleanupScope_jumpToLabel (st st' : ScopeStack) (loc : Loc) (l : Identifier) :
  labelTargets st !! l = None → jumpToLabel st loc l = Ok st' →
  currentCleanupScope st' = currentCleanupScope st.
Proof.
  unfold jumpToLabel. intros -> H. cbn in H. injection H as <-.
  by rewrite currentCleanupScope_setCurrent.
Qed.

(** X11: a label defined inside a cleanup scope that was just pushed resolves
    no goto pending outside: [addLabelTarget] only writes the label table,
    with the cursor inside the scope, and closing the scope gives the stack
    as it was before the push but for that entry. So a goto issued at top
    level before the scope is still unresolved at the end, and the
    destructor reports it. *)
Theorem label_inside_scope_resolves_no_outer_goto
    (st : ScopeStack) (beginBlock endBlock : block)
    (labelName : Identifier) (targetBlock : block) :
  let inside := addLabelTarget (pushCleanup st beginBlock endBlock) labelName targetBlock in
  let bound :=
    <[labelName := mkJumpTarget targetBlock (S (currentCleanupScope st)) None]>
      (labelTargets st) in
  inside = setLabelTargets bound (pushCleanup st beginBlock endBlock)
  ∧ popCleanups inside (currentCleanupScope st) = Ok (setLabelTargets bound st)
  ∧ (∀ st0 loc,
       labelTargets st0 !! labelName = None → cleanupScopes st0 = [] →
       jumpToLabel st0 loc labelName = Ok st →
       DiagError loc "goto into try/finally scope is not allowed"
       ∈ ScopeStack_destroy (setLabelTargets bound st)).
Proof.
  cbn zeta.
  assert (Hin : addLabelTarget (pushCleanup st beginBlock endBlock) labelName targetBlock
                = setLabelTargets
                    (<[labelName := mkJumpTarget targetBlock (S (currentCleanupScope st)) None]>
                       (labelTargets st))
                    (pushCleanup st beginBlock endBlock)).
  { rewrite addLabelTarget_no_match.
    - unfold currentCleanupScope, pushCleanup. cbn. rewrite length_app. cbn.
      by rewrite Nat.add_1_r.
    - unfold currentUnresolvedGotos, pushCleanup. cbn. by rewrite last_snoc. }
  split; [done|]. rewrite Hin. split.
  - rewrite popCleanups_as_loop. unfold currentCleanupScope.
    rewrite (popCleanups_loop_no_pending _ _ _ eq_refl); cbn.
    + rewrite take_app_length. by destruct st.
    + rewrite length_app. lia.
    + rewrite drop_app_length. by repeat constructor.
  - intros st0 loc Hnone Hempty Hjump.
    pose proof (jumpToLabel_forward_current _ _ _ _ Hnone Hjump) as Hcur.
    pose proof (currentCleanupScope_jumpToLabel _ _ _ _ Hnone Hjump) as Hdepth.
    unfold currentCleanupScope in Hdepth. rewrite Hempty in Hdepth.
    apply nil_length_inv in Hdepth.
    unfold currentUnresolvedGotos in Hcur. rewrite Hdepth, Hempty in Hcur. cbn in Hcur.
    unfold ScopeStack_destroy. cbn [topLevelUnresolvedGotos setLabelTargets].
    rewrite Hcur.
    destruct (topLevelUnresolvedGotos st0 ++ _) as [|g0 gs] eqn:E;
      [by apply app_nil_r_inv in E|].
    rewrite <- E. apply elem_of_app. left.
    change (map ?f ?l) with (f <$> l). rewrite fmap_app. apply elem_of_app. right.
    cbn. apply list_elem_of_singleton. done.
Qed.

(** X12: a label keeps the cursor of its definition; once the stack is
    shallower than that, [jumpToLabel] to the label fails the assertion of
    [runCleanups]. *)
Theorem stale_label_fails_assertion
    (st st' : ScopeStack) (labelName : Identifier) (targetBlock : block)
    (ops : list Op) (loc : Loc) :
  Forall (λ o, ¬ definesLabel labelName o) ops →
  runOps ops (addLabelTarget st labelName targetBlock) = Ok st' →
  currentCleanupScope st' < currentCleanupScope st →
  jumpToLabel st' loc labelName
  = Fail (AssertionFailure "targetScope <= currentCleanupScope()").
Proof.
  intros Hops Hrun Hlt. unfold jumpToLabel.
  rewrite (runOps_labelTargets _ _ _ _ Hops Hrun), addLabelTarget_labelTargets.
  rewrite lookup_insert_eq. cbn. unfold runCleanups.
  by rewrite (bool_decide_false (_ ≤ _)) by lia.
Qed.

Lemma popCleanups_shape (st st' : ScopeStack) (t : nat) :
  popCleanups st t = Ok st' →
  cleanupScopes st' = poppedScopes (cleanupScopes st) t
  ∧ topLevelUnresolvedGotos st'
    = poppedTopLevel (topLevelUnresolvedGotos st) (cleanupScopes st) t
  ∧ continueTargets st' = continueTargets st
  ∧ breakTargets st' = breakTargets st.
Proof.
  rewrite popCleanups_as_loop. intros H.
  apply popCleanups_loop_shape in H as (? & ? & ? & ? & _); done.
Qed.

(** X13: [popCleanups] leaves the continue and break stacks alone, so the
    targets of a loop registered at a depth that is closed before
    [popLoopTarget] are stale: [jumpToClosest] and [jumpToStatement] for
    the loop then fail the assertion of [runCleanups]. *)
Theorem stale_loop_target_fails_assertion
    (st st' : ScopeStack) (loopStatement : Statement) (continueTarget breakTarget : block)
    (targetScope : nat) :
  targetScope < currentCleanupScope st →
  popCleanups (pushLoopTarget st loopStatement continueTarget breakTarget) targetScope
  = Ok st' →
  let fails := Fail (AssertionFailure "targetScope <= currentCleanupScope()") in
  jumpToClosest st' (breakTargets st') = fails
  ∧ jumpToClosest st' (continueTargets st') = fails
  ∧ jumpToStatement st' (breakTargets st') loopStatement = fails
  ∧ jumpToStatement st' (continueTargets st') loopStatement = fails.
Proof.
  intros Hlt Hpop. cbn zeta.
  apply popCleanups_shape in Hpop as (Hcs & _ & Hct & Hbt).
  assert (Hdepth : currentCleanupScope st' = targetScope).
  { unfold currentCleanupScope. rewrite Hcs. apply length_poppedScopes.
    cbn. unfold currentCleanupScope in Hlt. lia. }
  assert (Hfail : ∀ b, runCleanups st' (currentCleanupScope st) b
                       = Fail (AssertionFailure "targetScope <= currentCleanupScope()")).
  { intros b. unfold runCleanups.
    by rewrite (bool_decide_false (_ ≤ _)) by lia. }
  rewrite Hct, Hbt. cbn [pushLoopTarget continueTargets breakTargets
                          setContinueTargets setBreakTargets].
  rewrite !jumpToClosest_snoc. unfold jumpToStatement.
  rewrite !rev_unit. cbn [findStatement targetStatement].
  rewrite !bool_decide_true by done. cbn [cleanupScope targetBlock].
  change (currentCleanupScope (setContinueTargets _ st)) with (currentCleanupScope st).
  by rewrite !Hfail.
Qed.

Lemma pendingAt_nil (k : nat) : pendingAt [] k = [].
Proof. unfold pendingAt. by rewrite drop_nil. Qed.

Lemma pendingAt_cons_0 (sc : CleanupScope) (cs : list CleanupScope) :
  pendingAt (sc :: cs) 0 = unresolvedGotos sc ++ pendingAt cs 0.
Proof. done. Qed.

Lemma pendingAt_poppedScopes (cs : list CleanupScope) (t : nat) :
  pendingAt (poppedScopes cs (S t)) 0 = pendingAt cs 0.
Proof.
  unfold poppedScopes. revert t. induction cs as [|sc cs IH]; intros t.
  - by rewrite take_nil.
  - destruct t as [|t].
    + cbn [take alter list_alter]. rewrite !pendingAt_cons_0.
      cbn [unresolvedGotos setUnresolvedGotos].
      change (take 0 cs) with (@nil CleanupScope).
      by rewrite pendingAt_nil, app_nil_r.
    + cbn [take alter list_alter]. rewrite !pendingAt_cons_0. f_equal.
      apply (IH t).
Qed.

Lemma pendingGotos_popped (top : list GotoJump) (cs : list CleanupScope) (t : nat) :
  poppedTopLevel top cs t ++ pendingAt (poppedScopes cs t) 0 = top ++ pendingAt cs 0.
Proof.
  destruct t as [|t].
  - cbn [poppedTopLevel poppedScopes]. by rewrite pendingAt_nil, app_nil_r.
  - by rewrite pendingAt_poppedScopes.
Qed.

(** X14: [popCleanups] loses, duplicates and reorders no pending goto: the
    top-level list followed by the lists of the scopes, outermost first, is
    the same sequence before and after. The depth afterwards is the target
    cursor, and the scopes below the innermost remaining one are
    untouched. *)
Theorem popCleanups_conserves_pending_gotos
    (st st' : ScopeStack) (targetScope : nat) :
  popCleanups st targetScope = Ok st' →
  pendingGotos st' = pendingGotos st
  ∧ (targetScope ≤ currentCleanupScope st → currentCleanupScope st' = targetScope)
  ∧ (∀ i sc, S i < targetScope → cleanupScopes st !! i = Some sc →
       cleanupScopes st' !! i = Some sc).
Proof.
  intros H. apply popCleanups_shape in H as (Hcs & Htop & _).
  unfold pendingGotos. rewrite Hcs, Htop. split; [apply pendingGotos_popped|].
  split.
  - intros Hle. unfold currentCleanupScope. rewrite Hcs. by apply length_poppedScopes.
  - intros i sc Hi Hl. unfold poppedScopes. destruct targetScope as [|t]; [lia|].
    rewrite list_lookup_alter_ne by lia. rewrite lookup_take_lt by lia. done.
Qed.

Lemma pendingGotos_append (g : GotoJump) (st : ScopeStack) :
  pendingGotos (setCurrentUnresolvedGotos (currentUnresolvedGotos st ++ [g]) st)
  = pendingGotos st ++ [g].
Proof.
  unfold pendingGotos, setCurrentUnresolvedGotos, currentUnresolvedGotos.
  destruct (last (cleanupScopes st)) as [sc|] eqn:El.
  - cbn [cleanupScopes setCleanupScopes topLevelUnresolvedGotos].
    rewrite <- (last_Some_snoc _ _ El) at 2.
    rewrite !pendingAt_snoc by lia.
    cbn [unresolvedGotos setUnresolvedGotos]. by rewrite !app_assoc.
  - apply last_None in El. cbn. rewrite El, pendingAt_nil, !app_nil_r. done.
Qed.

(** X15: [jumpToLabel] to an unknown label appends exactly one goto at the end
    of the sequence of all pending gotos, and its placeholder is the one
    block added to the function; when the placeholders of the pending
    gotos were blocks of the function and pairwise distinct, they still
    are. *)
Theorem jumpToLabel_placeholders_stay_distinct
    (st st' : ScopeStack) (loc : Loc) (labelName : Identifier) :
  labelTargets st !! labelName = None →
  jumpToLabel st loc labelName = Ok st' →
  let g := mkGotoJump loc (scopebb (irs st)) (fresh (dom (func (irs st)))) labelName in
  pendingGotos st' = pendingGotos st ++ [g]
  ∧ dom (func (irs st')) = {[tentativeTarget g]} ∪ dom (func (irs st))
  ∧ (Forall (λ g, tentativeTarget g ∈ dom (func (irs st))) (pendingGotos st) →
     NoDup (tentativeTarget <$> pendingGotos st) →
     Forall (λ g, tentativeTarget g ∈ dom (func (irs st'))) (pendingGotos st')
     ∧ NoDup (tentativeTarget <$> pendingGotos st')).
Proof.
  intros Hnone H. cbn zeta. unfold jumpToLabel in H. rewrite Hnone in H.
  cbn in H. injection H as <-.
  set (g := mkGotoJump _ _ _ _).
  set (st1 := setIrs _ st).
  assert (Hp : pendingGotos (setCurrentUnresolvedGotos (currentUnresolvedGotos st1 ++ [g]) st1)
               = pendingGotos st ++ [g]).
  { change (pendingGotos st) with (pendingGotos st1). apply pendingGotos_append. }
  assert (Hd : dom (func (irs (setCurrentUnresolvedGotos
                                 (currentUnresolvedGotos st1 ++ [g]) st1)))
               = {[tentativeTarget g]} ∪ dom (func (irs st))).
  { rewrite irs_setCurrentUnresolvedGotos. cbn.
    rewrite dom_alter_L, dom_insert_L. done. }
  split; [exact Hp|]. split; [exact Hd|].
  intros Hall Hnd. rewrite Hp, Hd. split.
  - apply Forall_app. split.
    + eapply Forall_impl; [exact Hall|]. cbn. intros x Hx.
      apply elem_of_union. by right.
    + apply Forall_singleton. apply elem_of_union. left. by apply elem_of_singleton.
  - rewrite fmap_app. apply NoDup_app. split; [done|]. split; [|apply NoDup_singleton].
    intros x Hx Hx'. apply list_elem_of_singleton in Hx'. subst x.
    apply list_elem_of_fmap in Hx as (g' & Heq & Hg').
    rewrite Forall_forall in Hall. specialize (Hall _ Hg'). rewrite <- Heq in Hall.
    cbn in Hall. by apply is_fresh in Hall.
Qed.

Lemma unregister_register (st : ScopeStack) (r : Registration) :
  unregister (register st r) r = Ok st.
Proof.
  destruct r; cbn.
  - unfold popLoopTarget, pushLoopTarget. cbn. rewrite pop_back_snoc. cbn.
    rewrite pop_back_snoc. cbn. by destruct st.
  - unfold popBreakTarget, pushBreakTarget. cbn. rewrite pop_back_snoc. cbn.
    by destruct st.
Qed.

(** X16: registrations undone in reverse order, [popLoopTarget] for a loop and
    [popBreakTarget] for a switch, leave the state exactly as it was
    before them. [popLoopTarget] with an empty continue or break stack and
    [popBreakTarget] with an empty break stack are [pop_back] on an empty
    vector. *)
Theorem balanced_registrations_restore_the_stacks
    (st : ScopeStack) (rs : list Registration) :
  foldl (λ m r, m ≫= λ s, unregister s r) (Ok (foldl register st rs)) (rev rs) = Ok st
  ∧ (continueTargets st = [] ∨ breakTargets st = [] →
     popLoopTarget st = Fail (UndefinedBehaviour "pop_back() on an empty vector"))
  ∧ (breakTargets st = [] →
     popBreakTarget st = Fail (UndefinedBehaviour "pop_back() on an empty vector")).
Proof.
  split; [|split].
  - revert st. induction rs as [|r rs IH] using rev_ind; intros st; [done|].
    rewrite foldl_app, rev_unit. cbn [foldl mbind Result_bind].
    by rewrite unregister_register.
  - unfold popLoopTarget. intros [E|E].
    + by rewrite E.
    + destruct (pop_back (continueTargets st)) as [cts|f] eqn:Ec.
      * cbn. by rewrite E.
      * cbn. unfold pop_back in Ec. destruct (continueTargets st); [|done].
        by injection Ec as <-.
  - unfold popBreakTarget. by intros ->.
Qed.

(** ** Creation of the per-function record and inlining attributes *)

Section IrFunctionFacts.
Import IrFunctions.
Context `{Frontend}.

Lemma isIrFuncCreated_spec (d : FuncDeclarationPtr) (fd : FuncDeclaration) (h : Heap) :
  declarations h !! d = Some fd →
  isIrFuncCreated d h
  = match m_type (ir fd) with
    | FuncType => Ok true
    | NotSet => Ok false
    | OtherType _ =>
        Fail (AssertionFailure "t == IrDsymbol::FuncType || t == IrDsymbol::NotSet")
    end.
Proof.
  intros E. unfold isIrFuncCreated. rewrite E. cbn.
  destruct (m_type (ir fd)) eqn:Em; cbn.
  - rewrite (bool_decide_true (_ ∨ _)) by (by right). cbn.
    by rewrite bool_decide_false.
  - rewrite (bool_decide_true (_ ∨ _)) by (by left). cbn.
    by rewrite bool_decide_true.
  - rewrite (bool_decide_false (_ ∨ _)); [done|]. by intros [?|?].
Qed.

(** X17: for a declaration of function type that has no [IrFunction] yet,
    [getIrFunc] with [create] allocates a record with the fields the
    constructor sets (back pointer, base type, null pointers, depth -1,
    flags off), attaches it to the declaration and marks the declaration
    [FuncType]. From then on [isIrFuncCreated] answers true and every
    [getIrFunc], with or without [create], returns this record and changes
    nothing. The [func] of the new record being null, an inlining request
    on it is a null dereference. *)
Theorem getIrFunc_creates_once
    (d : FuncDeclarationPtr) (fd : FuncDeclaration) (h : Heap) :
  declarations h !! d = Some fd →
  m_type (ir fd) = NotSet → irFunc (ir fd) = None →
  ty (toBasetype (decl_type fd)) = Tfunction →
  let p := fresh (dom (irFunctions h)) in
  let created :=
    mkIrFunction d (toBasetype (decl_type fd)) None None false false
      None None None None None (-1) false None None None None in
  let h' :=
    mkHeap
      (<[d := mkFuncDeclaration (decl_type fd) (mkIrDsymbol FuncType (Some p))]>
         (declarations h))
      (<[p := created]> (irFunctions h)) (fnAttrs h) in
  isIrFuncCreated d h = Ok false
  ∧ getIrFunc d true h = Ok (p, h')
  ∧ irFunctions h !! p = None
  ∧ isIrFuncCreated d h' = Ok true
  ∧ (∀ create, getIrFunc d create h' = Ok (p, h'))
  ∧ setNeverInline p h' = Fail (UndefinedBehaviour "func is null")
  ∧ setAlwaysInline p h' = Fail (UndefinedBehaviour "func is null").
Proof.
  intros E Em Ei Et. cbn zeta.
  split; [by rewrite (isIrFuncCreated_spec d fd h E), Em|].
  split; [|split; [|split; [|split; [|split]]]].
  5,6: unfold setNeverInline, setAlwaysInline, funcAttrs; cbn;
       by rewrite lookup_insert_eq.
  - unfold getIrFunc. rewrite (isIrFuncCreated_spec d fd h E), Em. cbn.
    rewrite E. cbn. rewrite Ei. cbn. unfold IrFunction_new. rewrite E. cbn.
    rewrite Et, bool_decide_true by done. cbn. by rewrite lookup_insert_eq.
  - apply not_elem_of_dom. apply is_fresh.
  - erewrite isIrFuncCreated_spec; [|cbn; apply lookup_insert_eq]. done.
  - intros create. unfold getIrFunc.
    erewrite isIrFuncCreated_spec; [|cbn; apply lookup_insert_eq]. cbn.
    by rewrite lookup_insert_eq.
Qed.


Lemma getIrFunc_undeclared (d : FuncDeclarationPtr) (create : bool) (h : Heap) :
  declarations h !! d = None →
  getIrFunc d create h
  = Fail (UndefinedBehaviour "decl does not point to a declaration").
Proof. intros E. unfold getIrFunc, isIrFuncCreated. by rewrite E. Qed.

Lemma getIrFunc_other (d : FuncDeclarationPtr) (fd : FuncDeclaration) (create : bool)
    (h : Heap) (k : nat) :
  declarations h !! d = Some fd → m_type (ir fd) = OtherType k →
  getIrFunc d create h
  = Fail (AssertionFailure "t == IrDsymbol::FuncType || t == IrDsymbol::NotSet").
Proof.
  intros E Em. unfold getIrFunc. by rewrite (isIrFuncCreated_spec d fd h E), Em.
Qed.

Lemma getIrFunc_lookup (d : FuncDeclarationPtr) (fd : FuncDeclaration) (create : bool)
    (h : Heap) :
  declarations h !! d = Some fd →
  m_type (ir fd) = FuncType ∨ (m_type (ir fd) = NotSet ∧ create = false) →
  getIrFunc d create h
  = match irFunc (ir fd) with
    | Some p => Ok (p, h)
    | None => Fail (AssertionFailure "decl->ir.irFunc != NULL")
    end.
Proof.
  intros E Hm. unfold getIrFunc. rewrite (isIrFuncCreated_spec d fd h E).
  destruct Hm as [->|[-> ->]]; cbn; by rewrite E.
Qed.

Lemma getIrFunc_create (d : FuncDeclarationPtr) (fd : FuncDeclaration) (h : Heap) :
  declarations h !! d = Some fd → m_type (ir fd) = NotSet →
  getIrFunc d true h
  = match irFunc (ir fd) with
    | Some _ => Fail (AssertionFailure "decl->ir.irFunc == NULL")
    | None =>
        if bool_decide (ty (toBasetype (decl_type fd)) = Tfunction) then
          let p := fresh (dom (irFunctions h)) in
          Ok (p, mkHeap
                   (<[d := mkFuncDeclaration (decl_type fd)
                             (mkIrDsymbol FuncType (Some p))]> (declarations h))
                   (<[p := mkIrFunction d (toBasetype (decl_type fd)) None None
                             false false None None None None None (-1) false
                             None None None None]> (irFunctions h))
                   (fnAttrs h))
        else Fail (AssertionFailure "t->ty == Tfunction")
    end.
Proof.
  intros E Em. unfold getIrFunc. rewrite (isIrFuncCreated_spec d fd h E), Em. cbn.
  rewrite E. cbn. destruct (irFunc (ir fd)) as [q|]; [done|]. cbn.
  unfold IrFunction_new. rewrite E. cbn.
  case_bool_decide; [|done]. cbn. by rewrite lookup_insert_eq.
Qed.

(** X18: [getIrFunc] keeps the symbols consistent. The record it returns is
    attached to the declaration asked for, points back to it and has a
    function type; no other declaration shares it; the other declarations,
    the records that existed and the function attributes are unchanged. *)
Theorem getIrFunc_keeps_symbols_consistent
    (d : FuncDeclarationPtr) (create : bool) (h h' : Heap) (p : IrFunctionPtr) :
  symbolsOk h → getIrFunc d create h = Ok (p, h') →
  symbolsOk h'
  ∧ (∃ fd f, declarations h' !! d = Some fd
       ∧ m_type (ir fd) = FuncType ∧ irFunc (ir fd) = Some p
       ∧ irFunctions h' !! p = Some f
       ∧ decl f = d ∧ ty (type f) = Tfunction)
  ∧ (∀ d' fd', d' ≠ d → declarations h' !! d' = Some fd' → irFunc (ir fd') ≠ Some p)
  ∧ (∀ d', d' ≠ d → declarations h' !! d' = declarations h !! d')
  ∧ (∀ q f, irFunctions h !! q = Some f → irFunctions h' !! q = Some f)
  ∧ fnAttrs h' = fnAttrs h.
Proof.
  intros Hok Hget.
  assert (Hmain : symbolsOk h'
    ∧ (∃ fd f, declarations h' !! d = Some fd
         ∧ m_type (ir fd) = FuncType ∧ irFunc (ir fd) = Some p
         ∧ irFunctions h' !! p = Some f
         ∧ decl f = d ∧ ty (type f) = Tfunction)
    ∧ (∀ d', d' ≠ d → declarations h' !! d' = declarations h !! d')
    ∧ (∀ q f, irFunctions h !! q = Some f → irFunctions h' !! q = Some f)
    ∧ fnAttrs h' = fnAttrs h).
  { destruct (declarations h !! d) as [fd|] eqn:E;
      [|by rewrite getIrFunc_undeclared in Hget].
    pose proof (Hok d fd E) as Hd.
    destruct (m_type (ir fd)) as [| |k] eqn:Em;
      [|..|by rewrite (getIrFunc_other d fd create h k) in Hget].
    - destruct (irFunc (ir fd)) as [q|] eqn:Ei; [by destruct Hd|].
      destruct create.
      2:{ rewrite (getIrFunc_lookup d fd false h E) in Hget by (by right).
          by rewrite Ei in Hget. }
      rewrite (getIrFunc_create d fd h E Em), Ei in Hget.
      case_bool_decide as Ht; [|done]. cbn zeta in Hget. injection Hget as <- <-.
      pose proof (is_fresh (dom (irFunctions h))) as Hfresh.
      split; [|split; [|split; [|split]]]; cbn.
      + intros d0 fd0 E0. cbn in E0.
        destruct (decide (d0 = d)) as [->|Hne].
        * rewrite lookup_insert_eq in E0. injection E0 as <-. cbn.
          split; [done|]. eexists. rewrite lookup_insert_eq. by repeat split.
        * rewrite lookup_insert_ne in E0 by done.
          pose proof (Hok d0 fd0 E0) as H0.
          destruct (irFunc (ir fd0)) as [q|]; [|done].
          destruct H0 as (? & f & Hf & ? & ?). split; [done|]. exists f.
          cbn. rewrite lookup_insert_ne; [done|]. intros <-.
          apply Hfresh. by apply elem_of_dom.
      + eexists _, _. rewrite !lookup_insert_eq. by repeat split.
      + intros d' Hne. by rewrite lookup_insert_ne.
      + intros q f Hq. rewrite lookup_insert_ne; [done|]. intros <-.
        apply Hfresh. by apply elem_of_dom.
      + done.
    - rewrite (getIrFunc_lookup d fd create h E) in Hget by (by left).
      destruct (irFunc (ir fd)) as [q|] eqn:Ei; [|done]. injection Hget as <- <-.
      destruct Hd as (_ & f & Hf & Hdf & Htf).
      split; [done|]. split; [|done]. exists fd, f. by repeat split. }
  destruct Hmain as (Hok' & Hp & Hd & Hq & Ha).
  split; [done|]. split; [done|]. split; [|done].
  intros d' fd' Hne E' Ei.
  pose proof (Hok' d' fd' E') as H'. rewrite Ei in H'.
  destruct H' as (_ & f' & Hf' & Hdf' & _).
  destruct Hp as (fd & f & _ & _ & _ & Hf & Hdf & _).
  rewrite Hf in Hf'. injection Hf' as <-. congruence.
Qed.

(** X19: on consistent symbols [getIrFunc] succeeds exactly for a declaration
    that has its record, or that has none yet, is asked with [create] and
    has function type. Without [create] a declaration without record fails
    the assertion [decl->ir.irFunc != NULL]; with [create] a declaration
    whose base type is not a function fails the assertion of the
    constructor; a symbol of another kind fails the assertion of
    [isIrFuncCreated]. *)
Theorem getIrFunc_succeeds_exactly_when
    (d : FuncDeclarationPtr) (create : bool) (h : Heap) :
  symbolsOk h →
  (isOk (getIrFunc d create h)
   ↔ ∃ fd, declarations h !! d = Some fd
       ∧ (m_type (ir fd) = FuncType
          ∨ (m_type (ir fd) = NotSet ∧ create = true
             ∧ ty (toBasetype (decl_type fd)) = Tfunction)))
  ∧ (∀ fd, declarations h !! d = Some fd → m_type (ir fd) = NotSet →
       getIrFunc d false h = Fail (AssertionFailure "decl->ir.irFunc != NULL")
       ∧ (ty (toBasetype (decl_type fd)) ≠ Tfunction →
          getIrFunc d true h = Fail (AssertionFailure "t->ty == Tfunction")))
  ∧ (∀ fd k, declarations h !! d = Some fd → m_type (ir fd) = OtherType k →
       isIrFuncCreated d h
       = Fail (AssertionFailure "t == IrDsymbol::FuncType || t == IrDsymbol::NotSet")
       ∧ getIrFunc d create h
         = Fail (AssertionFailure "t == IrDsymbol::FuncType || t == IrDsymbol::NotSet")).
Proof.
  intros Hok.
  assert (Hnone : ∀ fd, declarations h !! d = Some fd → m_type (ir fd) = NotSet →
            irFunc (ir fd) = None).
  { intros fd E Em. pose proof (Hok d fd E) as Hd.
    destruct (irFunc (ir fd)); [|done]. destruct Hd as [Hd _]. congruence. }
  split; [|split].
  - destruct (declarations h !! d) as [fd|] eqn:E.
    2:{ rewrite getIrFunc_undeclared by done. split; [done|]. by intros (? & ? & _). }
    pose proof (Hok d fd E) as Hd.
    destruct (m_type (ir fd)) as [| |k] eqn:Em.
    + rewrite (Hnone fd eq_refl Em) in Hd. destruct create.
      * rewrite (getIrFunc_create d fd h E Em), (Hnone fd eq_refl Em).
        case_bool_decide as Ht.
        -- split; [|done]. intros _. exists fd. split; [done|]. right. by repeat split.
        -- split; [done|]. intros (fd' & [= <-] & [?|(_ & _ & ?)]); congruence.
      * rewrite (getIrFunc_lookup d fd false h E) by (by right).
        rewrite (Hnone fd eq_refl Em).
        split; [done|]. intros (fd' & [= <-] & [?|(_ & ? & _)]); congruence.
    + rewrite (getIrFunc_lookup d fd create h E) by (by left).
      destruct (irFunc (ir fd)); [|done].
      split; [|done]. intros _. exists fd. split; [done|]. by left.
    + rewrite (getIrFunc_other d fd create h k E Em).
      split; [done|]. intros (fd' & [= <-] & [?|(? & _)]); congruence.
  - intros fd E Em. split.
    + rewrite (getIrFunc_lookup d fd false h E) by (by right).
      by rewrite (Hnone fd E Em).
    + intros Ht. rewrite (getIrFunc_create d fd h E Em), (Hnone fd E Em).
      by rewrite bool_decide_false.
  - intros fd k E Em. split.
    + by rewrite (isIrFuncCreated_spec d fd h E), Em.
    + by apply (getIrFunc_other d fd create h k).
Qed.

Lemma funcAttrs_setFnAttrs (this : IrFunctionPtr) (h : Heap) (p : LLFunctionPtr)
    (attrs attrs' : gset Attribute) :
  funcAttrs this h = Ok (p, attrs) →
  funcAttrs this (setFnAttrs (<[p := attrs']> (fnAttrs h)) h) = Ok (p, attrs').
Proof.
  unfold funcAttrs. cbn. destruct (irFunctions h !! this) as [f|]; [|done].
  destruct (func f) as [q|]; [|done].
  destruct (fnAttrs h !! q) as [a|] eqn:E; [|done]. intros [= -> ->].
  by rewrite lookup_insert_eq.
Qed.

Lemma setInline_spec (r : InlineRequest) (this : IrFunctionPtr) (h : Heap) :
  setInline r this h
  = '(p, attrs) ← funcAttrs this h;
    _ ← assert (bool_decide (inlineAttribute (opposite r) ∉ attrs))
          "function can't be never- and always-inline at the same time";
    Ok (setFnAttrs (<[p := attrs ∪ {[inlineAttribute r]}]> (fnAttrs h)) h).
Proof. by destruct r. Qed.

(** X20: a successful inlining request adds its attribute to the function of
    the record and changes nothing else; it keeps every function from
    being marked both never-inline and always-inline; repeating the request
    changes nothing, and the opposite request then fails its assertion. *)
Theorem inline_requests_exclude_each_other
    (r : InlineRequest) (this : IrFunctionPtr) (h h1 : Heap) :
  setInline r this h = Ok h1 →
  (∃ p attrs, funcAttrs this h = Ok (p, attrs)
     ∧ (inlineAttribute (opposite r) ∉ attrs)
     ∧ h1 = setFnAttrs (<[p := attrs ∪ {[inlineAttribute r]}]> (fnAttrs h)) h)
  ∧ (inlineExclusive h → inlineExclusive h1)
  ∧ setInline r this h1 = Ok h1
  ∧ setInline (opposite r) this h1
    = Fail (AssertionFailure
              "function can't be never- and always-inline at the same time").
Proof.
  rewrite setInline_spec. intros Hset.
  destruct (funcAttrs this h) as [[p attrs]|] eqn:Ef; [|done]. cbn in Hset.
  case_bool_decide as Hopp; [|done]. cbn in Hset. injection Hset as <-.
  pose proof (funcAttrs_setFnAttrs this h p attrs (attrs ∪ {[inlineAttribute r]}) Ef)
    as Ef1.
  split; [by eexists _, _|]. split; [|split].
  - intros Hex q a Hq. cbn in Hq.
    destruct (decide (q = p)) as [->|Hne].
    + rewrite lookup_insert_eq in Hq. injection Hq as <-.
      intros [Ha Hn]. apply Hopp.
      destruct r; cbn in *;
        [apply elem_of_union in Ha as [Ha|Ha]|apply elem_of_union in Hn as [Hn|Hn]];
        try done; by apply elem_of_singleton in Ha || by apply elem_of_singleton in Hn.
    + rewrite lookup_insert_ne in Hq by done. by apply (Hex q).
  - rewrite setInline_spec, Ef1. cbn. rewrite bool_decide_true.
    + cbn. unfold setFnAttrs. cbn. rewrite insert_insert_eq. do 3 f_equal.
      by rewrite <- (assoc_L (∪)), (idemp_L (∪)).
    + intros Hin. apply elem_of_union in Hin as [Hin|Hin]; [done|].
      apply elem_of_singleton in Hin. by destruct r.
  - rewrite setInline_spec, Ef1. cbn. rewrite bool_decide_false; [done|].
    intros Hn. apply Hn. apply elem_of_union. right. apply elem_of_singleton.
    by destruct r.
Qed.

End IrFunctionFacts.

(** ** The further properties on concrete inputs *)

Lemma exit_targets_record_sources_by_destination_witness :
  sourceBlocks <$> exitTargets demo_served.2
  = [[9%positive; 9%positive]; [10%positive]]
  ∧ NoDup (branchTarget <$> exitTargets demo_served.2).
Proof.
  destruct (exit_targets_record_sources_by_destination
              demo_irs demo_served.1 demo_inner demo_served.2 demo_requests)
    as (Hnd & _).
  - reflexivity.
  - vm_compute; reflexivity.
  - split; [vm_compute; reflexivity|exact Hnd].
Defined.

Lemma executeCleanup_touches_only_its_blocks_witness :
  dom (func demo_second.1) = dom (func demo_irs)
  ∧ instsOf demo_second.1 6%positive = [OtherInst 3 false []]
  ∧ termOf demo_second.1 9%positive = Some (Br 4%positive).
Proof.
  destruct (executeCleanup_touches_only_its_blocks
              (appendInst 5%positive (Br 7%positive) demo_irs) demo_second.1
              (setExitTargets [mkExitTarget 7%positive [9%positive]] demo_inner)
              demo_second.2 10%positive 8%positive)
    as (Hdom & _ & _ & _ & _ & Hterm & Hinsts & _).
  - vm_compute; reflexivity.
  - split; [rewrite Hdom; vm_compute; reflexivity|]. split.
    + rewrite Hinsts; [vm_compute; reflexivity|discriminate|discriminate|].
      cbn. intros Hin. apply elem_of_cons in Hin as [Hin|Hin]; [discriminate|].
      by apply elem_of_nil in Hin.
    + rewrite Hterm by discriminate. vm_compute; reflexivity.
Defined.

Lemma runCleanups_keeps_scopes_and_targets_witness :
  currentCleanupScope (stateOr demo_stack (runCleanups demo_stack 0 7%positive)) = 2.
Proof.
  destruct (runCleanups_keeps_scopes_and_targets demo_stack
              (stateOr demo_stack (runCleanups demo_stack 0 7%positive)) 0 7%positive)
    as (Hdepth & _).
  - vm_compute; reflexivity.
  - rewrite Hdepth. reflexivity.
Defined.

Lemma runCleanups_ends_the_current_block_witness :
  termOf (irs (stateOr demo_stack (runCleanups demo_stack 0 7%positive))) 6%positive
  = Some (Br 4%positive).
Proof.
  destruct (runCleanups_ends_the_current_block demo_stack
              (stateOr demo_stack (runCleanups demo_stack 0 7%positive)) 0 7%positive)
    as (_ & Hcur).
  - vm_compute; reflexivity.
  - apply Hcur; [solve_in_dom|].
    cbn. intros Hin. repeat (apply elem_of_cons in Hin as [Hin|Hin]; [discriminate|]).
    by apply elem_of_nil in Hin.
Defined.

Lemma cursor_beyond_depth_witness :
  runCleanups demo_stack 3 7%positive
  = Fail (AssertionFailure "targetScope <= currentCleanupScope()")
  ∧ popCleanups demo_stack 3 = Ok demo_stack.
Proof.
  apply (cursor_beyond_depth demo_stack 3 7%positive). vm_compute. lia.
Defined.

Lemma popCleanups_in_two_stages_witness :
  popCleanups demo_goto 1 ≫= (λ st1, popCleanups st1 0) = popCleanups demo_goto 0.
Proof.
  apply (popCleanups_in_two_stages demo_goto 0 1); vm_compute; lia.
Defined.

Lemma popCleanups_without_pending_gotos_witness :
  popCleanups demo_stack 0 = Ok (setCleanupScopes [] demo_stack).
Proof.
  apply (popCleanups_without_pending_gotos demo_stack 0).
  - vm_compute. lia.
  - repeat constructor.
Defined.

Lemma stale_label_fails_assertion_witness :
  jumpToLabel demo_closed 2%positive 5%positive
  = Fail (AssertionFailure "targetScope <= currentCleanupScope()").
Proof.
  apply (stale_label_fails_assertion demo_stack demo_closed 5%positive 7%positive
           [OpPopCleanups 0] 2%positive).
  - repeat constructor. cbn. tauto.
  - vm_compute; reflexivity.
  - vm_compute. lia.
Defined.

Lemma stale_loop_target_fails_assertion_witness :
  jumpToClosest demo_stale (breakTargets demo_stale)
  = Fail (AssertionFailure "targetScope <= currentCleanupScope()").
Proof.
  destruct (stale_loop_target_fails_assertion demo_stack demo_stale
              3%positive 7%positive 8%positive 0) as (Hbreak & _).
  - vm_compute. lia.
  - vm_compute; reflexivity.
  - exact Hbreak.
Defined.

Lemma popCleanups_conserves_pending_gotos_witness :
  pendingGotos (stateOr demo_goto (popCleanups demo_goto 0))
  = [mkGotoJump 1%positive 6%positive 13%positive 5%positive].
Proof.
  destruct (popCleanups_conserves_pending_gotos demo_goto
              (stateOr demo_goto (popCleanups demo_goto 0)) 0) as (Hsame & _).
  - vm_compute; reflexivity.
  - rewrite Hsame. vm_compute; reflexivity.
Defined.

Lemma jumpToLabel_placeholders_stay_distinct_witness :
  pendingGotos demo_goto = [mkGotoJump 1%positive 6%positive 13%positive 5%positive]
  ∧ NoDup (tentativeTarget <$> pendingGotos demo_goto).
Proof.
  destruct (jumpToLabel_placeholders_stay_distinct demo_stack demo_goto
              1%positive 5%positive) as (Hall & _ & Hkeep).
  - reflexivity.
  - vm_compute; reflexivity.
  - split; [rewrite Hall; vm_compute; reflexivity|].
    apply Hkeep; constructor.
Defined.

Lemma getIrFunc_creates_once_witness :
  ∃ h', IrFunctions.getIrFunc (H := demo_frontend) 10%positive true demo_heap
        = Ok (1%positive, h')
    ∧ IrFunctions.isIrFuncCreated 10%positive h' = Ok true
    ∧ IrFunctions.getIrFunc (H := demo_frontend) 10%positive false h'
      = Ok (1%positive, h').
Proof.
  destruct (getIrFunc_creates_once (H := demo_frontend) 10%positive
              (IrFunctions.mkFuncDeclaration 2%positive
                 (IrFunctions.mkIrDsymbol IrFunctions.NotSet None)) demo_heap)
    as (_ & Hget & _ & Hcr & Hagain & _).
  - vm_compute; reflexivity.
  - reflexivity.
  - reflexivity.
  - vm_compute; reflexivity.
  - eexists. split; [exact Hget|]. split; [exact Hcr|]. apply Hagain.
Defined.

Lemma demo_heap_ok : symbolsOk (H := demo_frontend) demo_heap.
Proof.
  intros d fd Hd. cbn in Hd. apply lookup_singleton_Some in Hd as [<- <-].
  cbn. discriminate.
Qed.

Lemma getIrFunc_keeps_symbols_consistent_witness :
  symbolsOk (H := demo_frontend)
    (resultOr (1%positive, demo_heap)
       (IrFunctions.getIrFunc (H := demo_frontend) 10%positive true demo_heap)).2.
Proof.
  destruct (getIrFunc_keeps_symbols_consistent (H := demo_frontend) 10%positive true
              demo_heap
              (resultOr (1%positive, demo_heap)
                 (IrFunctions.getIrFunc (H := demo_frontend) 10%positive true demo_heap)).2
              1%positive) as (Hok & _).
  - apply demo_heap_ok.
  - vm_compute; reflexivity.
  - exact Hok.
Defined.

Lemma getIrFunc_succeeds_exactly_when_witness :
  IrFunctions.getIrFunc (H := demo_frontend) 10%positive false demo_heap
  = Fail (AssertionFailure "decl->ir.irFunc != NULL").
Proof.
  destruct (getIrFunc_succeeds_exactly_when (H := demo_frontend) 10%positive false
              demo_heap demo_heap_ok) as (_ & Hnot & _).
  destruct (Hnot (IrFunctions.mkFuncDeclaration 2%positive
                    (IrFunctions.mkIrDsymbol IrFunctions.NotSet None)))
    as (Hfail & _); [vm_compute; reflexivity|reflexivity|exact Hfail].
Defined.

Lemma inline_requests_exclude_each_other_witness :
  ∃ h1, IrFunctions.setAlwaysInline 1%positive demo_heap_defined = Ok h1
    ∧ IrFunctions.setNeverInline 1%positive h1
      = Fail (AssertionFailure
                "function can't be never- and always-inline at the same time").
Proof.
  destruct (inline_requests_exclude_each_other AlwaysInlineRequest 1%positive
              demo_heap_defined
              (resultOr demo_heap_defined
                 (IrFunctions.setAlwaysInline 1%positive demo_heap_defined)))
    as (_ & _ & _ & Hopp).
  - vm_compute; reflexivity.
  - eexists. split; [vm_compute; reflexivity|exact Hopp].
Defined.
